(** * biblint: a shallow embedding of the [bib] and [lexer] packages

    Go strings are byte sequences; the code walks them rune by rune
    ([for _, r := range s], [utf8.DecodeRuneInString]) and builds new
    strings with [string(r)].  The embedding keeps that: a Go string is
    a [list ascii] (one [ascii] per byte), runes are code points in [N],
    and the UTF-8 decoder and encoder of Go's runtime are written out.
    Maps ([Fields], [Symbols]) are [gmap]s keyed by Go strings. *)

From Stdlib Require Import ZArith NArith Ascii String Lia Bool.
From stdpp Require Import base option list gmap strings.

Set Default Proof Using "Type".
Local Open Scope N_scope.
Local Open Scope list_scope.

(** ** Go strings *)

Abbreviation byte := ascii (only parsing).
Abbreviation gostring := (list ascii) (only parsing).

(** A Go string literal. *)
Definition str (s : string) : gostring := list_ascii_of_string s.
Arguments str _%_string.

Definition bval (b : byte) : N := N_of_ascii b.
Definition byte_of (n : N) : byte := ascii_of_N n.

(** [s[i:]], [s[:i]] and [strings.Join(words, sep)]. *)
Definition Join (words : list gostring) (sep : gostring) : gostring :=
  match words with
  | [] => []
  | w :: ws => w ++ concat (map (fun x => sep ++ x) ws)
  end.

(** Byte-wise lexicographic order: Go's [<] and [==] on strings. *)
Fixpoint string_lt (a b : gostring) : bool :=
  match a, b with
  | _, [] => false
  | [], _ :: _ => true
  | x :: a', y :: b' =>
      if bval x <? bval y then true
      else if bval y <? bval x then false
      else string_lt a' b'
  end.

Definition string_eq (a b : gostring) : bool := bool_decide (a = b).

(** ** Runes and UTF-8 (Go's [unicode/utf8]) *)

Definition rune := N.
Definition RuneError : rune := 0xFFFD.
Definition MaxRune : rune := 0x10FFFF.

Definition inrange (lo hi x : N) : bool := (lo <=? x) && (x <=? hi).
Definition cont (b : byte) : bool := inrange 0x80 0xBF (bval b).

(** [utf8.DecodeRuneInString]: the first rune of [s] and its width in
    bytes; an empty string gives [(RuneError, 0)], an encoding that is
    invalid, too short, overlong or out of range gives [(RuneError, 1)]. *)
Definition DecodeRuneInString (s : gostring) : rune * nat :=
  match s with
  | [] => (RuneError, 0%nat)
  | b0 :: t =>
      let s0 := bval b0 in
      if s0 <? 0x80 then (s0, 1%nat)
      else if (s0 <? 0xC2) || (0xF4 <? s0) then (RuneError, 1%nat)
      else if s0 <? 0xE0 then
        match t with
        | b1 :: _ =>
            if cont b1 then ((s0 mod 32) * 64 + bval b1 mod 64, 2%nat)
            else (RuneError, 1%nat)
        | _ => (RuneError, 1%nat)
        end
      else if s0 <? 0xF0 then
        let lo := if s0 =? 0xE0 then 0xA0 else 0x80 in
        let hi := if s0 =? 0xED then 0x9F else 0xBF in
        match t with
        | b1 :: b2 :: _ =>
            if inrange lo hi (bval b1) && cont b2 then
              ((s0 mod 16) * 4096 + (bval b1 mod 64) * 64 + bval b2 mod 64, 3%nat)
            else (RuneError, 1%nat)
        | _ => (RuneError, 1%nat)
        end
      else
        let lo := if s0 =? 0xF0 then 0x90 else 0x80 in
        let hi := if s0 =? 0xF4 then 0x8F else 0xBF in
        match t with
        | b1 :: b2 :: b3 :: _ =>
            if inrange lo hi (bval b1) && cont b2 && cont b3 then
              ((s0 mod 8) * 262144 + (bval b1 mod 64) * 4096
               + (bval b2 mod 64) * 64 + bval b3 mod 64, 4%nat)
            else (RuneError, 1%nat)
        | _ => (RuneError, 1%nat)
        end
  end.

(** [string(r)]: the UTF-8 encoding of [r]; a surrogate or a value above
    [MaxRune] is encoded as [RuneError]. *)
Definition EncodeRune (r : rune) : gostring :=
  if r <? 0x80 then [byte_of r]
  else if r <? 0x800 then [byte_of (0xC0 + r / 64); byte_of (0x80 + r mod 64)]
  else if (MaxRune <? r) || inrange 0xD800 0xDFFF r then
    [byte_of 0xEF; byte_of 0xBF; byte_of 0xBD]
  else if r <? 0x10000 then
    [byte_of (0xE0 + r / 4096); byte_of (0x80 + (r / 64) mod 64);
     byte_of (0x80 + r mod 64)]
  else
    [byte_of (0xF0 + r / 262144); byte_of (0x80 + (r / 4096) mod 64);
     byte_of (0x80 + (r / 64) mod 64); byte_of (0x80 + r mod 64)].

(** [for i, r := range s]: the byte offset and the rune of every
    iteration.  [skip] counts the bytes of the current rune still to be
    stepped over. *)
Fixpoint range_from (skip i : nat) (s : gostring) : list (nat * rune) :=
  match s with
  | [] => []
  | _ :: t =>
      match skip with
      | S k => range_from k (S i) t
      | O =>
          let '(r, n) := DecodeRuneInString s in
          (i, r) :: range_from (Nat.pred n) (S i) t
      end
  end.

Definition range_string (s : gostring) : list (nat * rune) := range_from 0 0 s.
Definition runes (s : gostring) : list rune := map snd (range_string s).

(** [utf8.ValidString]: no rune of [s] decodes to [(RuneError, 1)]. *)
Fixpoint valid_from (skip : nat) (s : gostring) : bool :=
  match s with
  | [] => true
  | _ :: t =>
      match skip with
      | S k => valid_from k t
      | O =>
          let '(r, n) := DecodeRuneInString s in
          negb ((r =? RuneError) && Nat.eqb n 1) && valid_from (Nat.pred n) t
      end
  end.
Definition ValidString (s : gostring) : bool := valid_from 0 s.

(** Rune literals of the source. *)
Definition r_lbrace : rune := 123.   (* opening brace *)
Definition r_rbrace : rune := 125.   (* closing brace *)
Definition r_quote : rune := 34.     (* double quote *)
Definition r_hyphen : rune := 45.    (* hyphen *)
Definition r_space : rune := 32.     (* space *)
Definition r_backslash : rune := 92. (* backslash *)
Definition r_newline : rune := 10.   (* line feed *)

(** ** Go's [unicode] package

    Up to [MaxLatin1] Go answers from a fixed 256-entry property table,
    which is written out here; above it Go searches its range tables
    ([unicode.Upper], [unicode.Lower], [unicode.Punct], [unicode.Letter],
    [unicode.CaseRanges]).  Those tables are data of the Go distribution,
    not of this repository: they are a parameter of the development. *)

Record UnicodeTables := {
  Upper : rune -> bool;
  Lower : rune -> bool;
  Punct : rune -> bool;
  Letter : rune -> bool;
  LowerCase : rune -> rune
}.

Definition MaxLatin1 : rune := 0xFF.
Definition MaxASCII : rune := 0x7F.

Definition latin1_upper (r : rune) : bool :=
  inrange 0x41 0x5A r || inrange 0xC0 0xD6 r || inrange 0xD8 0xDE r.
Definition latin1_lower (r : rune) : bool :=
  inrange 0x61 0x7A r || (r =? 0xB5) || inrange 0xDF 0xF6 r || inrange 0xF8 0xFF r.
Definition latin1_letter (r : rune) : bool :=
  latin1_upper r || latin1_lower r || (r =? 0xAA) || (r =? 0xBA).
Definition latin1_punct (r : rune) : bool :=
  inrange 0x21 0x23 r || inrange 0x25 0x2A r || inrange 0x2C 0x2F r
  || inrange 0x3A 0x3B r || inrange 0x3F 0x40 r || inrange 0x5B 0x5D r
  || (r =? 0x5F) || (r =? 0x7B) || (r =? 0x7D)
  || (r =? 0xA1) || (r =? 0xA7) || (r =? 0xAB) || inrange 0xB6 0xB7 r
  || (r =? 0xBB) || (r =? 0xBF).

(** [unicode.IsSpace]: the White_Space property, complete. *)
Definition IsSpace (r : rune) : bool :=
  if r <=? MaxLatin1 then
    inrange 0x09 0x0D r || (r =? 0x20) || (r =? 0x85) || (r =? 0xA0)
  else
    (r =? 0x1680) || inrange 0x2000 0x200A r || inrange 0x2028 0x2029 r
    || (r =? 0x202F) || (r =? 0x205F) || (r =? 0x3000).

Section Unicode.
Context (U : UnicodeTables).

Definition IsUpper (r : rune) : bool :=
  if r <=? MaxLatin1 then latin1_upper r else Upper U r.
Definition IsLower (r : rune) : bool :=
  if r <=? MaxLatin1 then latin1_lower r else Lower U r.
Definition IsLetter (r : rune) : bool :=
  if r <=? MaxLatin1 then latin1_letter r else Letter U r.
Definition IsPunct (r : rune) : bool :=
  if r <=? MaxLatin1 then latin1_punct r else Punct U r.

(** [unicode.ToLower]. *)
Definition unicode_ToLower (r : rune) : rune :=
  if r <=? MaxASCII then (if inrange 0x41 0x5A r then r + 32 else r)
  else LowerCase U r.

(** [strings.ToLower]: [strings.Map(unicode.ToLower, s)]; every rune is
    mapped and written back in UTF-8 (an invalid byte becomes U+FFFD). *)
Definition ToLower (s : gostring) : gostring :=
  concat (map (fun r => EncodeRune (unicode_ToLower r)) (runes s)).

End Unicode.

(** [strings.TrimSpace]: [TrimLeftFunc] decodes forward and stops at the
    first rune that is not white space; [TrimRightFunc] decodes backward
    with [utf8.DecodeLastRuneInString]. *)
Fixpoint TrimLeft_aux (fuel : nat) (s : gostring) : gostring :=
  match fuel with
  | O => s
  | S f =>
      match s with
      | [] => []
      | _ =>
          let '(r, n) := DecodeRuneInString s in
          if IsSpace r then TrimLeft_aux f (drop n s) else s
      end
  end.
Definition TrimLeft (s : gostring) : gostring := TrimLeft_aux (length s) s.

(** [utf8.RuneStart]. *)
Definition RuneStart (b : byte) : bool := negb (cont b).

(** [utf8.DecodeLastRuneInString], on the reversed string [rs]: look back
    at most [UTFMax] bytes for a rune start, decode from there, and accept
    the rune only if it ends exactly at the end of the string. *)
Definition DecodeLastRune (rs : gostring) : rune * nat :=
  match rs with
  | [] => (RuneError, 0%nat)
  | b :: _ =>
      if bval b <? 0x80 then (bval b, 1%nat)
      else
        let try (k : nat) : option (rune * nat) :=
          let '(r, n) := DecodeRuneInString (rev (take k rs)) in
          if Nat.eqb n k then Some (r, n) else None in
        let starts (k : nat) : bool :=
          match rs !! (k - 1)%nat with Some c => RuneStart c | None => false end in
        let found :=
          if starts 2%nat then try 2%nat
          else if starts 3%nat then try 3%nat
          else if starts 4%nat then try 4%nat
          else try (Nat.min 5 (length rs)) in
        match found with
        | Some rn => rn
        | None => (RuneError, 1%nat)
        end
  end.

Fixpoint TrimRight_aux (fuel : nat) (rs : gostring) : gostring :=
  match fuel with
  | O => rs
  | S f =>
      match rs with
      | [] => []
      | _ =>
          let '(r, n) := DecodeLastRune rs in
          if IsSpace r then TrimRight_aux f (drop n rs) else rs
      end
  end.
Definition TrimRight (s : gostring) : gostring :=
  rev (TrimRight_aux (length s) (rev s)).

Definition TrimSpace (s : gostring) : gostring := TrimRight (TrimLeft s).

(** ** braces.go: the brace tree *)

(** [BraceNode]: [Children] is a Go slice, [None] when it is [nil]
    (a node built as [&BraceNode{Leaf: accum}]) and [Some] when it was
    made with [make] (every node [ParseBraceTree] returns). *)
#[local] Unset Elimination Schemes.
Inductive BraceNode : Type :=
  mkBraceNode (Children : option (list BraceNode)) (Leaf : gostring).

#[local] Set Elimination Schemes.

Definition Children (bn : BraceNode) : option (list BraceNode) :=
  match bn with mkBraceNode c _ => c end.
Definition Leaf (bn : BraceNode) : gostring :=
  match bn with mkBraceNode _ l => l end.

(** [len] and indexing see a nil slice as an empty one. *)
Definition slice_elems {A} (s : option (list A)) : list A :=
  match s with Some l => l | None => [] end.

(** The closure [saveAccum] of [ParseBraceTree]; afterwards [accum] is
    empty. *)
Definition saveAccum (children : list BraceNode) (accum : gostring)
  : list BraceNode :=
  if (0 <? length accum)%nat then children ++ [mkBraceNode None accum]
  else children.

(** The loop of [ParseBraceTree]: [rest] is [s[i:]], [children] is
    [me.Children].  Every iteration consumes at least one byte, so
    [S (length s)] units of [fuel] are never used up
    ([ParseBraceTree_total]). *)
Fixpoint ParseBraceTree_loop (fuel : nat) (rest : gostring) (i : nat)
    (children : list BraceNode) (accum : gostring) : option (BraceNode * nat) :=
  match fuel with
  | O => None
  | S f =>
      match rest with
      | [] => Some (mkBraceNode (Some (saveAccum children accum)) [], i)
      | _ =>
          let '(r, iskip) := DecodeRuneInString rest in
          if r =? r_lbrace then
            match ParseBraceTree_loop f (drop iskip rest) 0 [] [] with
            | None => None
            | Some (c, nread) =>
                ParseBraceTree_loop f (drop (iskip + nread) rest)
                  (i + (iskip + nread)) (saveAccum children accum ++ [c]) []
            end
          else if r =? r_rbrace then
            Some (mkBraceNode (Some (saveAccum children accum)) [], (i + iskip)%nat)
          else
            ParseBraceTree_loop f (drop iskip rest) (i + iskip) children
              (accum ++ EncodeRune r)
      end
  end.

Definition ParseBraceTree (s : gostring) : option (BraceNode * nat) :=
  ParseBraceTree_loop (S (length s)) s 0 [] [].

Definition IsLeaf (bn : BraceNode) : bool :=
  Nat.eqb (length (slice_elems (Children bn))) 0.

Definition IsEntireStringBraced (bn : BraceNode) : bool :=
  match slice_elems (Children bn) with
  | [c] => negb (IsLeaf c)
  | _ => false
  end.

Definition ContainsNoBraces (bn : BraceNode) : bool :=
  match slice_elems (Children bn) with
  | [c] => IsLeaf c
  | _ => false
  end.

Fixpoint flatten (isroot inclbraces : bool) (bn : BraceNode) : gostring :=
  match bn with
  | mkBraceNode ch leaf =>
      match ch with
      | None | Some [] => leaf
      | Some cs =>
          let words := map (flatten false inclbraces) cs in
          if isroot then Join words []
          else if inclbraces then str "{" ++ Join words [] ++ str "}"
          else Join words []
      end
  end.

Definition Flatten (bn : BraceNode) : gostring := TrimSpace (flatten true true bn).
Definition FlattenForSorting (bn : BraceNode) : gostring := flatten true false bn.

(** [splitWords]: maximal runs of white space and of non white space. *)
Definition splitWords_step (st : list gostring * gostring * bool) (r : rune)
  : list gostring * gostring * bool :=
  let '(words, word, inspace) := st in
  if inspace && IsSpace r then (words, word ++ EncodeRune r, inspace)
  else if negb inspace && negb (IsSpace r) then (words, word ++ EncodeRune r, inspace)
  else
    (if bool_decide (word = []) then words else words ++ [word],
     EncodeRune r, IsSpace r).

Definition splitWords (s : gostring) : list gostring :=
  let '(c, _) := DecodeRuneInString s in
  let '(words, word, _) := foldl splitWords_step ([], [], IsSpace c) (runes s) in
  if bool_decide (word = []) then words else words ++ [word].

(** [HasQuote]. *)
Definition HasQuote (w : gostring) : bool :=
  existsb (fun r => r =? r_quote) (runes w).

Section Braces.
Context (U : UnicodeTables).

(** [IsStrangeCase]: the loop state is [(p, prevRune)]; the first rune
    that satisfies the test returns [true]. *)
Fixpoint IsStrangeCase_loop (p : nat) (prevRune : rune) (rs : list rune) : bool :=
  match rs with
  | [] => false
  | r :: rs' =>
      if (0 <? p)%nat && negb (prevRune =? r_hyphen) && IsUpper U r then true
      else IsStrangeCase_loop (if IsPunct U r then p else S p) r rs'
  end.

Definition IsStrangeCase (s : gostring) : bool :=
  IsStrangeCase_loop 0 r_space (runes s).

(** The body of the loop over a leaf child in [FlattenToMinBraces]. *)
Definition braceWord (w : gostring) : gostring :=
  if IsStrangeCase w || HasQuote w then str "{" ++ w ++ str "}" else w.

Definition FlattenToMinBraces (bn : BraceNode) : gostring :=
  match Children bn with
  | Some cs =>
      Join (concat (map (fun c =>
              if IsLeaf c then map braceWord (splitWords (Leaf c))
              else [flatten false true c]) cs)) []
  | None => Flatten bn
  end.

End Braces.

(** ** strconv *)

Definition digit_byte (d : N) : byte := byte_of (48 + d).

Fixpoint utoa_loop (fuel : nat) (n : N) (acc : gostring) : gostring :=
  match fuel with
  | O => acc
  | S f =>
      let acc' := digit_byte (n mod 10) :: acc in
      if n <? 10 then acc' else utoa_loop f (n / 10) acc'
  end.

(** [strconv.Itoa]. *)
Definition Itoa (z : Z) : gostring :=
  let n := Z.abs_N z in
  let ds := utoa_loop (S (N.to_nat (N.log2 n))) n [] in
  if (z <? 0)%Z then str "-" ++ ds else ds.

Definition is_digit (b : byte) : bool := inrange 48 57 (bval b).

(** [strconv.Atoi]: an optional sign and at least one decimal digit,
    the value within the 64-bit [int]; [None] is Go's [err != nil]. *)
Definition Atoi (s : gostring) : option Z :=
  let '(neg, ds) :=
    match s with
    | b :: t =>
        if bval b =? 45 then (true, t)
        else if bval b =? 43 then (false, t)
        else (false, s)
    | [] => (false, [])
    end in
  match ds with
  | [] => None
  | _ =>
      if forallb is_digit ds then
        let n := fold_left (fun acc b => acc * 10 + (bval b - 48)) ds 0 in
        let z := if neg then (- Z.of_N n)%Z else Z.of_N n in
        if ((- 2 ^ 63 <=? z) && (z <=? 2 ^ 63 - 1))%Z then Some z else None
      else None
  end.

(** ** bib.go: values, entries, databases *)

Inductive FieldType := StringType | NumberType | SymbolType.

#[global] Instance FieldType_eq_dec : EqDecision FieldType.
Proof. solve_decision. Defined.

(** [Value]: the Go struct keeps all three fields whatever the tag says
    (the fields [T], [S], [I] of the source). *)
Record Value := mkValue { vT : FieldType; vS : gostring; vI : Z }.

#[global] Instance Value_eq_dec : EqDecision Value.
Proof. solve_decision. Defined.

Definition StringV (s : gostring) : Value := mkValue StringType s 0.
Definition NumberV (i : Z) : Value := mkValue NumberType [] i.
Definition SymbolV (s : gostring) : Value := mkValue SymbolType s 0.

(** [EntryKind]: the constants of the source; [KString] and [KPreamble]
    are its [String] and [Preamble]. *)
Inductive EntryKind :=
  | Deleted | Other | KString | KPreamble | Article | Book | Booklet | InBook
  | InCollection | InProceedings | Manual | MastersThesis | Misc | PhdThesis
  | Proceedings | TechReport | Unpublished.

#[global] Instance EntryKind_eq_dec : EqDecision EntryKind.
Proof. solve_decision. Defined.

Definition identToKind : list (gostring * EntryKind) :=
  [ (str "other", Other); (str "string", KString); (str "preamble", KPreamble);
    (str "article", Article); (str "book", Book); (str "inbook", InBook);
    (str "incollection", InCollection); (str "inproceedings", InProceedings);
    (str "manual", Manual); (str "mastersthesis", MastersThesis);
    (str "misc", Misc); (str "phdthesis", PhdThesis);
    (str "proceedings", Proceedings); (str "techreport", TechReport);
    (str "unpublished", Unpublished) ].

Definition predefinedSymbols : gmap gostring gostring :=
  list_to_map
    [ (str "jan", str "January"); (str "feb", str "February");
      (str "mar", str "March"); (str "apr", str "April"); (str "may", str "May");
      (str "jun", str "June"); (str "jul", str "July"); (str "aug", str "August");
      (str "sep", str "September"); (str "oct", str "October");
      (str "nov", str "November"); (str "dec", str "December") ].

Definition titleLowerWords : list gostring :=
  map str [ "the"; "a"; "an"; "but"; "for"; "and"; "or"; "nor"; "to"; "from";
            "on"; "in"; "of"; "at"; "by" ]%string.

Record Author := mkAuthor {
  Others : bool;
  First : gostring;
  Last : gostring;
  Von : gostring;
  Jr : gostring
}.

#[global] Instance Author_eq_dec : EqDecision Author.
Proof. solve_decision. Defined.

Record Entry := mkEntry {
  Kind : EntryKind;
  EntryString : gostring;
  Key : gostring;
  Fields : gmap gostring Value;
  AuthorList : list Author;
  LineNo : Z
}.

Record BibTeXError := mkBibTeXError {
  BadEntry : option Entry;
  Tag : gostring;
  Msg : gostring
}.

Record Database := mkDatabase {
  Pubs : list Entry;
  Symbols : gmap gostring Value;
  Preamble : list gostring;
  Errors : list BibTeXError
}.

(** [Value.Equals]. *)
Definition Value_Equals (v1 v2 : Value) : bool :=
  if bool_decide (vT v1 = vT v2) then
    match vT v1 with
    | StringType | SymbolType => string_eq (vS v1) (vS v2)
    | NumberType => (vI v1 =? vI v2)%Z
    end
  else false.

Section Bib.
Context (U : UnicodeTables).

(** [toEntryKind]. *)
Definition toEntryKind (s : gostring) : EntryKind :=
  match list_find (fun p => fst p = ToLower U s) identToKind with
  | Some (_, (_, k)) => k
  | None => Other
  end.

(** [Database.SymbolValue]: [n] is [depth - i], the substitutions still
    allowed. *)
Fixpoint SymbolValue_loop (db : Database) (n : nat) (symb : Value) : Value :=
  match n with
  | O => symb
  | S n' =>
      match vT symb with
      | SymbolType =>
          let s := ToLower U (vS symb) in
          match Symbols db !! s with
          | Some v => SymbolValue_loop db n' v
          | None =>
              match predefinedSymbols !! s with
              | Some v => mkValue StringType v 0
              | None => symb
              end
          end
      | _ => symb
      end
  end.

Definition SymbolValue (db : Database) (symb : Value) (depth : Z) : Value :=
  SymbolValue_loop db (Z.to_nat depth) symb.

Definition is_text (t : FieldType) : bool :=
  bool_decide (t = StringType) || bool_decide (t = SymbolType).

(** [Database.Less].  [ParseBraceTree] always returns a tree
    ([ParseBraceTree_total]); the [None] branch is never taken. *)
Definition Less (db : Database) (v1 v2 : Value) : bool :=
  let v1 := SymbolValue db v1 10 in
  let v2 := SymbolValue db v2 10 in
  if is_text (vT v1) && is_text (vT v2) then
    match ParseBraceTree (vS v1), ParseBraceTree (vS v2) with
    | Some (bt1, _), Some (bt2, _) =>
        string_lt (FlattenForSorting bt1) (FlattenForSorting bt2)
    | _, _ => false
    end
  else if bool_decide (vT v1 = NumberType) && bool_decide (vT v2 = NumberType) then
    (vI v1 <? vI v2)%Z
  else
    let vs1 := if bool_decide (vT v1 = NumberType) then Itoa (vI v1) else vS v1 in
    let vs2 := if bool_decide (vT v2 = NumberType) then Itoa (vI v2) else vS v2 in
    string_lt vs1 vs2.

(** [Entry.IsSubset]: the loop over [e1.Fields] returns [false] at the
    first tag that [e2] lacks or binds to another value, whatever the
    order in which Go visits the map. *)
Definition field_in (e2 : Entry) (tag : gostring) (value1 : Value) : bool :=
  match Fields e2 !! tag with
  | Some value2 => Value_Equals value1 value2
  | None => false
  end.

Definition IsSubset (e1 e2 : Entry) : bool :=
  if bool_decide (Kind e1 <> Kind e2)
     || negb (string_eq (ToLower U (EntryString e1)) (ToLower U (EntryString e2)))
  then false
  else
    bool_decide (map_Forall (fun tag value1 => field_in e2 tag value1 = true)
                            (Fields e1)).

(** [Entry.Equals]. *)
Definition Entry_Equals (e1 e2 : Entry) : bool :=
  IsSubset e1 e2 && IsSubset e2 e1.

End Bib.

(** ** bib.go: the duplicate engine

    [db.Pubs] is a slice of pointers.  The parser appends a freshly
    allocated [Entry] for every unit it reads, so the pointers of a
    database are pairwise distinct: the entry heap is the list itself and
    a pointer is an index into it.  The bins hold such indices, and
    [entries[i].Kind = Deleted] updates the heap, where later
    comparisons see it. *)

Definition set_Kind (k : EntryKind) (e : Entry) : Entry :=
  mkEntry k (EntryString e) (Key e) (Fields e) (AuthorList e) (LineNo e).

Abbreviation heap := (list Entry) (only parsing).

(** [bins[key] = append(bins[key], e)]. *)
Definition bin_add (bins : gmap gostring (list nat)) (key : gostring) (i : nat)
  : gmap gostring (list nat) :=
  <[key := default [] (bins !! key) ++ [i]]> bins.

(** The binning loops: [key_of e] is the bin of [e], [None] when the
    loop skips [e]. *)
Definition bins_by (key_of : Entry -> option gostring) (pubs : list Entry)
  : gmap gostring (list nat) :=
  foldl (fun bins ie =>
           match key_of (snd ie) with
           | Some key => bin_add bins key (fst ie)
           | None => bins
           end) ∅ (imap pair pubs).

(** Go visits the keys of a map in an unspecified order: [range_order
    bins order] says that [order] is one such visit. *)
Definition range_order (bins : gmap gostring (list nat)) (order : list gostring) : Prop :=
  order ≡ₚ (map_to_list bins).*1.

(** [removeDeleted]: [None] is a run-time panic ([make] with a negative
    length, or [newPubs[i]] out of range); a slot that is never written
    stays [nil]. *)
Fixpoint removeDeleted_loop (pubs : list Entry) (newPubs : list (option Entry))
    (i : nat) : option (list (option Entry)) :=
  match pubs with
  | [] => Some newPubs
  | e :: rest =>
      if bool_decide (Kind e <> Deleted) then
        if (i <? length newPubs)%nat
        then removeDeleted_loop rest (<[i := Some e]> newPubs) (S i)
        else None
      else removeDeleted_loop rest newPubs i
  end.

Definition removeDeleted (pubs : heap) (ndel : Z) : option (list (option Entry)) :=
  let n := (Z.of_nat (length pubs) - ndel)%Z in
  if (n <? 0)%Z then None
  else removeDeleted_loop pubs (replicate (Z.to_nat n) None) 0.

Section Dups.
Context (U : UnicodeTables).

(** The two loops over one bin of [RemoveExactDups]: the inner loop
    stops at the first [j] with [entries[i].Equals(entries[j])]. *)
Fixpoint exactDups_bin (entries : list nat) (st : heap * Z) : heap * Z :=
  match entries with
  | [] => st
  | i :: later =>
      let '(h, ndel) := st in
      match h !! i with
      | Some ei =>
          if existsb (fun j => match h !! j with
                               | Some ej => Entry_Equals U ei ej
                               | None => false
                               end) later
          then exactDups_bin later (<[i := set_Kind Deleted ei]> h, (ndel + 1)%Z)
          else exactDups_bin later st
      | None => exactDups_bin later st
      end
  end.

Definition exactDups_mark (order : list gostring) (pubs : list Entry) : heap * Z :=
  let bins := bins_by (fun e => Some (ToLower U (Key e))) pubs in
  foldl (fun st key => exactDups_bin (default [] (bins !! key)) st) (pubs, 0%Z) order.

(** [RemoveExactDups]: the new value of [db.Pubs]. *)
Definition RemoveExactDups (order : list gostring) (db : Database)
  : option (list (option Entry)) :=
  let '(h, ndel) := exactDups_mark order (Pubs db) in
  removeDeleted h ndel.

(** The pair loops of [RemoveContainedEntries] and [RemoveDupsByTitle]
    over one bin. *)
Fixpoint contained_inner (i : nat) (js : list nat) (st : heap * Z) : heap * Z :=
  match js with
  | [] => st
  | j :: js' =>
      let '(h, ndel) := st in
      match h !! i, h !! j with
      | Some ei, Some ej =>
          if IsSubset U ei ej then
            contained_inner i js' (<[i := set_Kind Deleted ei]> h, (ndel + 1)%Z)
          else if IsSubset U ej ei then
            contained_inner i js' (<[j := set_Kind Deleted ej]> h, (ndel + 1)%Z)
          else contained_inner i js' st
      | _, _ => contained_inner i js' st
      end
  end.

Fixpoint contained_bin (entries : list nat) (st : heap * Z) : heap * Z :=
  match entries with
  | [] => st
  | i :: later => contained_bin later (contained_inner i later st)
  end.

Definition title_key (e : Entry) : option gostring :=
  match Fields e !! str "title" with
  | Some title => if bool_decide (vT title = StringType) then Some (vS title) else None
  | None => None
  end.

Definition RemoveContainedEntries (order : list gostring) (db : Database)
  : option (list (option Entry)) :=
  let byTitle := bins_by title_key (Pubs db) in
  let '(h, ndel) :=
    foldl (fun st key => contained_bin (default [] (byTitle !! key)) st)
          (Pubs db, 0%Z) order in
  removeDeleted h ndel.

(** [removeNonLetters]. *)
Definition removeNonLetters (s : gostring) : gostring :=
  concat (map EncodeRune (filter (fun r => IsLetter U r || IsSpace r) (runes s))).

(** [strings.Fields]: the maximal spans without white space. *)
Definition Fields_step (s : gostring) (st : list gostring * Z) (ir : nat * rune)
  : list gostring * Z :=
  let '(spans, start) := st in
  if IsSpace (snd ir) then
    if (0 <=? start)%Z
    then (spans ++ [take (fst ir - Z.to_nat start) (drop (Z.to_nat start) s)], (-1)%Z)
    else st
  else if (start <? 0)%Z then (spans, Z.of_nat (fst ir)) else st.

Definition strings_Fields (s : gostring) : list gostring :=
  let '(spans, start) := foldl (Fields_step s) ([], (-1)%Z) (range_string s) in
  if (0 <=? start)%Z then spans ++ [drop (Z.to_nat start) s] else spans.

(** [titleHash]. *)
Definition titleHash (e : Entry) : gostring :=
  match Fields e !! str "title" with
  | Some titleval =>
      if bool_decide (vT titleval = StringType) then
        match ParseBraceTree (vS titleval) with
        | Some (bt, size) =>
            if Nat.eqb size (length (vS titleval)) then
              Join (filter (fun w => w ∉ titleLowerWords)
                      (map (ToLower U)
                         (strings_Fields (removeNonLetters (FlattenForSorting bt)))))
                   (str " ")
            else []
        | None => []
        end
      else []
  | None => []
  end.

(** [FindDupsByTitle]. *)
Definition FindDupsByTitle (pubs : list Entry) : gmap gostring (list nat) :=
  bins_by (fun e => Some (titleHash e)) pubs.

Definition RemoveDupsByTitle (order : list gostring) (db : Database)
  : option (list (option Entry)) :=
  let H := FindDupsByTitle (Pubs db) in
  let '(h, ndel) :=
    foldl (fun st hash =>
             let list := default [] (H !! hash) in
             if negb (string_eq hash []) && (1 <? length list)%nat
             then contained_bin list st else st)
          (Pubs db, 0%Z) order in
  removeDeleted h ndel.

(** [ConvertTitlesToMinBraces]: the function handed to
    [TransformEachField]. *)
Definition ConvertTitlesToMinBraces_field (tag : gostring) (v : Value) : Value :=
  if bool_decide (vT v = StringType)
     && (string_eq tag (str "title") || string_eq tag (str "booktitle")) then
    match ParseBraceTree (vS v) with
    | Some (bn, size) =>
        if Nat.eqb size (length (vS v))
        then mkValue (vT v) (FlattenToMinBraces U bn) (vI v)
        else v
    | None => v
    end
  else v.

End Dups.

(** ** Author names (braces.go and the author routines) *)

Section Names.
Context (U : UnicodeTables).

(** [splitOnTopLevelString]: the loop state is
    [(nbraces, lastend, split, prevchar)]. *)
Definition splitOnTopLevelString_step (s sep : gostring) (whitespace : bool)
    (st : Z * nat * list gostring * rune) (ir : nat * rune)
  : Z * nat * list gostring * rune :=
  let '(nbraces, lastend, split, prevchar) := st in
  let '(i, r) := ir in
  let nbraces :=
    if r =? r_lbrace then (nbraces + 1)%Z
    else if r =? r_rbrace then (nbraces - 1)%Z
    else nbraces in
  if (nbraces =? 0)%Z && (lastend <=? i)%nat
     && (Z.of_nat i <? Z.of_nat (length s) - Z.of_nat (length sep) + 1)%Z
     && string_eq (ToLower U (take (length sep) (drop i s))) sep
  then
    let following :=
      if (Z.of_nat i + Z.of_nat (length sep) <? Z.of_nat (length s) - 1)%Z
      then fst (DecodeRuneInString (drop (i + length sep) s))
      else r_space in
    if negb whitespace || (IsSpace prevchar && IsSpace following)
    then (nbraces, (i + length sep)%nat,
          split ++ [take (i - lastend) (drop lastend s)], r)
    else (nbraces, lastend, split, r)
  else (nbraces, lastend, split, r).

Definition splitOnTopLevelString (s sep : gostring) (whitespace : bool)
  : list gostring :=
  let '(_, lastend, split, _) :=
    foldl (splitOnTopLevelString_step s sep whitespace)
          (0%Z, 0%nat, [], r_space) (range_string s) in
  split ++ [drop lastend s].

(** [splitOnTopLevel]: the loop state is [(nbraces, word, words)]. *)
Definition splitOnTopLevel_step (st : Z * gostring * list gostring) (r : rune)
  : Z * gostring * list gostring :=
  let '(nbraces, word, words) := st in
  let nbraces :=
    if r =? r_lbrace then (nbraces + 1)%Z
    else if r =? r_rbrace then (nbraces - 1)%Z
    else nbraces in
  if (nbraces =? 0)%Z && IsSpace r then
    if (0 <? length word)%nat then (nbraces, [], words ++ [word])
    else (nbraces, word, words)
  else (nbraces, word ++ EncodeRune r, words).

Definition splitOnTopLevel (s : gostring) : list gostring :=
  let '(_, word, words) :=
    foldl splitOnTopLevel_step (0%Z, [], []) (runes (TrimSpace s)) in
  if (0 <? length word)%nat then words ++ [word] else words.

Definition starts_lower (w : gostring) : bool :=
  IsLower U (fst (DecodeRuneInString w)).

(** The backward scan of [parseVon]: the largest [j < n] whose word
    starts with a lowercase letter, [-1] when there is none. *)
Fixpoint parseVon_scan (last : list gostring) (n : nat) : Z :=
  match n with
  | O => (-1)%Z
  | S j =>
      if starts_lower (default [] (last !! j)) then Z.of_nat j
      else parseVon_scan last j
  end.

(** [parseVon]; on an empty word list [j] is [-2] and [last[j+1:]]
    panics ([None]). *)
Definition parseVon (last : list gostring) : option (gostring * gostring) :=
  match last with
  | [] => None
  | [w] => Some ([], w)
  | _ =>
      let j := parseVon_scan last (length last - 1) in
      let von := if (0 <=? j)%Z then Join (take (Z.to_nat (j + 1)) last) (str " ") else [] in
      Some (von, Join (drop (Z.to_nat (j + 1)) last) (str " "))
  end.

(** The loop of [parseNameParts] over [s[i]], [i < len(s)-1]: the state
    is [(first, space)]; the result also gives [s[i:]]. *)
Fixpoint parseNameParts_loop (s : list gostring) (first space : gostring)
  : gostring * list gostring :=
  match s with
  | w :: (_ :: _) as rest =>
      let r := fst (DecodeRuneInString w) in
      if negb (r =? RuneError) && IsUpper U r
      then parseNameParts_loop rest (first ++ space ++ w) (str " ")
      else (first, s)
  | _ => (first, s)
  end.

Definition parseNameParts (name : gostring) : option (gostring * gostring * gostring) :=
  let s := splitOnTopLevel name in
  let '(first, rest) := parseNameParts_loop s [] [] in
  match parseVon rest with
  | Some (von, last) => Some (first, von, last)
  | None => None
  end.

(** [NormalizeName]: [None] is a panic, [Some None] the result [nil]. *)
Definition NormalizeName (name : gostring) : option (option Author) :=
  let name := TrimSpace name in
  if Nat.eqb (length name) 0 then Some None
  else if string_eq (ToLower U name) (str "others")
  then Some (Some (mkAuthor true [] [] [] []))
  else
    let parts := map TrimSpace (splitOnTopLevelString name (str ",") false) in
    match parts with
    | [p0] =>
        match parseNameParts p0 with
        | Some (f, v, l) => Some (Some (mkAuthor false f l v []))
        | None => None
        end
    | [p0; p1] =>
        match parseVon (splitOnTopLevel p0) with
        | Some (v, l) => Some (Some (mkAuthor false p1 l v []))
        | None => None
        end
    | [p0; p1; p2] =>
        match parseVon (splitOnTopLevel p0) with
        | Some (v, l) => Some (Some (mkAuthor false p2 l v p1))
        | None => None
        end
    | _ => Some None
    end.

End Names.

(** [quoteName]. *)
Definition quoteName_step (st : Z * bool) (r : rune) : Z * bool :=
  let '(nbrace, hastopquote) := st in
  if r =? r_lbrace then ((nbrace + 1)%Z, hastopquote)
  else if r =? r_rbrace then ((nbrace - 1)%Z, hastopquote)
  else if r =? r_quote then (nbrace, hastopquote || (nbrace =? 0)%Z)
  else st.

Definition quoteName (s : gostring) : gostring :=
  let '(_, hastopquote) := foldl quoteName_step (0%Z, false) (runes s) in
  if hastopquote then str "{" ++ s ++ str "}" else s.

(** [Author.String]. *)
Definition Author_String (a : Author) : gostring :=
  if Others a then str "others"
  else
    let last := if negb (string_eq (Von a) []) then Von a ++ str " " ++ Last a
                else Last a in
    let last := quoteName last in
    let first := quoteName (First a) in
    let jr := quoteName (Jr a) in
    if string_eq last [] then First a
    else if string_eq (First a) [] then last
    else if string_eq (Jr a) [] then last ++ str ", " ++ first
    else last ++ str ", " ++ jr ++ str ", " ++ first.

(** ** lexer.go *)

Inductive TokenType :=
  | ILLEGAL | EOF | IDENT | STRING | AT | COMMA | LBRACE | RBRACE | HASH | EQUALS.

#[global] Instance TokenType_eq_dec : EqDecision TokenType.
Proof. solve_decision. Defined.

(** The string value of a [TokenType] constant. *)
Definition TokenType_string (t : TokenType) : gostring :=
  match t with
  | ILLEGAL => str "ILLEGAL" | EOF => str "EOF" | IDENT => str "IDENT"
  | STRING => str "STRING" | AT => str "@" | COMMA => str ","
  | LBRACE => str "{" | RBRACE => str "}" | HASH => str "#" | EQUALS => str "="
  end.

Record Token := mkToken {
  TokType : TokenType;
  Literal : gostring;
  tok_lineno : Z;
  tok_colno : Z
}.

Definition EOFToken : Token := mkToken EOF [] 0 0.

(** [Lexer]: [stream] is what [bufio.Reader.ReadRune] will still
    deliver, rune by rune; [err] is set once the stream is exhausted
    ([io.EOF], the only error an in-memory reader gives). *)
Record Lexer := mkLexer {
  stream : list rune;
  ch : rune;
  err : bool;
  lineno : Z;
  colno : Z
}.

(** A successful [nextRune] that reads [c] and leaves [rest]. *)
Definition advance (c : rune) (rest : list rune) (l : Lexer) : Lexer :=
  if c =? r_newline
  then mkLexer rest c (err l) (lineno l + 1) 1
  else mkLexer rest c (err l) (lineno l) (colno l + 1).

(** A failing [nextRune]. *)
Definition at_eof (l : Lexer) : Lexer :=
  mkLexer [] (ch l) true (lineno l) (colno l).

Definition nextRune (l : Lexer) : bool * Lexer :=
  match stream l with
  | [] => (false, at_eof l)
  | c :: rest => (true, advance c rest l)
  end.

(** [lexer.New]. *)
Definition Lexer_New (input : gostring) : Lexer :=
  snd (nextRune (mkLexer (runes input) 0 false 1 1)).

(** [string(b)] for a rune slice [b]. *)
Definition string_of_runes (b : list rune) : gostring := concat (map EncodeRune b).

(** The iterations of [skipWhitespace] after the first: each starts with
    [l.nextRune()]; [rs] is the unread stream. *)
Fixpoint skipWhitespace_loop (rs : list rune) (l : Lexer) : Lexer :=
  match rs with
  | [] => at_eof l
  | c :: rest =>
      let l' := advance c rest l in
      if negb (IsSpace c) then l' else skipWhitespace_loop rest l'
  end.

(** [skipWhitespace]; its result [l.Err()] is the [err] of the lexer
    returned. *)
Definition skipWhitespace (l : Lexer) : Lexer :=
  if negb (IsSpace (ch l)) then l else skipWhitespace_loop (stream l) l.

(** The read functions return [(text, l.Err())]. *)
Fixpoint readQuoteString_loop (rs : list rune) (l : Lexer) (escape : bool)
    (b : list rune) : gostring * bool * Lexer :=
  match rs with
  | [] => ([], true, at_eof l)
  | c :: rest =>
      let l' := advance c rest l in
      if (c =? r_quote) && negb escape then
        let l'' := snd (nextRune l') in
        (string_of_runes b, err l'', l'')
      else
        readQuoteString_loop rest l' (negb escape && (c =? r_backslash)) (b ++ [c])
  end.

Definition readQuoteString (l : Lexer) : gostring * bool * Lexer :=
  readQuoteString_loop (stream l) l false [].

(** [strings.ContainsRune] on the special characters of [readIdent]. *)
Definition is_special (c : rune) : bool :=
  existsb (fun x => c =? x) [64; 35; 44; 123; 125; 61; 34; 40].

Fixpoint readIdent_loop (rs : list rune) (l : Lexer) (b : list rune)
  : gostring * bool * Lexer :=
  match rs with
  | [] => ([], true, at_eof l)
  | c :: rest =>
      let l' := advance c rest l in
      if IsSpace c || is_special c then (string_of_runes b, err l', l')
      else readIdent_loop rest l' (b ++ [c])
  end.

Definition readIdent (l : Lexer) : gostring * bool * Lexer :=
  readIdent_loop (stream l) l [ch l].

Fixpoint readBracesString_loop (rs : list rune) (l : Lexer) (escape : bool)
    (b : list rune) (bcount : Z) : gostring * bool * Lexer :=
  match rs with
  | [] => ([], true, at_eof l)
  | c :: rest =>
      let l' := advance c rest l in
      let bcount :=
        if (c =? r_lbrace) && negb escape then (bcount + 1)%Z
        else if (c =? r_rbrace) && negb escape then (bcount - 1)%Z
        else bcount in
      if (bcount =? 0)%Z then
        let l'' := snd (nextRune l') in
        (string_of_runes b, err l'', l'')
      else
        readBracesString_loop rest l' (negb escape && (c =? r_backslash))
          (b ++ [c]) bcount
  end.

Definition readBracesString (l : Lexer) : gostring * bool * Lexer :=
  readBracesString_loop (stream l) l false [] 1.

Definition newToken (l : Lexer) (t : TokenType) (s : gostring) : Token :=
  mkToken t s (lineno l) (colno l).

(** [NextToken]: [None] is the result [(nil, err)]. *)
Definition NextToken (braceStrings : bool) (l : Lexer) : option Token * Lexer :=
  let l := skipWhitespace l in
  if err l then (Some EOFToken, l)
  else
    let single (t : TokenType) (s : string) :=
      (Some (newToken l t (str s)), snd (nextRune l)) in
    let read (t : TokenType) (res : gostring * bool * Lexer) :=
      let '(s, e, l') := res in
      if e then (None, l') else (Some (newToken l' t s), l') in
    let c := ch l in
    if c =? 64 then single AT "@"
    else if c =? 44 then single COMMA ","
    else if c =? 125 then single RBRACE "}"
    else if c =? 41 then single RBRACE ")"
    else if c =? 61 then single EQUALS "="
    else if c =? 35 then single HASH "#"
    else if c =? 123 then
      if negb braceStrings then single LBRACE "{"
      else read STRING (readBracesString l)
    else if c =? 40 then single LBRACE "("
    else if c =? 34 then read STRING (readQuoteString l)
    else read IDENT (readIdent l).

(** ** The parser *)

Record ParserError := mkParserError {
  perr : bool;
  ptok : option Token;
  pmsg : gostring
}.

Record Parser := mkParser {
  lex : Lexer;
  errors : list ParserError;
  curToken : option Token;
  peekToken : option Token;
  bracesAsString : bool
}.

(** The outcome of running parser code: a value, a run-time panic (a
    [nil] token dereferenced), or a loop stopped by its iteration bound. *)
Inductive res (A : Type) :=
  | Ok (a : A)
  | Panic
  | OutOfFuel.
Arguments Ok {A} a.
Arguments Panic {A}.
Arguments OutOfFuel {A}.

Definition M (A : Type) : Type := Parser -> res (A * Parser).

Definition ret {A} (a : A) : M A := fun p => Ok (a, p).
Definition bind {A B} (m : M A) (k : A -> M B) : M B :=
  fun p => match m p with
           | Ok (a, p') => k a p'
           | Panic => Panic
           | OutOfFuel => OutOfFuel
           end.
Definition panic {A} : M A := fun _ => Panic.
Definition out_of_fuel {A} : M A := fun _ => OutOfFuel.
Definition get : M Parser := fun p => Ok (p, p).
Definition put (p : Parser) : M unit := fun _ => Ok (tt, p).

Notation "x <- m ;; k" := (bind m (fun x => k))
  (at level 62, m at next level, right associativity).
Notation "m ;;; k" := (bind m (fun _ => k))
  (at level 62, right associativity).

(** Dereferencing [p.curToken] and [p.peekToken]. *)
Definition cur : M Token :=
  fun p => match curToken p with Some t => Ok (t, p) | None => Panic end.
Definition peek : M Token :=
  fun p => match peekToken p with Some t => Ok (t, p) | None => Panic end.

Definition set_bracesAsString (b : bool) : M unit :=
  fun p => Ok (tt, mkParser (lex p) (errors p) (curToken p) (peekToken p) b).

(** [addError]. *)
Definition Parser_addError (msg : gostring) : M unit :=
  fun p => Ok (tt, mkParser (lex p)
                     (errors p ++ [mkParserError (err (lex p)) (peekToken p) msg])
                     (curToken p) (peekToken p) (bracesAsString p)).

(** [peekError]. *)
Definition peekError (expected : TokenType) : M unit :=
  t <- peek ;;
  Parser_addError (str "expected " ++ TokenType_string expected ++ str ", got "
                   ++ TokenType_string (TokType t) ++ str " instead").

(** [advanceTokens]; when the lexer reports an error the tokens stay as
    they are. *)
Definition advanceTokens : M unit :=
  fun p =>
    let '(t, l) := NextToken (bracesAsString p) (lex p) in
    match t with
    | None => Ok (tt, mkParser l (errors p) (curToken p) (peekToken p) (bracesAsString p))
    | Some tok => Ok (tt, mkParser l (errors p) (peekToken p) (Some tok) (bracesAsString p))
    end.

Definition curTokenIs (t : TokenType) : M bool :=
  c <- cur ;; ret (bool_decide (TokType c = t)).
Definition peekTokenIs (t : TokenType) : M bool :=
  c <- peek ;; ret (bool_decide (TokType c = t)).

Definition expectPeek (t : TokenType) : M bool :=
  b <- peekTokenIs t ;;
  if b then advanceTokens ;;; ret true
  else peekError t ;;; ret false.

(** [NewParser]. *)
Definition NewParser (input : gostring) : res (unit * Parser) :=
  (advanceTokens ;;; advanceTokens) (mkParser (Lexer_New input) [] None None false).

Definition set_Fields (f : gmap gostring Value) (e : Entry) : Entry :=
  mkEntry (Kind e) (EntryString e) (Key e) f (AuthorList e) (LineNo e).

Definition newEntry : Entry := mkEntry Other [] [] ∅ [] 0.

Section Parse.
Context (U : UnicodeTables).

(** [readTagValue]: the entry is updated in place; the result carries
    it. *)
Definition readTagValue (entry : Entry) : M (bool * Entry) :=
  c <- cur ;;
  let tag := ToLower U (Literal c) in
  ok <- expectPeek EQUALS ;;
  if negb ok then ret (false, entry)
  else
    isIdent <- peekTokenIs IDENT ;;
    if isIdent then
      advanceTokens ;;;
      c <- cur ;;
      let v := match Atoi (Literal c) with
               | Some i => mkValue NumberType [] i
               | None => mkValue SymbolType (Literal c) 0
               end in
      ret (true, set_Fields (<[tag := v]> (Fields entry)) entry)
    else
      isString <- peekTokenIs STRING ;;
      if isString then
        advanceTokens ;;;
        c <- cur ;;
        ret (true, set_Fields (<[tag := mkValue StringType (Literal c) 0]> (Fields entry)) entry)
      else
        peekError STRING ;;; ret (false, entry).

(** [parsePreamble]. *)
Definition parsePreamble : M (option Entry) :=
  set_bracesAsString true ;;;
  c <- cur ;;
  let entry := mkEntry KPreamble (Literal c) [] ∅ [] 0 in
  ok <- expectPeek IDENT ;;
  if negb ok then ret None
  else
    ok <- expectPeek STRING ;;
    if negb ok then ret None
    else
      c <- cur ;;
      set_bracesAsString false ;;;
      ret (Some (mkEntry KPreamble (EntryString entry) (Literal c) ∅ [] 0)).

(** The loop of [parseEntry] over the tag/value pairs. *)
Fixpoint parseEntry_loop (fuel : nat) (entry : Entry) : M (option Entry) :=
  match fuel with
  | O => out_of_fuel
  | S f =>
      done <- peekTokenIs RBRACE ;;
      if done then ret (Some entry)
      else
        ok <- expectPeek IDENT ;;
        if negb ok then ret None
        else
          r <- readTagValue entry ;;
          let '(ok, entry) := r in
          if negb ok then ret None
          else
            comma <- peekTokenIs COMMA ;;
            (if comma then advanceTokens else ret tt) ;;;
            parseEntry_loop f entry
  end.

(** The number of iterations allowed to a loop of the parser.  An
    iteration that does not leave the loop calls [advanceTokens]; a call
    reads a rune that was not read before (the current rune or one of
    the stream), or it finds the end of the input, and from then on
    every call gives the EOF token: two more calls bring it to
    [curToken].  So the loops of [parseEntry] and [ParseBibTeX] end
    within this number of iterations. *)
Definition loop_bound (p : Parser) : nat := 5 + length (stream (lex p)).

(** [parseEntry]; the deferred function resets [bracesAsString] on every
    return that follows it. *)
Definition parseEntry : M (option Entry) :=
  pk <- peek ;;
  if bool_decide (TokType pk = IDENT)
     && bool_decide (toEntryKind U (Literal pk) = KPreamble)
  then parsePreamble
  else
    ok <- expectPeek IDENT ;;
    if negb ok then ret None
    else
      c <- cur ;;
      let entry := mkEntry (toEntryKind U (Literal c)) (Literal c) [] ∅ [] 0 in
      ok <- expectPeek LBRACE ;;
      if negb ok then ret None
      else
        r <- (if bool_decide (Kind entry <> KString) then
                ok <- expectPeek IDENT ;;
                if negb ok then ret None
                else
                  c <- cur ;;
                  let entry := mkEntry (Kind entry) (EntryString entry) (Literal c)
                                 ∅ [] 0 in
                  ok <- expectPeek COMMA ;;
                  if negb ok then ret None else ret (Some entry)
              else ret (Some entry)) ;;
        match r with
        | None => ret None
        | Some entry =>
            set_bracesAsString true ;;;
            p <- get ;;
            e <- parseEntry_loop (loop_bound p) entry ;;
            set_bracesAsString false ;;;
            ret e
        end.

(** The [switch entry.Kind] of [ParseBibTeX]. *)
Definition addEntry (entry : Entry) (database : Database) : M Database :=
  match Kind entry with
  | KString =>
      if negb (Nat.eqb (size (Fields entry)) 1) then
        Parser_addError (str "Wrong number of string definitions in @string") ;;;
        ret database
      else
        ret (mkDatabase (Pubs database) (Fields entry ∪ Symbols database)
               (Preamble database) (Errors database))
  | KPreamble =>
      ret (mkDatabase (Pubs database) (Symbols database)
             (Preamble database ++ [Key entry]) (Errors database))
  | _ =>
      ret (mkDatabase (Pubs database ++ [entry]) (Symbols database)
             (Preamble database) (Errors database))
  end.

Fixpoint ParseBibTeX_loop (fuel : nat) (database : Database) : M Database :=
  match fuel with
  | O => out_of_fuel
  | S f =>
      c <- cur ;;
      if bool_decide (TokType c = EOF) then ret database
      else
        database <- (if bool_decide (TokType c = AT) then
                       e <- parseEntry ;;
                       match e with
                       | Some entry => addEntry entry database
                       | None => ret database
                       end
                     else ret database) ;;
        advanceTokens ;;;
        ParseBibTeX_loop f database
  end.

Definition NewDatabase : Database := mkDatabase [] ∅ [] [].

(** [ParseBibTeX]. *)
Definition ParseBibTeX : M Database :=
  set_bracesAsString false ;;;
  p <- get ;;
  ParseBibTeX_loop (loop_bound p) NewDatabase.

(** [NewParser(f)] followed by [ParseBibTeX()]. *)
Definition parse (input : gostring) : res (Database * Parser) :=
  match NewParser input with
  | Ok (_, p) => ParseBibTeX p
  | Panic => Panic
  | OutOfFuel => OutOfFuel
  end.

End Parse.

(** The error [ParseBibTeX] records for an [@string] block, and the
    parser with one more error. *)
Definition count_error (p : Parser) : ParserError :=
  mkParserError (err (lex p)) (peekToken p)
    (str "Wrong number of string definitions in @string").

Definition with_error (e : ParserError) (p : Parser) : Parser :=
  mkParser (lex p) (errors p ++ [e]) (curToken p) (peekToken p) (bracesAsString p).

Definition set_Symbols (syms : gmap gostring Value) (db : Database) : Database :=
  mkDatabase (Pubs db) syms (Preamble db) (Errors db).

(** ** Balanced strings

    [wellnested allow_empty s]: the braces of [s] are balanced and
    properly nested; with [allow_empty = false] no group is empty.
    A byte other than a brace is any byte: a brace is never part of a
    longer UTF-8 sequence. *)
Definition lbrace : byte := "{"%char.
Definition rbrace : byte := "}"%char.

Definition nonbrace (b : byte) : Prop := b <> lbrace /\ b <> rbrace.

Inductive wellnested (allow_empty : bool) : gostring -> Prop :=
  | wn_nil : wellnested allow_empty []
  | wn_byte (b : byte) (s : gostring) :
      nonbrace b -> wellnested allow_empty s -> wellnested allow_empty (b :: s)
  | wn_group (body s : gostring) :
      (allow_empty = false -> body <> []) ->
      wellnested allow_empty body -> wellnested allow_empty s ->
      wellnested allow_empty (lbrace :: body ++ rbrace :: s).

Definition balanced (s : gostring) : Prop := wellnested true s.
Definition balanced_nonempty_groups (s : gostring) : Prop := wellnested false s.

(** The text of a list of children, as [flatten] joins it. *)
Definition flat_children (cs : list BraceNode) : gostring :=
  concat (map (flatten false true) cs).

(** ** Plain names

    What the name functions compute on a string of ASCII bytes without
    braces and double quotes: there every byte is a rune, the brace
    counters stay at zero, and the tables are not consulted. *)
Definition is_ascii (b : byte) : bool := bval b <? 128.
Definition is_space (b : byte) : bool := IsSpace (bval b).
Definition comma : byte := ","%char.
Definition space : byte := " "%char.

Definition plain_byte (b : byte) : bool :=
  is_ascii b && negb (bval b =? 123) && negb (bval b =? 125) && negb (bval b =? 34).
Definition plain (s : gostring) : bool := forallb plain_byte s.

Definition lower_byte (b : byte) : byte :=
  if inrange 65 90 (bval b) then byte_of (bval b + 32) else b.

Fixpoint drop_spaces (s : gostring) : gostring :=
  match s with
  | b :: t => if is_space b then drop_spaces t else s
  | [] => []
  end.

Definition trim (s : gostring) : gostring :=
  rev (drop_spaces (rev (drop_spaces s))).

(** The parts between commas; [cur] is the part being read. *)
Fixpoint split_commas (cur s : gostring) : list gostring :=
  match s with
  | [] => [cur]
  | b :: t =>
      if bool_decide (b = comma) then cur :: split_commas [] t
      else split_commas (cur ++ [b]) t
  end.

(** The words between runs of white space; [cur] is the word being
    read. *)
Fixpoint words_of (cur s : gostring) : list gostring :=
  match s with
  | [] => if bool_decide (cur = []) then [] else [cur]
  | b :: t =>
      if is_space b
      then (if bool_decide (cur = []) then words_of [] t else cur :: words_of [] t)
      else words_of (cur ++ [b]) t
  end.

(** The von and last parts as [Author.String] joins them. *)
Definition von_last (a : Author) : gostring :=
  if negb (string_eq (Von a) []) then Von a ++ str " " ++ Last a else Last a.

(** [trimmed s]: [s] neither starts nor ends with white space. *)
Definition trimmed (s : gostring) : Prop :=
  drop_spaces s = s /\ drop_spaces (rev s) = rev s.

(** A word: not empty and free of white space. *)
Definition nospace (w : gostring) : bool := forallb (fun b => negb (is_space b)) w.
Definition clean (w : gostring) : Prop := w <> [] /\ nospace w = true.
Definition nocomma (s : gostring) : bool :=
  forallb (fun b => negb (bool_decide (b = comma))) s.

(** ** What exact-duplicate elimination computes

    [exact_dup_of e e'] : [e'] is in the bin of [e] and [Equals] it.
    [exact_marked] marks every entry that has such an entry after it;
    [exact_survivors] drops those entries.  [bin_spec] lists the
    indices of a bin in increasing order. *)
Definition exact_dup_of (U : UnicodeTables) (e e' : Entry) : bool :=
  string_eq (ToLower U (Key e)) (ToLower U (Key e')) && Entry_Equals U e e'.

Fixpoint exact_marked (U : UnicodeTables) (pubs : list Entry) : list Entry :=
  match pubs with
  | [] => []
  | e :: rest =>
      (if existsb (exact_dup_of U e) rest then set_Kind Deleted e else e)
      :: exact_marked U rest
  end.

Fixpoint exact_survivors (U : UnicodeTables) (pubs : list Entry) : list Entry :=
  match pubs with
  | [] => []
  | e :: rest =>
      if existsb (exact_dup_of U e) rest then exact_survivors U rest
      else e :: exact_survivors U rest
  end.

Definition bin_spec (key_of : Entry -> option gostring) (key : gostring)
    (pubs : list Entry) : list nat :=
  (filter (fun ie => key_of (snd ie) = Some key) (imap pair pubs)).*1.

Definition count_deleted (h : heap) : nat :=
  length (filter (fun e => Kind e = Deleted) h).

(** The test of the inner loop of [RemoveExactDups] on the heap [h], the
    marking of an entry, the bin of an entry, the state an entry ends
    in, and the body of the loop over the bins. *)
Definition equals_at (U : UnicodeTables) (h : heap) (e : Entry) (j : nat) : bool :=
  match h !! j with Some ej => Entry_Equals U e ej | None => false end.

Definition mark_if (b : bool) (e : Entry) : Entry :=
  if b then set_Kind Deleted e else e.

Definition key_bin (U : UnicodeTables) (e : Entry) : option gostring :=
  Some (ToLower U (Key e)).

Definition marked_at (U : UnicodeTables) (pubs : list Entry) (i : nat) (e : Entry)
  : Entry :=
  mark_if (existsb (exact_dup_of U e) (drop (S i) pubs)) e.

Definition exact_step (U : UnicodeTables) (pubs : list Entry) (st : heap * Z)
    (key : gostring) : heap * Z :=
  exactDups_bin U (default [] (bins_by (key_bin U) pubs !! key)) st.

(** ** The von part as the specification words it

    The longest prefix of words that start with a lowercase letter, the
    final word excluded; to be compared with [parseVon]. *)
Fixpoint lower_prefix (U : UnicodeTables) (words : list gostring) : list gostring :=
  match words with
  | w :: rest => if starts_lower U w then w :: lower_prefix U rest else []
  | [] => []
  end.

Definition von_longest_lower_prefix (U : UnicodeTables) (words : list gostring)
  : gostring :=
  Join (lower_prefix U (removelast words)) (str " ").

(** ** A concrete instance of the tables

    Tables that classify nothing above Latin-1 and map no case there;
    every example below stays within ASCII, where they are not
    consulted. *)
Definition latin1_only : UnicodeTables :=
  {| Upper := fun _ => false; Lower := fun _ => false; Punct := fun _ => false;
     Letter := fun _ => false; LowerCase := fun r => r |}.

(** [RemoveWholeFieldBraces]: the function handed to
    [TransformEachField]; [None] is the panic of [bn.Children[0]] out of
    range. *)
Definition RemoveWholeFieldBraces_field (tag : gostring) (v : Value) : option Value :=
  if bool_decide (vT v = StringType) && negb (string_eq tag (str "author")) then
    match ParseBraceTree (vS v) with
    | Some (bn, size) =>
        if Nat.eqb size (length (vS v)) then
          if IsEntireStringBraced bn then
            match slice_elems (Children bn) !! 0%nat with
            | Some c => Some (mkValue (vT v) (Flatten c) (vI v))
            | None => None
            end
          else Some (mkValue (vT v) (Flatten bn) (vI v))
        else Some v
    | None => Some v
    end
  else Some v.

(** A string without its braces, and the text of a list of children as
    [FlattenForSorting] joins it. *)
Definition is_brace (b : byte) : bool :=
  bool_decide (b = lbrace) || bool_decide (b = rbrace).
Definition strip_braces (s : gostring) : gostring :=
  List.filter (fun b => negb (is_brace b)) s.
Definition sort_children (cs : list BraceNode) : gostring :=
  concat (map (flatten false false) cs).

(** ** Text between delimiters, as the lexer reads it

    [consume rs rest l]: the lexer after [nextRune] has read the runes
    [rs], with [rest] still unread.  [braced rs]: the braces of [rs] that
    no backslash escapes are balanced; a backslash escapes the rune after
    it.  [quoted rs]: [rs] holds no double quote but escaped ones. *)
Fixpoint consume (rs rest : list rune) (l : Lexer) : Lexer :=
  match rs with
  | [] => l
  | c :: rs' => consume rs' rest (advance c (rs' ++ rest) l)
  end.

Inductive braced : list rune -> Prop :=
  | braced_nil : braced []
  | braced_rune (r : rune) (s : list rune) :
      r <> r_lbrace -> r <> r_rbrace -> r <> r_backslash ->
      braced s -> braced (r :: s)
  | braced_escape (c : rune) (s : list rune) :
      braced s -> braced (r_backslash :: c :: s)
  | braced_group (body s : list rune) :
      braced body -> braced s -> braced (r_lbrace :: body ++ r_rbrace :: s).

Inductive quoted : list rune -> Prop :=
  | quoted_nil : quoted []
  | quoted_rune (r : rune) (s : list rune) :
      r <> r_quote -> r <> r_backslash -> quoted s -> quoted (r :: s)
  | quoted_escape (c : rune) (s : list rune) :
      quoted s -> quoted (r_backslash :: c :: s).

(** The runes at which [NextToken] does not read an identifier. *)
Definition starts_token (c : rune) : bool :=
  existsb (fun x => c =? x) [64; 44; 125; 41; 61; 35; 123; 40; 34].

(** ** bib.go: the clean-up passes

    Each pass hands a function to [TransformField] or
    [TransformEachField], which updates the value it is given and
    returns it. *)

(** [RemoveEmptyFields] on one entry: [order] is the order in which Go
    visits the tags of [e.Fields]; a tag is deleted while it is
    visited. *)
Definition is_empty_string (value : Value) : bool :=
  bool_decide (vT value = StringType) && string_eq (vS value) [].

Definition RemoveEmptyFields_entry (order : list gostring) (e : Entry) : Entry :=
  set_Fields
    (foldl (fun m tag =>
              match m !! tag with
              | Some value => if is_empty_string value then delete tag m else m
              | None => m
              end) (Fields e) order) e.

(** [ReplaceAbbrMonths]: its two tables and the function handed to
    [TransformField]; [None] is the panic of [monthsnum[value.I-1]] out
    of range. *)
Definition months : gmap gostring gostring :=
  list_to_map
    [ (str "jan", str "jan"); (str "feb", str "feb"); (str "mar", str "mar");
      (str "apr", str "apr"); (str "may", str "may"); (str "jun", str "jun");
      (str "jul", str "jul"); (str "aug", str "aug"); (str "sep", str "sep");
      (str "sept", str "sep"); (str "oct", str "oct"); (str "nov", str "nov");
      (str "dec", str "dec") ].

Definition monthsnum : list gostring :=
  map str [ "jan"; "feb"; "mar"; "apr"; "may"; "jun"; "jul"; "aug"; "sep"; "oct";
            "nov"; "dec" ]%string.

Definition ReplaceAbbrMonths_field (U : UnicodeTables) (tag : gostring) (value : Value)
  : option Value :=
  match vT value with
  | StringType =>
      match months !! ToLower U (vS value) with
      | Some sym => Some (mkValue SymbolType sym (vI value))
      | None => Some value
      end
  | NumberType =>
      if ((1 <=? vI value) && (vI value <=? 12))%Z then
        match monthsnum !! Z.to_nat (vI value - 1) with
        | Some sym => Some (mkValue SymbolType sym (vI value))
        | None => None
        end
      else Some value
  | SymbolType => Some value
  end.

(** [CheckUnmatchedDollarSigns]: the function handed to
    [CheckAllFields]; the loop state is [(ndollar, escape)]. *)
Definition r_dollar : rune := 36.

Definition dollar_step (st : Z * bool) (r : rune) : Z * bool :=
  let '(ndollar, escape) := st in
  if r =? r_dollar then ((if negb escape then ndollar + 1 else ndollar)%Z, escape)
  else if r =? r_backslash then (ndollar, negb escape)
  else (ndollar, false).

Definition CheckUnmatchedDollarSigns_check (tag : gostring) (v : Value) : gostring :=
  if bool_decide (vT v = StringType) then
    let '(ndollar, _) := foldl dollar_step (0%Z, false) (runes (vS v)) in
    if negb (Z.rem ndollar 2 =? 0)%Z then str "contains unbalanced $" else []
  else [].

(** [ConvertIntStringsToInt]: the function handed to
    [TransformEachField]; the text of the value stays. *)
Definition ConvertIntStringsToInt_field (tag : gostring) (value : Value) : Value :=
  if bool_decide (vT value = StringType) then
    match Atoi (vS value) with
    | Some i => mkValue NumberType (vS value) i
    | None => value
    end
  else value.

(** [Value.write]: what is written for a value. *)
Definition Value_write (value : Value) : gostring :=
  match vT value with
  | StringType => str "{" ++ vS value ++ str "}"
  | NumberType => Itoa (vI value)
  | SymbolType => vS value
  end.

(** The regular expression [^(\d+)--(\d+)$] of
    [FixTruncatedPageNumbers]: the two groups of a match.  [\d] is an
    ASCII digit, so the first group is the longest prefix of digits. *)
Fixpoint span_digits (s : gostring) : gostring * gostring :=
  match s with
  | b :: t =>
      if is_digit b then let '(a, rest) := span_digits t in (b :: a, rest)
      else ([], s)
  | [] => ([], [])
  end.

Definition pages_submatch (s : gostring) : option (gostring * gostring) :=
  let '(a, rest) := span_digits s in
  match rest with
  | d1 :: d2 :: b =>
      if (bval d1 =? 45) && (bval d2 =? 45)
         && negb (Nat.eqb (length a) 0) && negb (Nat.eqb (length b) 0)
         && forallb is_digit b
      then Some (a, b) else None
  | _ => None
  end.

(** [FixTruncatedPageNumbers]: the function handed to
    [TransformField]. *)
Definition FixTruncatedPageNumbers_field (tag : gostring) (v : Value) : Value :=
  if bool_decide (vT v = StringType) then
    match pages_submatch (vS v) with
    | Some (a, b) =>
        if (length b <? length a)%nat
        then mkValue (vT v) (a ++ str "--" ++ take (length a - length b) a ++ b) (vI v)
        else v
    | None => v
    end
  else v.

(** [RemovePeriodFromTitles]: the function handed to [TransformField].
    The regular expression [([[:lower:]])\.$] matches a final period
    after one of the letters a to z, and the match is replaced by the
    letter. *)
Definition is_lower_ascii (b : byte) : bool := inrange 97 122 (bval b).

Definition RemovePeriodFromTitles_field (tag : gostring) (v : Value) : Value :=
  if bool_decide (vT v = StringType) then
    match rev (vS v) with
    | p :: c :: _ =>
        if (bval p =? 46) && is_lower_ascii c
        then mkValue (vT v) (removelast (vS v)) (vI v)
        else v
    | _ => v
    end
  else v.

(** [ReplaceSymbols].  The map [symbols] starts as a copy of
    [predefinedSymbols] and takes the user symbols that are strings,
    visited in the order [syms]; [inverted] is built from [symbols]
    visited in the order [order]: a text defined twice is mapped to the
    empty symbol. *)
Definition ReplaceSymbols_symbols (syms : list (gostring * Value))
  : gmap gostring gostring :=
  foldl (fun symbols kv =>
           if bool_decide (vT (snd kv) = StringType)
           then <[fst kv := vS (snd kv)]> symbols else symbols)
        predefinedSymbols syms.

Definition ReplaceSymbols_inverted (order : list (gostring * gostring))
  : gmap gostring gostring :=
  foldl (fun inverted sv =>
           match inverted !! snd sv with
           | Some _ => <[snd sv := []]> inverted
           | None => <[snd sv := fst sv]> inverted
           end) ∅ order.

(** The function handed to [TransformEachField]. *)
Definition ReplaceSymbols_field (inverted : gmap gostring gostring)
    (tag : gostring) (value : Value) : Value :=
  if bool_decide (vT value = StringType) then
    match inverted !! vS value with
    | Some sym =>
        if negb (string_eq sym []) then mkValue SymbolType sym (vI value) else value
    | None => value
    end
  else value.

(** The symbols that define the text [val], among the pairs [l]. *)
Definition defining (val : gostring) (l : list (gostring * gostring)) : list gostring :=
  (filter (fun sv => snd sv = val) l).*1.

(** The byte of a double quote, and the number a run of decimal digits
    denotes after the digits that gave [a]. *)
Definition quote_byte : byte := byte_of 34.

Definition digits_value (ds : gostring) (a : N) : N :=
  fold_left (fun acc b => acc * 10 + (bval b - 48)) ds a.

(** ** The runs of [splitWords] *)

(** A run: runes that are all white space, or none of them is. *)
Definition same_kind (space : bool) (rs : list rune) : Prop :=
  Forall (fun r => IsSpace r = space) rs.

(** [runs inspace rss]: the lists of runes [rss] are runs that are not
    empty, of alternating kinds, the last one of the kind [inspace]. *)
Inductive runs : bool -> list (list rune) -> Prop :=
  | runs_nil (inspace : bool) : runs inspace []
  | runs_snoc (inspace : bool) (rss : list (list rune)) (rs : list rune) :
      runs (negb inspace) rss -> rs <> [] -> same_kind inspace rs ->
      runs inspace (rss ++ [rs]).

(** ** Names: brace counts and the top level

    [brace_step] is how the three loops over a name ([splitOnTopLevel],
    [splitOnTopLevelString], [quoteName]) update their brace counter;
    [depth_from d rs] is the counter after the runes [rs], and
    [notop P d rs] says that no rune of [rs] that satisfies [P] is met
    with the counter at zero. *)
Definition brace_step (d : Z) (r : rune) : Z :=
  if r =? r_lbrace then (d + 1)%Z
  else if r =? r_rbrace then (d - 1)%Z
  else d.

Definition depth_from (d : Z) (rs : list rune) : Z := foldl brace_step d rs.


(** The braces of [s] close as often as they open. *)
Definition braces_closed (s : gostring) : Prop := depth_from 0 (runes s) = 0%Z.

Definition r_comma : rune := 44.

(** [starts_rune s]: [s] does not start in the middle of a UTF-8
    sequence. *)
Definition starts_rune (s : gostring) : Prop :=
  match s with [] => True | b :: _ => cont b = false end.







(** The tables leave U+FFFD alone, as those of Go do: lowering it does
    not give a comma. *)
Definition keeps_RuneError (U : UnicodeTables) : Prop :=
  LowerCase U RuneError <> r_comma.


(** Tables that lower U+FFFD to a comma, which those of Go do not. *)
Definition comma_tables : UnicodeTables :=
  {| Upper := fun _ => false; Lower := fun _ => false; Punct := fun _ => false;
     Letter := fun _ => false;
     LowerCase := fun r => if r =? RuneError then r_comma else r |}.


(** * Verification *)

(** ** UTF-8: widths *)

Lemma Decode_nil : DecodeRuneInString [] = (RuneError, 0%nat).
Proof. reflexivity. Qed.

Lemma Decode_width (s : gostring) :
  s <> [] ->
  (1 <= snd (DecodeRuneInString s) <= length s)%nat.
Proof.
  destruct s as [|b0 t]; [congruence|]. intros _.
  unfold DecodeRuneInString.
  repeat match goal with
         | |- context [if ?c then _ else _] => destruct c
         | |- context [match ?l with [] => _ | _ :: _ => _ end] => destruct l
         end; simpl; lia.
Qed.

Lemma Decode_ascii (b : byte) (t : gostring) :
  bval b < 0x80 -> DecodeRuneInString (b :: t) = (bval b, 1%nat).
Proof.
  intros H. unfold DecodeRuneInString.
  destruct (N.ltb_spec (bval b) 0x80); [reflexivity|lia].
Qed.

(** ** The brace tree: [ParseBraceTree] always returns *)

Lemma ParseBraceTree_loop_total (fuel : nat) :
  forall rest i children accum,
    (length rest < fuel)%nat ->
    exists t n, ParseBraceTree_loop fuel rest i children accum = Some (t, n)
                /\ (i <= n <= i + length rest)%nat.
Proof.
  induction fuel as [|f IH]; intros rest i children accum Hlen; [lia|].
  destruct rest as [|b rest'].
  - simpl. eexists _, _. split; [reflexivity|simpl; lia].
  - cbn [ParseBraceTree_loop].
    pose proof (Decode_width (b :: rest') ltac:(congruence)) as Hw.
    destruct (DecodeRuneInString (b :: rest')) as [r iskip]. cbn [snd] in Hw.
    set (s := b :: rest') in *.
    assert (Hs : length s = S (length rest')) by reflexivity.
    destruct (r =? r_lbrace).
    + destruct (IH (drop iskip s) 0%nat [] []) as (c & nread & -> & Hn).
      { rewrite length_drop. lia. }
      rewrite length_drop in Hn.
      destruct (IH (drop (iskip + nread) s) (i + (iskip + nread))%nat
                  (saveAccum children accum ++ [c]) []) as (t & n & -> & Hn').
      { rewrite length_drop. lia. }
      rewrite length_drop in Hn'.
      eexists _, _. split; [reflexivity|lia].
    + destruct (r =? r_rbrace).
      * eexists _, _. split; [reflexivity|lia].
      * destruct (IH (drop iskip s) (i + iskip)%nat children
                    (accum ++ EncodeRune r)) as (t & n & -> & Hn).
        { rewrite length_drop. lia. }
        rewrite length_drop in Hn.
        eexists _, _. split; [reflexivity|lia].
Qed.

Lemma ParseBraceTree_loop_root (fuel : nat) :
  forall rest i children accum t n,
    ParseBraceTree_loop fuel rest i children accum = Some (t, n) ->
    exists cs, t = mkBraceNode (Some cs) [].
Proof.
  induction fuel as [|f IH]; intros rest i children accum t n H; [discriminate|].
  destruct rest as [|b rest'].
  - injection H as <- _. eauto.
  - cbn [ParseBraceTree_loop] in H.
    destruct (DecodeRuneInString (b :: rest')) as [r iskip].
    destruct (r =? r_lbrace).
    + destruct (ParseBraceTree_loop f (drop iskip (b :: rest')) 0 [] [])
        as [[c nread]|]; [|discriminate].
      eapply IH, H.
    + destruct (r =? r_rbrace).
      * injection H as <- _. eauto.
      * eapply IH, H.
Qed.

Lemma ParseBraceTree_total (s : gostring) :
  exists t n, ParseBraceTree s = Some (t, n) /\ (n <= length s)%nat.
Proof.
  destruct (ParseBraceTree_loop_total (S (length s)) s 0 [] []) as (t & n & H & Hn);
    [lia|].
  exists t, n. split; [exact H|lia].
Qed.

(** The result does not depend on the fuel, once there is enough. *)
Lemma ParseBraceTree_loop_fuel (fuel : nat) :
  forall fuel' rest i children accum,
    (length rest < fuel)%nat -> (length rest < fuel')%nat ->
    ParseBraceTree_loop fuel rest i children accum
    = ParseBraceTree_loop fuel' rest i children accum.
Proof.
  induction fuel as [|f IH]; intros fuel' rest i children accum H H'; [lia|].
  destruct fuel' as [|f']; [lia|].
  destruct rest as [|b rest']; [reflexivity|].
  cbn [ParseBraceTree_loop].
  pose proof (Decode_width (b :: rest') ltac:(congruence)) as Hw.
  destruct (DecodeRuneInString (b :: rest')) as [r iskip]. cbn [snd] in Hw.
  set (s := b :: rest') in *.
  assert (Hs : length s = S (length rest')) by reflexivity.
  destruct (r =? r_lbrace).
  - rewrite (IH f' (drop iskip s)) by (rewrite length_drop; lia).
    destruct (ParseBraceTree_loop f' (drop iskip s) 0 [] []) as [[c nread]|];
      [|reflexivity].
    apply IH; rewrite length_drop; lia.
  - destruct (r =? r_rbrace); [reflexivity|].
    apply IH; rewrite length_drop; lia.
Qed.

(** ** Symbol resolution *)

Section SymbolFacts.
Context (U : UnicodeTables).

Lemma SymbolValue_loop_nonsymbol db n v :
  vT v <> SymbolType -> SymbolValue_loop U db n v = v.
Proof. destruct n; [reflexivity|]. simpl. destruct (vT v); congruence. Qed.

Lemma SymbolValue_loop_range db n v :
  let r := SymbolValue_loop U db n v in
  r = v
  \/ (exists k, Symbols db !! k = Some r)
  \/ (exists k m, predefinedSymbols !! k = Some m /\ r = mkValue StringType m 0).
Proof.
  revert v. induction n as [|n IH]; intros v; [left; reflexivity|].
  cbn [SymbolValue_loop]. destruct (vT v); try (left; reflexivity).
  destruct (Symbols db !! ToLower U (vS v)) as [w|] eqn:Hw.
  - destruct (IH w) as [E|[E|E]].
    + right. left. exists (ToLower U (vS v)). cbv zeta in E. rewrite E. exact Hw.
    + right. left. exact E.
    + right. right. exact E.
  - destruct (predefinedSymbols !! ToLower U (vS v)) as [m|] eqn:Hm.
    + right. right. eauto.
    + left. reflexivity.
Qed.

Lemma SymbolValue_nonsymbol db v d :
  vT v <> SymbolType -> SymbolValue U db v d = v.
Proof. apply SymbolValue_loop_nonsymbol. Qed.

Lemma SymbolValue_undefined db v d :
  vT v = SymbolType ->
  Symbols db !! ToLower U (vS v) = None ->
  predefinedSymbols !! ToLower U (vS v) = None ->
  SymbolValue U db v d = v.
Proof.
  intros H Hs Hm. unfold SymbolValue. destruct (Z.to_nat d); [reflexivity|].
  cbn [SymbolValue_loop]. rewrite H, Hs, Hm. reflexivity.
Qed.

(** C3 (as amended): [SymbolValue] leaves a value that is not a Symbol
    unchanged; with a depth bound that is not positive it leaves every
    value unchanged; a Symbol bound in the user table (looked up by its
    lowercased name) is replaced by its value and resolution goes on with
    one substitution fewer, so at most [d] substitutions are chained and
    the value then reached is returned; a Symbol found only in the month
    table becomes the month's String, provided the bound is positive; a
    Symbol defined nowhere is returned unchanged; and the result is always
    the argument, a value of the user table, or a month String, so a
    definition cycle ends at one of its values. *)
Theorem C3_SymbolValue_resolution (db : Database) (v : Value) (d : Z) :
  (vT v <> SymbolType -> SymbolValue U db v d = v)
  /\ ((d <= 0)%Z -> SymbolValue U db v d = v)
  /\ (vT v = SymbolType ->
      (forall w, (0 < d)%Z -> Symbols db !! ToLower U (vS v) = Some w ->
                 SymbolValue U db v d = SymbolValue U db w (d - 1))
      /\ (forall m, (0 < d)%Z -> Symbols db !! ToLower U (vS v) = None ->
                    predefinedSymbols !! ToLower U (vS v) = Some m ->
                    SymbolValue U db v d = mkValue StringType m 0)
      /\ (Symbols db !! ToLower U (vS v) = None ->
          predefinedSymbols !! ToLower U (vS v) = None ->
          SymbolValue U db v d = v))
  /\ (SymbolValue U db v d = v
      \/ (exists k, Symbols db !! k = Some (SymbolValue U db v d))
      \/ (exists k m, predefinedSymbols !! k = Some m
                      /\ SymbolValue U db v d = mkValue StringType m 0)).
Proof.
  unfold SymbolValue. split; [|split; [|split]].
  - apply SymbolValue_loop_nonsymbol.
  - intros Hd. replace (Z.to_nat d) with 0%nat by lia. reflexivity.
  - intros H. split; [|split].
    + intros w Hd Hw.
      replace (Z.to_nat d) with (S (Z.to_nat (d - 1))) by lia.
      cbn [SymbolValue_loop]. rewrite H, Hw. reflexivity.
    + intros m Hd Hs Hm.
      replace (Z.to_nat d) with (S (Z.to_nat (d - 1))) by lia.
      cbn [SymbolValue_loop]. rewrite H, Hs, Hm. reflexivity.
    + intros Hs Hm. fold (SymbolValue U db v d).
      apply SymbolValue_undefined; assumption.
  - apply SymbolValue_loop_range.
Qed.

End SymbolFacts.

(** C3, witness: the chain a -> b -> [X] and the month [jan]. *)
Lemma C3_SymbolValue_resolution_witness :
  let db := mkDatabase [] (<[str "a" := SymbolV (str "b")]>
                           (<[str "b" := StringV (str "X")]> ∅)) [] [] in
  SymbolValue latin1_only db (SymbolV (str "a")) 10
  = SymbolValue latin1_only db (SymbolV (str "b")) 9
  /\ SymbolValue latin1_only db (SymbolV (str "Jan")) 10
     = mkValue StringType (str "January") 0
  /\ SymbolValue latin1_only db (SymbolV (str "zzz")) 10 = SymbolV (str "zzz")
  /\ SymbolValue latin1_only db (NumberV 7) 10 = NumberV 7
  /\ SymbolValue latin1_only db (SymbolV (str "a")) 0 = SymbolV (str "a").
Proof.
  intros db.
  pose proof (C3_SymbolValue_resolution latin1_only db (SymbolV (str "a")) 10)
    as (_ & _ & Ha & _).
  pose proof (C3_SymbolValue_resolution latin1_only db (SymbolV (str "Jan")) 10)
    as (_ & _ & Hj & _).
  pose proof (C3_SymbolValue_resolution latin1_only db (SymbolV (str "zzz")) 10)
    as (_ & _ & Hz & _).
  pose proof (C3_SymbolValue_resolution latin1_only db (NumberV 7) 10)
    as (Hn & _).
  pose proof (C3_SymbolValue_resolution latin1_only db (SymbolV (str "a")) 0)
    as (_ & H0 & _).
  split; [|split; [|split; [|split]]].
  - apply (proj1 (Ha eq_refl)); [lia|reflexivity].
  - apply (proj1 (proj2 (Hj eq_refl))); [lia|reflexivity|reflexivity].
  - apply (proj2 (proj2 (Hz eq_refl))); reflexivity.
  - apply Hn. discriminate.
  - apply H0. lia.
Defined.

(** C3, as stated, fails: with depth bound 0 the month symbol [jan],
    undefined in the user table, is returned as it is, not as a String. *)
Lemma C3_counterexample :
  ~ (forall (db : Database) (v : Value) (d : Z) (m : gostring),
        vT v = SymbolType ->
        Symbols db !! ToLower latin1_only (vS v) = None ->
        predefinedSymbols !! ToLower latin1_only (vS v) = Some m ->
        SymbolValue latin1_only db v d = mkValue StringType m 0).
Proof.
  intros H.
  specialize (H NewDatabase (SymbolV (str "jan")) 0%Z (str "January")
                eq_refl eq_refl eq_refl).
  vm_compute in H. discriminate H.
Qed.

(** ** Equality against ordering *)

(** C6: [Number(2020)] and [Symbol 2020], the symbol being undefined,
    are not [Equals] in either order and neither is [Less] than the
    other. *)
Theorem C6_equals_vs_less (U : UnicodeTables) (db : Database) :
  Symbols db !! str "2020" = None ->
  Value_Equals (NumberV 2020) (SymbolV (str "2020")) = false
  /\ Value_Equals (SymbolV (str "2020")) (NumberV 2020) = false
  /\ Less U db (NumberV 2020) (SymbolV (str "2020")) = false
  /\ Less U db (SymbolV (str "2020")) (NumberV 2020) = false.
Proof.
  intros Hundef.
  assert (Hs : SymbolValue U db (SymbolV (str "2020")) 10 = SymbolV (str "2020")).
  { apply SymbolValue_undefined; [reflexivity|exact Hundef|reflexivity]. }
  assert (Hn : SymbolValue U db (NumberV 2020) 10 = NumberV 2020).
  { apply SymbolValue_nonsymbol. discriminate. }
  split; [reflexivity|]. split; [reflexivity|].
  unfold Less. rewrite Hs, Hn. split; reflexivity.
Qed.

Lemma C6_equals_vs_less_witness :
  Value_Equals (NumberV 2020) (SymbolV (str "2020")) = false
  /\ Value_Equals (SymbolV (str "2020")) (NumberV 2020) = false
  /\ Less latin1_only NewDatabase (NumberV 2020) (SymbolV (str "2020")) = false
  /\ Less latin1_only NewDatabase (SymbolV (str "2020")) (NumberV 2020) = false.
Proof. apply (C6_equals_vs_less latin1_only NewDatabase). reflexivity. Defined.

(** ** Author names: the von part *)

Section VonFacts.
Context (U : UnicodeTables).

Lemma parseVon_long (last : list gostring) :
  (2 <= length last)%nat ->
  parseVon U last =
  let j := parseVon_scan U last (length last - 1) in
  Some (if (0 <=? j)%Z then Join (take (Z.to_nat (j + 1)) last) (str " ") else [],
        Join (drop (Z.to_nat (j + 1)) last) (str " ")).
Proof.
  destruct last as [|x [|y l]]; simpl length; try lia. intros _. reflexivity.
Qed.

Lemma parseVon_scan_none (last : list gostring) (n : nat) :
  (n <= length last)%nat ->
  Forall (fun w => starts_lower U w = false) (take n last) ->
  parseVon_scan U last n = (-1)%Z.
Proof.
  induction n as [|n IH]; intros Hn H; [reflexivity|].
  cbn [parseVon_scan].
  destruct (lookup_lt_is_Some_2 last n ltac:(lia)) as [w Hw].
  rewrite (take_S_r _ _ _ Hw) in H. apply Forall_app in H as [H1 H2].
  rewrite Hw. simpl. rewrite Forall_singleton in H2. rewrite H2.
  apply IH; [lia|exact H1].
Qed.

Lemma parseVon_scan_found (a b rest : list gostring) (v : gostring) (k : nat) :
  starts_lower U v = true ->
  Forall (fun w => starts_lower U w = false) b ->
  (k <= length b)%nat ->
  parseVon_scan U (a ++ v :: b ++ rest) (length a + 1 + k) = Z.of_nat (length a).
Proof.
  intros Hv Hb. induction k as [|k IH]; intros Hk.
  - replace (length a + 1 + 0)%nat with (S (length a)) by lia.
    cbn [parseVon_scan]. rewrite list_lookup_middle by reflexivity.
    simpl. rewrite Hv. reflexivity.
  - replace (length a + 1 + S k)%nat with (S (length a + 1 + k)) by lia.
    cbn [parseVon_scan].
    destruct (lookup_lt_is_Some_2 b k ltac:(lia)) as [w Hw].
    assert (Hl : (a ++ v :: b ++ rest) !! (length a + 1 + k)%nat = Some w).
    { rewrite lookup_app_r by lia.
      replace (length a + 1 + k - length a)%nat with (S k) by lia.
      change ((v :: b ++ rest) !! S k) with ((b ++ rest) !! k).
      rewrite lookup_app_l by lia. exact Hw. }
    rewrite Hl. simpl.
    rewrite (proj1 (Forall_lookup _ _) Hb k w Hw).
    apply IH. lia.
Qed.

Lemma parseVon_no_lower (ws : list gostring) (wf : gostring) :
  Forall (fun w => starts_lower U w = false) ws ->
  parseVon U (ws ++ [wf]) = Some ([], Join (ws ++ [wf]) (str " ")).
Proof.
  intros H. destruct ws as [|x ws'].
  - simpl. rewrite app_nil_r. reflexivity.
  - rewrite parseVon_long by (rewrite length_app; simpl; lia).
    cbv zeta.
    rewrite parseVon_scan_none.
    + reflexivity.
    + rewrite length_app. simpl. lia.
    + replace (length ((x :: ws') ++ [wf]) - 1)%nat with (length (x :: ws'))
        by (rewrite length_app; simpl; lia).
      rewrite take_app_length. exact H.
Qed.

Lemma parseVon_last_lower (a b : list gostring) (v wf : gostring) :
  starts_lower U v = true ->
  Forall (fun w => starts_lower U w = false) b ->
  parseVon U (a ++ v :: b ++ [wf])
  = Some (Join (a ++ [v]) (str " "), Join (b ++ [wf]) (str " ")).
Proof.
  intros Hv Hb.
  rewrite parseVon_long by (rewrite !length_app; simpl; rewrite length_app; simpl; lia).
  cbv zeta.
  replace (length (a ++ v :: b ++ [wf]) - 1)%nat with (length a + 1 + length b)%nat
    by (rewrite !length_app; simpl; rewrite length_app; simpl; lia).
  rewrite parseVon_scan_found by (auto; lia).
  destruct (Z.leb_spec 0 (Z.of_nat (length a))) as [_|]; [|lia].
  replace (Z.to_nat (Z.of_nat (length a) + 1)) with (length (a ++ [v]))
    by (rewrite length_app; simpl; lia).
  replace (a ++ v :: b ++ [wf]) with ((a ++ [v]) ++ (b ++ [wf]))
    by (rewrite <- app_assoc; reflexivity).
  rewrite take_app_length, drop_app_length. reflexivity.
Qed.

(** C7 (as amended): the two names of the specification parse to the
    parts it gives; in general the von part is every word up to and
    including the last word that starts with a lowercase letter among
    the words before the final one (words before it that start otherwise
    are part of it too), it is empty when no such word exists, and the
    final word always belongs to Last. *)
Theorem C7_NormalizeName_von_part :
  NormalizeName U (str "von de Moo, Jr., Henry")
  = Some (Some {| Others := false; First := str "Henry"; Last := str "Moo";
                  Von := str "von de"; Jr := str "Jr." |})
  /\ NormalizeName U (str "Henry von de Moo")
     = Some (Some {| Others := false; First := str "Henry"; Last := str "Moo";
                     Von := str "von de"; Jr := [] |})
  /\ (forall (ws : list gostring) (wf : gostring),
        Forall (fun w => starts_lower U w = false) ws ->
        parseVon U (ws ++ [wf]) = Some ([], Join (ws ++ [wf]) (str " ")))
  /\ (forall (a b : list gostring) (v wf : gostring),
        starts_lower U v = true ->
        Forall (fun w => starts_lower U w = false) b ->
        parseVon U (a ++ v :: b ++ [wf])
        = Some (Join (a ++ [v]) (str " "), Join (b ++ [wf]) (str " "))).
Proof.
  split; [vm_compute; reflexivity|].
  split; [vm_compute; reflexivity|].
  split; [apply parseVon_no_lower|apply parseVon_last_lower].
Qed.

End VonFacts.

Lemma C7_NormalizeName_von_part_witness :
  parseVon latin1_only ([str "Moo"] ++ str "von" :: [str "De"] ++ [str "Berry"])
  = Some (Join ([str "Moo"] ++ [str "von"]) (str " "),
          Join ([str "De"] ++ [str "Berry"]) (str " "))
  /\ parseVon latin1_only ([str "Moo"; str "De"] ++ [str "Berry"])
     = Some ([], Join ([str "Moo"; str "De"] ++ [str "Berry"]) (str " ")).
Proof.
  pose proof (C7_NormalizeName_von_part latin1_only) as (_ & _ & H1 & H2).
  split.
  - apply H2; [reflexivity|]. repeat constructor.
  - apply H1. repeat constructor.
Defined.

(** C7, as stated, fails: in [Moo von Berry] the longest prefix of
    lowercase-initial words is empty, while [parseVon] makes [Moo von]
    the von part. *)
Lemma C7_counterexample :
  ~ (forall (words : list gostring) (von last : gostring),
        parseVon latin1_only words = Some (von, last) ->
        von = von_longest_lower_prefix latin1_only words).
Proof.
  intros H.
  specialize (H [str "Moo"; str "von"; str "Berry"] (str "Moo von") (str "Berry")
                eq_refl).
  vm_compute in H. discriminate H.
Qed.

(** ** The parser: repeated tags and [@string] blocks *)

Section ParserFacts.
Context (U : UnicodeTables).

(** What [readTagValue] stores: the value read, under the lowercased
    tag, in place of whatever the entry held there. *)
Lemma readTagValue_stores (entry entry' : Entry) (p p' : Parser) :
  readTagValue U entry p = Ok ((true, entry'), p') ->
  exists c v, curToken p = Some c
              /\ Fields entry' = <[ToLower U (Literal c) := v]> (Fields entry).
Proof.
  unfold readTagValue, bind, cur, expectPeek, peekTokenIs, peek, peekError,
    Parser_addError, advanceTokens, ret, bind.
  destruct (curToken p) as [c|] eqn:Hc; [|discriminate].
  intros H. exists c.
  repeat match type of H with
         | context [match ?x with _ => _ end] =>
             let E := fresh "E" in destruct x eqn:E; simpl in H; try discriminate H
         end;
    injection H as <- <-; simpl; eauto.
Qed.

(** C9 (the code at the failing input): the entry repeats the tag
    [title]; the parser ends with the value of the second occurrence. *)
Theorem C9_repeated_tag_keeps_last :
  match parse U (str "@article{k, title = {A}, Title = {B}}") with
  | Ok (db, p) =>
      map (fun e => Fields e !! str "title") (Pubs db) = [Some (StringV (str "B"))]
      /\ errors p = []
  | _ => False
  end.
Proof. vm_compute. split; reflexivity. Qed.

End ParserFacts.

Section StringBlocks.
Context (U : UnicodeTables).

Lemma map_size_one {A} (m : gmap gostring A) :
  size m = 1%nat -> exists k v, m = {[k := v]}.
Proof.
  intros Hsz.
  destruct (map_size_ne_0_lookup_1 m) as (k & v & Hk); [lia|].
  exists k, v.
  assert (Hd : delete k m = ∅).
  { apply map_size_empty_inv. rewrite map_size_delete, Hk. lia. }
  rewrite <- (insert_delete_id m k v Hk), Hd. reflexivity.
Qed.

Lemma addEntry_string_one (entry : Entry) (database : Database) (p : Parser) :
  Kind entry = KString -> size (Fields entry) = 1%nat ->
  exists k v, Fields entry = {[k := v]}
              /\ addEntry entry database p
                 = Ok (set_Symbols (<[k := v]> (Symbols database)) database, p).
Proof.
  intros HK Hsz. apply map_size_one in Hsz as (k & v & Hf).
  exists k, v. split; [exact Hf|].
  unfold addEntry. rewrite HK, Hf, map_size_singleton. cbn [Nat.eqb negb].
  unfold ret, set_Symbols. rewrite insert_union_singleton_l. reflexivity.
Qed.

Lemma addEntry_string_other (entry : Entry) (database : Database) (p : Parser) :
  Kind entry = KString -> size (Fields entry) <> 1%nat ->
  addEntry entry database p = Ok (database, with_error (count_error p) p).
Proof.
  intros HK Hsz. unfold addEntry. rewrite HK.
  destruct (Nat.eqb_spec (size (Fields entry)) 1) as [E|_]; [contradiction|].
  reflexivity.
Qed.

(** C10 (as amended): every pair of an [@string] block is stored in the
    block's own field map under the lowercased symbol, a later pair
    replacing an earlier one of the same name; the parser then puts the
    block into [Symbols] only when that map holds exactly one symbol, and
    it records the count error exactly when the map holds none or more
    than one, in which case [Symbols] is left as it was. *)
Theorem C10_string_block_count (entry : Entry) (database : Database) (p : Parser) :
  Kind entry = KString ->
  (forall entry0 entry1 p0 p1,
      readTagValue U entry0 p0 = Ok ((true, entry1), p1) ->
      exists c v, curToken p0 = Some c
                  /\ Fields entry1 = <[ToLower U (Literal c) := v]> (Fields entry0))
  /\ (size (Fields entry) = 1%nat ->
      exists k v, Fields entry = {[k := v]}
                  /\ addEntry entry database p
                     = Ok (set_Symbols (<[k := v]> (Symbols database)) database, p))
  /\ (size (Fields entry) <> 1%nat ->
      addEntry entry database p = Ok (database, with_error (count_error p) p))
  /\ match parse U (str "@string{ Abc = {x} }") with
     | Ok (db, p') =>
         map_to_list (Symbols db) = [(str "abc", StringV (str "x"))] /\ errors p' = []
     | _ => False
     end
  /\ match parse U (str "@string{ a = {x}, b = {y} }") with
     | Ok (db, p') =>
         map_to_list (Symbols db) = [] /\ length (errors p') = 1%nat
     | _ => False
     end
  /\ match parse U (str "@string{ }") with
     | Ok (db, p') =>
         map_to_list (Symbols db) = [] /\ length (errors p') = 1%nat
     | _ => False
     end.
Proof.
  intros HK.
  split; [intros *; apply readTagValue_stores|].
  split; [apply addEntry_string_one, HK|].
  split; [apply addEntry_string_other, HK|].
  split; [vm_compute; split; reflexivity|].
  split; vm_compute; split; reflexivity.
Qed.

End StringBlocks.

Lemma C10_string_block_count_witness :
  let entry := mkEntry KString (str "string") [] {[ str "a" := StringV (str "x") ]} [] 0 in
  let p := mkParser (Lexer_New []) [] None None false in
  exists k v, Fields entry = {[k := v]}
              /\ addEntry entry NewDatabase p
                 = Ok (set_Symbols (<[k := v]> (Symbols NewDatabase)) NewDatabase, p).
Proof.
  intros entry p.
  exact (proj1 (proj2 (C10_string_block_count latin1_only entry NewDatabase p eq_refl))
               eq_refl).
Defined.

(** C10, as stated, fails: a block that defines two symbols is not
    accepted; neither pair reaches [Symbols] and an error is recorded. *)
Lemma C10_counterexample :
  ~ match parse latin1_only (str "@string{ a = {x}, b = {y} }") with
    | Ok (db, p) =>
        Symbols db !! str "a" = Some (StringV (str "x"))
        /\ Symbols db !! str "b" = Some (StringV (str "y"))
        /\ errors p = []
    | _ => False
    end.
Proof. vm_compute. intros (H & _). discriminate H. Qed.

(** ** The duplicate engine at work *)

Section EngineRuns.
Context (U : UnicodeTables).

(** C2 (the code at the failing input): three entries share the title
    [T]; the second and the third are equal and both are subsets of the
    first.  Each is marked against the first entry, and the second is
    then marked again against the third, both being [Deleted] by then:
    [ndel] is 3 for two deleted entries, [removeDeleted] allocates no
    slot and the write of the survivor panics.  Both passes have a single
    bin here, so there is one visit order. *)
Theorem C2_subset_elimination_panics :
  match parse U (str "@article{c, title = {T}, year = 2020}
@article{a, title = {T}}
@article{b, title = {T}}") with
  | Ok (db, _) =>
      map_to_list (bins_by title_key (Pubs db)) = [(str "T", [0; 1; 2]%nat)]
      /\ RemoveContainedEntries U [str "T"] db = None
      /\ map_to_list (FindDupsByTitle U (Pubs db)) = [(str "t", [0; 1; 2]%nat)]
      /\ RemoveDupsByTitle U [str "t"] db = None
  | _ => False
  end.
Proof. vm_compute. repeat split; reflexivity. Qed.

(** C5 (the code at the failing input): the [Children] of a parsed
    root are never [nil], so [FlattenToMinBraces] always takes its
    word-by-word branch; the title below mixes bare words and a braced
    group, so it is in neither of the two simple shapes, and its
    strange-case word is wrapped all the same. *)
Theorem C5_min_braces_rewrites_mixed :
  (forall s bn size, ParseBraceTree s = Some (bn, size) -> Children bn <> None)
  /\
  match ParseBraceTree (str "mRNA {foo} bar") with
  | Some (bn, size) =>
      size = length (str "mRNA {foo} bar")
      /\ IsEntireStringBraced bn = false
      /\ ContainsNoBraces bn = false
      /\ Flatten bn = str "mRNA {foo} bar"
      /\ FlattenToMinBraces U bn = str "{mRNA} {foo} bar"
      /\ vS (ConvertTitlesToMinBraces_field U (str "title")
               (StringV (str "mRNA {foo} bar")))
         = str "{mRNA} {foo} bar"
  | None => False
  end.
Proof.
  split.
  - intros s bn size H. apply ParseBraceTree_loop_root in H as [cs ->]. discriminate.
  - vm_compute. repeat split; reflexivity.
Qed.

End EngineRuns.

(** ** Exact-duplicate elimination *)

(** ** Bins *)

Section BinFacts.
Context (key_of : Entry -> option gostring).

Lemma bins_by_snoc (pubs : list Entry) (x : Entry) :
  bins_by key_of (pubs ++ [x]) =
  match key_of x with
  | Some key => bin_add (bins_by key_of pubs) key (length pubs)
  | None => bins_by key_of pubs
  end.
Proof.
  unfold bins_by. rewrite imap_app, foldl_app. simpl.
  rewrite Nat.add_0_r. reflexivity.
Qed.

Lemma bin_spec_snoc (key : gostring) (pubs : list Entry) (x : Entry) :
  bin_spec key_of key (pubs ++ [x]) =
  bin_spec key_of key pubs
  ++ (if decide (key_of x = Some key) then [length pubs] else []).
Proof.
  unfold bin_spec. rewrite imap_app, filter_app, fmap_app. f_equal.
  simpl. rewrite Nat.add_0_r.
  rewrite filter_cons. simpl.
  destruct (decide (key_of x = Some key)); reflexivity.
Qed.

Lemma bins_by_lookup (pubs : list Entry) (key : gostring) :
  default [] (bins_by key_of pubs !! key) = bin_spec key_of key pubs.
Proof.
  induction pubs as [|x pubs IH] using rev_ind; [reflexivity|].
  rewrite bins_by_snoc, bin_spec_snoc.
  destruct (key_of x) as [k|] eqn:Hk.
  - unfold bin_add. destruct (decide (k = key)) as [->|Hne].
    + rewrite lookup_insert_eq. simpl. rewrite IH.
      rewrite decide_True by reflexivity. reflexivity.
    + rewrite lookup_insert_ne by exact Hne. rewrite IH.
      rewrite decide_False by congruence. rewrite app_nil_r. reflexivity.
  - rewrite IH, decide_False by congruence. rewrite app_nil_r. reflexivity.
Qed.

Lemma bins_by_keys (pubs : list Entry) (e : Entry) (key : gostring) :
  e ∈ pubs -> key_of e = Some key -> is_Some (bins_by key_of pubs !! key).
Proof.
  induction pubs as [|x pubs IH] using rev_ind; intros Hin Hk.
  - inversion Hin.
  - rewrite bins_by_snoc. apply elem_of_app in Hin as [Hin|Hin].
    + destruct (key_of x) as [k|]; [|auto].
      unfold bin_add. destruct (decide (k = key)) as [->|Hne].
      * rewrite lookup_insert_eq. eauto.
      * rewrite lookup_insert_ne by exact Hne. auto.
    + apply list_elem_of_singleton in Hin as ->. rewrite Hk.
      unfold bin_add. rewrite lookup_insert_eq. eauto.
Qed.

Lemma range_order_NoDup (bins : gmap gostring (list nat)) (order : list gostring) :
  range_order bins order -> NoDup order.
Proof.
  unfold range_order. intros ->. apply NoDup_fst_map_to_list.
Qed.

Lemma range_order_elem (pubs : list Entry) (order : list gostring) (e : Entry) (key : gostring) :
  range_order (bins_by key_of pubs) order ->
  e ∈ pubs -> key_of e = Some key -> key ∈ order.
Proof.
  unfold range_order. intros -> Hin Hk.
  destruct (bins_by_keys pubs e key Hin Hk) as [l Hl].
  apply list_elem_of_fmap. exists (key, l). split; [reflexivity|].
  apply elem_of_map_to_list. exact Hl.
Qed.

(** The indices of a bin: in range, of the bin's key, increasing. *)
Lemma bin_spec_elem (key : gostring) (pubs : list Entry) (i : nat) :
  i ∈ bin_spec key_of key pubs <->
  exists e, pubs !! i = Some e /\ key_of e = Some key.
Proof.
  unfold bin_spec. rewrite list_elem_of_fmap. split.
  - intros ([j e] & -> & H). apply list_elem_of_filter in H as [Hk H].
    apply list_elem_of_lookup in H as [n H].
    rewrite list_lookup_imap in H.
    destruct (pubs !! n) as [e'|] eqn:E; [|discriminate].
    injection H as <- <-. eauto.
  - intros (e & He & Hk). exists (i, e). split; [reflexivity|].
    apply list_elem_of_filter. split; [exact Hk|].
    apply list_elem_of_lookup. exists i. rewrite list_lookup_imap, He. reflexivity.
Qed.

End BinFacts.

Section BinShape.
Context (key_of : Entry -> option gostring).

Lemma bin_spec_shift (key : gostring) (l : list Entry) :
  forall (f g : nat -> nat),
    (filter (fun ie : nat * Entry => key_of (snd ie) = Some key)
            (imap (fun n e => (g (f n), e)) l)).*1
    = map g ((filter (fun ie : nat * Entry => key_of (snd ie) = Some key)
                     (imap (fun n e => (f n, e)) l)).*1).
Proof.
  induction l as [|x l IH]; intros f g; [reflexivity|].
  cbn [imap]. rewrite !filter_cons. cbn [snd].
  destruct (decide (key_of x = Some key));
    [rewrite !fmap_cons; cbn [fst map]; f_equal|]; apply (IH (f ∘ S) g).
Qed.

Lemma bin_spec_app (key : gostring) (l1 l2 : list Entry) :
  bin_spec key_of key (l1 ++ l2)
  = bin_spec key_of key l1 ++ map (fun j => length l1 + j)%nat (bin_spec key_of key l2).
Proof.
  unfold bin_spec. rewrite imap_app, filter_app, fmap_app. f_equal.
  apply (bin_spec_shift key l2 (fun n => n) (fun j => (length l1 + j)%nat)).
Qed.

Lemma bin_spec_cons (key : gostring) (e : Entry) (l : list Entry) :
  bin_spec key_of key (e :: l)
  = (if decide (key_of e = Some key) then [0%nat] else [])
    ++ map S (bin_spec key_of key l).
Proof.
  change (e :: l) with ([e] ++ l). rewrite bin_spec_app. f_equal.
  unfold bin_spec. simpl. rewrite filter_cons. simpl.
  destruct (decide (key_of e = Some key)); reflexivity.
Qed.

Lemma bin_spec_split (key : gostring) (pubs : list Entry) (i : nat) (e : Entry) :
  pubs !! i = Some e -> key_of e = Some key ->
  bin_spec key_of key pubs
  = bin_spec key_of key (take i pubs)
    ++ i :: map (fun j => S i + j)%nat (bin_spec key_of key (drop (S i) pubs)).
Proof.
  intros Hi Hk.
  rewrite <- (take_drop_middle pubs i e Hi) at 1.
  rewrite bin_spec_app, bin_spec_cons, decide_True by exact Hk.
  assert (Hlen : length (take i pubs) = i).
  { rewrite length_take. apply lookup_lt_Some in Hi. lia. }
  rewrite Hlen. f_equal. simpl. rewrite Nat.add_0_r. f_equal.
  rewrite map_map. apply map_ext. intros j. lia.
Qed.

Lemma bin_spec_NoDup (key : gostring) (pubs : list Entry) :
  NoDup (bin_spec key_of key pubs).
Proof.
  induction pubs as [|x pubs IH] using rev_ind; [constructor|].
  rewrite bin_spec_snoc. destruct (decide (key_of x = Some key)).
  - apply NoDup_app. split; [exact IH|]. split; [|apply NoDup_singleton].
    intros i Hi Hin. apply list_elem_of_singleton in Hin as ->.
    apply bin_spec_elem in Hi as (e' & He & _). apply lookup_lt_Some in He. lia.
  - rewrite app_nil_r. exact IH.
Qed.

End BinShape.

Lemma existsb_fmap {A B} (f : B -> bool) (g : A -> B) (l : list A) :
  existsb f (map g l) = existsb (fun x => f (g x)) l.
Proof. induction l as [|x l IH]; [reflexivity|]. simpl. rewrite IH. reflexivity. Qed.

(** ** One bin of [RemoveExactDups] *)

Lemma existsb_ext_elem {A} (f g : A -> bool) (l : list A) :
  (forall x, x ∈ l -> f x = g x) -> existsb f l = existsb g l.
Proof.
  induction l as [|x l IH]; intros H; [reflexivity|].
  simpl. rewrite (H x) by left. rewrite IH; [reflexivity|].
  intros y Hy. apply H. right. exact Hy.
Qed.

Lemma count_deleted_insert (h : heap) (i : nat) (e : Entry) :
  h !! i = Some e -> Kind e <> Deleted ->
  count_deleted (<[i := set_Kind Deleted e]> h) = S (count_deleted h).
Proof.
  intros Hi HK. unfold count_deleted.
  rewrite insert_take_drop by (eapply lookup_lt_Some; eauto).
  rewrite <- (take_drop_middle h i e Hi) at 3.
  rewrite !filter_app, !filter_cons, !length_app.
  rewrite decide_True by reflexivity. rewrite decide_False by exact HK.
  simpl. lia.
Qed.

Section ExactBin.
Context (U : UnicodeTables).

Lemma exactDups_bin_spec (entries : list nat) :
  forall (h : heap) (nd : Z),
    NoDup entries ->
    (forall i e, i ∈ entries -> h !! i = Some e -> Kind e <> Deleted) ->
    let '(h', nd') := exactDups_bin U entries (h, nd) in
    length h' = length h
    /\ (forall i, i ∉ entries -> h' !! i = h !! i)
    /\ (forall pre i post e,
          entries = pre ++ i :: post -> h !! i = Some e ->
          h' !! i = Some (mark_if (existsb (equals_at U h e) post) e))
    /\ (nd' - nd = Z.of_nat (count_deleted h') - Z.of_nat (count_deleted h))%Z.
Proof.
  induction entries as [|i later IH]; intros h nd Hnd Hlive.
  - simpl. split; [reflexivity|]. split; [reflexivity|]. split; [|lia].
    intros pre i post e H. destruct pre; discriminate H.
  - apply NoDup_cons in Hnd as [Hi Hnd].
    cbn [exactDups_bin].
    destruct (h !! i) as [ei|] eqn:Hei.
    + fold (equals_at U h ei).
      destruct (existsb (equals_at U h ei) later) eqn:Hex.
      * set (h1 := <[i := set_Kind Deleted ei]> h).
        assert (Hsame : forall j, j <> i -> h1 !! j = h !! j).
        { intros j Hj. unfold h1. apply list_lookup_insert_ne. congruence. }
        specialize (IH h1 (nd + 1)%Z Hnd).
        destruct (exactDups_bin U later (h1, (nd + 1)%Z)) as [h' nd'].
        destruct IH as (Hlen & Hout & Hin & Hcnt).
        { intros j e Hj He. rewrite Hsame in He by (intros ->; contradiction).
          eapply Hlive; [right; exact Hj|exact He]. }
        split; [rewrite Hlen; unfold h1; apply length_insert|].
        split.
        { intros j Hj. apply not_elem_of_cons in Hj as [Hji Hj].
          rewrite Hout by exact Hj. apply Hsame, Hji. }
        split.
        { intros pre j post e Heq He. destruct pre as [|x pre].
          - injection Heq as <- <-. rewrite Hout by exact Hi.
            unfold h1. rewrite list_lookup_insert_eq
              by (eapply lookup_lt_Some; eauto).
            rewrite He in Hei. injection Hei as ->. rewrite Hex. reflexivity.
          - injection Heq as <- ->.
            assert (Hji : j <> i).
            { intros ->. apply Hi. apply elem_of_app. right. left. }
            rewrite (Hin pre j post e eq_refl) by (rewrite Hsame; auto).
            f_equal. f_equal. apply existsb_ext_elem.
            intros k Hk. unfold equals_at. rewrite Hsame; [reflexivity|].
            intros ->. apply Hi. apply elem_of_app. right. right. exact Hk. }
        { unfold h1 in Hcnt.
          rewrite (count_deleted_insert h i ei Hei) in Hcnt
            by (eapply Hlive; [left|exact Hei]).
          lia. }
      * specialize (IH h nd Hnd).
        destruct (exactDups_bin U later (h, nd)) as [h' nd'].
        destruct IH as (Hlen & Hout & Hin & Hcnt).
        { intros j e Hj He. eapply Hlive; [right; exact Hj|exact He]. }
        split; [exact Hlen|]. split.
        { intros j Hj. apply not_elem_of_cons in Hj as [_ Hj]. apply Hout, Hj. }
        split; [|exact Hcnt].
        intros pre j post e Heq He. destruct pre as [|x pre].
        -- injection Heq as <- <-. rewrite Hout by exact Hi.
           rewrite He in Hei. injection Hei as ->. rewrite Hex. exact He.
        -- injection Heq as <- ->. apply (Hin pre j post e eq_refl He).
    + specialize (IH h nd Hnd).
      destruct (exactDups_bin U later (h, nd)) as [h' nd'].
      destruct IH as (Hlen & Hout & Hin & Hcnt).
      { intros j e Hj He. eapply Hlive; [right; exact Hj|exact He]. }
      split; [exact Hlen|]. split.
      { intros j Hj. apply not_elem_of_cons in Hj as [_ Hj]. apply Hout, Hj. }
      split; [|exact Hcnt].
      intros pre j post e Heq He. destruct pre as [|x pre].
      * injection Heq as <- <-. congruence.
      * injection Heq as <- ->. apply (Hin pre j post e eq_refl He).
Qed.

End ExactBin.

Lemma removeDeleted_loop_spec (pubs : list Entry) :
  forall (newPubs : list (option Entry)) (i : nat),
    let kept := filter (fun e => Kind e <> Deleted) pubs in
    (i + length kept <= length newPubs)%nat ->
    removeDeleted_loop pubs newPubs i
    = Some (take i newPubs ++ map Some kept ++ drop (i + length kept) newPubs).
Proof.
  induction pubs as [|e rest IH]; intros newPubs i kept Hlen.
  - simpl. subst kept. simpl. rewrite Nat.add_0_r, take_drop. reflexivity.
  - subst kept. cbn [removeDeleted_loop]. rewrite filter_cons in *.
    destruct (decide (Kind e <> Deleted)) as [HK|HK].
    + rewrite bool_decide_true by exact HK. cbn [length] in Hlen.
      destruct (Nat.ltb_spec i (length newPubs)); [|lia].
      rewrite IH by (rewrite length_insert; lia).
      f_equal. cbn [map length].
      rewrite take_S_r with (x := Some e)
        by (apply list_lookup_insert_eq; lia).
      rewrite take_insert_ge by lia.
      rewrite drop_insert_lt by lia.
      rewrite <- app_assoc. simpl.
      rewrite Nat.add_succ_r. reflexivity.
    + rewrite bool_decide_false by exact HK. apply IH. exact Hlen.
Qed.

Lemma count_deleted_kept (h : list Entry) :
  (count_deleted h + length (filter (fun e => Kind e <> Deleted) h) = length h)%nat.
Proof.
  unfold count_deleted. induction h as [|e h IH]; [reflexivity|].
  rewrite !filter_cons. destruct (decide (Kind e = Deleted)) as [E|E].
  - rewrite decide_False by (intros H; exact (H E)). simpl. lia.
  - rewrite decide_True by exact E. simpl. lia.
Qed.

Lemma removeDeleted_counted (h : list Entry) :
  removeDeleted h (Z.of_nat (count_deleted h))
  = Some (map Some (filter (fun e => Kind e <> Deleted) h)).
Proof.
  unfold removeDeleted. pose proof (count_deleted_kept h) as Hc.
  set (kept := filter (fun e => Kind e <> Deleted) h) in *.
  destruct (Z.ltb_spec (Z.of_nat (length h) - Z.of_nat (count_deleted h)) 0); [lia|].
  replace (Z.to_nat (Z.of_nat (length h) - Z.of_nat (count_deleted h)))
    with (length kept) by lia.
  rewrite removeDeleted_loop_spec by (rewrite length_replicate; fold kept; lia).
  fold kept. simpl. rewrite drop_ge by (rewrite length_replicate; lia).
  rewrite app_nil_r. reflexivity.
Qed.

Section ExactAll.
Context (U : UnicodeTables).

Lemma exact_marked_length (pubs : list Entry) :
  length (exact_marked U pubs) = length pubs.
Proof. induction pubs; simpl; congruence. Qed.

Lemma exact_marked_lookup (pubs : list Entry) :
  forall i e, pubs !! i = Some e ->
              exact_marked U pubs !! i = Some (marked_at U pubs i e).
Proof.
  induction pubs as [|x pubs IH]; intros i e H; [discriminate|].
  destruct i as [|i].
  - injection H as ->. reflexivity.
  - simpl in H. simpl. rewrite (IH i e H). reflexivity.
Qed.

Lemma existsb_bin (e : Entry) (l : list Entry) :
  existsb (fun j => match l !! j with
                    | Some ej => Entry_Equals U e ej
                    | None => false
                    end) (bin_spec (key_bin U) (ToLower U (Key e)) l)
  = existsb (exact_dup_of U e) l.
Proof.
  induction l as [|x l IH]; [reflexivity|].
  rewrite bin_spec_cons, existsb_app. cbn [existsb].
  rewrite <- IH. f_equal.
  - unfold exact_dup_of, key_bin, string_eq.
    destruct (decide (Some (ToLower U (Key x)) = Some (ToLower U (Key e)))) as [E|E].
    + injection E as E. rewrite bool_decide_true by congruence.
      simpl. rewrite orb_false_r. reflexivity.
    + rewrite bool_decide_false by congruence. reflexivity.
  - rewrite existsb_fmap. reflexivity.
Qed.

Lemma exactDups_fold (pubs : list Entry) :
  Forall (fun e => Kind e <> Deleted) pubs ->
  forall (order done : list gostring) (h : list Entry) (nd : Z),
    NoDup order ->
    (forall key, key ∈ order -> key ∉ done) ->
    length h = length pubs ->
    (forall i e, pubs !! i = Some e ->
       (ToLower U (Key e) ∈ done -> h !! i = Some (marked_at U pubs i e))
       /\ (ToLower U (Key e) ∉ done -> h !! i = Some e)) ->
    let '(h', nd') := foldl (exact_step U pubs) (h, nd) order in
    length h' = length pubs
    /\ (forall i e, pubs !! i = Some e ->
          (ToLower U (Key e) ∈ order ++ done -> h' !! i = Some (marked_at U pubs i e))
          /\ (ToLower U (Key e) ∉ order ++ done -> h' !! i = Some e))
    /\ (nd' - nd = Z.of_nat (count_deleted h') - Z.of_nat (count_deleted h))%Z.
Proof.
  intros Hlive order.
  induction order as [|key order IH]; intros done h nd Hnd Hfresh Hlen Hinv.
  - simpl. split; [exact Hlen|]. split; [exact Hinv|lia].
  - apply NoDup_cons in Hnd as [Hkey Hnd].
    cbn [foldl]. unfold exact_step at 2. rewrite bins_by_lookup.
    assert (Hkd : key ∉ done) by (apply Hfresh; left).
    pose proof (exactDups_bin_spec U (bin_spec (key_bin U) key pubs) h nd
                  (bin_spec_NoDup (key_bin U) key pubs)) as Hbin.
    destruct (exactDups_bin U (bin_spec (key_bin U) key pubs) (h, nd)) as [h1 nd1].
    destruct Hbin as (Hlen1 & Hout & Hin & Hcnt).
    { intros i e' Hi He'. apply bin_spec_elem in Hi as (e & He & Hk).
      injection Hk as Hk. destruct (Hinv i e He) as [_ Hun].
      rewrite Hun in He' by (rewrite Hk; exact Hkd). injection He' as <-.
      exact (proj1 (Forall_lookup _ _) Hlive i e He). }
    specialize (IH (key :: done) h1 nd1 Hnd).
    destruct (foldl (exact_step U pubs) (h1, nd1) order) as [h' nd'].
    destruct IH as (Hlen' & Hinv' & Hcnt').
    + intros k Hk Hkd'. apply elem_of_cons in Hkd' as [->|Hkd'].
      * contradiction.
      * apply (Hfresh k); [right; exact Hk|exact Hkd'].
    + congruence.
    + intros i e He. destruct (Hinv i e He) as [Hdone Hun].
      destruct (decide (ToLower U (Key e) = key)) as [Ek|Ek].
      * split; [intros _|intros Hn; exfalso; apply Hn; rewrite Ek; left].
        rewrite (bin_spec_split (key_bin U) key pubs i e He) in Hin
          by (unfold key_bin; congruence).
        rewrite (Hin _ i _ e eq_refl) by (apply Hun; rewrite Ek; exact Hkd).
        f_equal. unfold marked_at. f_equal.
        rewrite existsb_fmap. rewrite <- existsb_bin.
        rewrite Ek. apply existsb_ext_elem. intros j Hj.
        apply bin_spec_elem in Hj as (ej & Hej & Hkj). injection Hkj as Hkj.
        unfold equals_at. rewrite Hej.
        rewrite lookup_drop in Hej.
        destruct (Hinv _ ej Hej) as [_ Hun']. rewrite Hun' by (rewrite Hkj; exact Hkd).
        reflexivity.
      * assert (Hi : i ∉ bin_spec (key_bin U) key pubs).
        { intros Hi. apply bin_spec_elem in Hi as (e2 & He2 & Hk2).
          rewrite He in He2. injection He2 as <-. injection Hk2 as Hk2.
          contradiction. }
        rewrite (Hout i Hi). split.
        -- intros Hd. apply Hdone. apply elem_of_cons in Hd as [Hd|Hd];
             [contradiction|exact Hd].
        -- intros Hd. apply Hun. intros Hd'. apply Hd. right. exact Hd'.
    + split; [exact Hlen'|]. split; [|lia].
      intros i e He. destruct (Hinv' i e He) as [Ha Hb]. split.
      * intros Hd. apply Ha. apply elem_of_app.
        apply elem_of_cons in Hd as [->|Hd]; [right; left|].
        apply elem_of_app in Hd as [Hd|Hd]; [left; exact Hd|right; right; exact Hd].
      * intros Hd. apply Hb. intros Hd'. apply Hd.
        apply elem_of_app in Hd' as [Hd'|Hd'].
        -- right. apply elem_of_app. left. exact Hd'.
        -- apply elem_of_cons in Hd' as [->|Hd']; [left|].
           right. apply elem_of_app. right. exact Hd'.
Qed.

Lemma count_deleted_live (pubs : list Entry) :
  Forall (fun e => Kind e <> Deleted) pubs -> count_deleted pubs = 0%nat.
Proof.
  unfold count_deleted. induction 1 as [|e l He _ IH]; [reflexivity|].
  rewrite filter_cons, decide_False by exact He. exact IH.
Qed.

Lemma exactDups_mark_spec (pubs : list Entry) (order : list gostring) :
  Forall (fun e => Kind e <> Deleted) pubs ->
  range_order (bins_by (key_bin U) pubs) order ->
  exactDups_mark U order pubs
  = (exact_marked U pubs, Z.of_nat (count_deleted (exact_marked U pubs))).
Proof.
  intros Hlive Hord.
  pose proof (exactDups_fold pubs Hlive order [] pubs 0%Z
                (range_order_NoDup _ _ Hord)) as H.
  unfold exactDups_mark. fold (key_bin U). change (foldl _ (pubs, 0%Z) order)
    with (foldl (exact_step U pubs) (pubs, 0%Z) order).
  destruct (foldl (exact_step U pubs) (pubs, 0%Z) order) as [h' nd'].
  destruct H as (Hlen & Hinv & Hcnt).
  - intros key _ Hk. inversion Hk.
  - reflexivity.
  - intros i e He. split; [intros Hk; inversion Hk|intros _; exact He].
  - assert (Hh : h' = exact_marked U pubs).
    { apply list_eq. intros i. destruct (pubs !! i) as [e|] eqn:He.
      - rewrite (exact_marked_lookup pubs i e He).
        apply (Hinv i e He). rewrite app_nil_r.
        eapply (range_order_elem (key_bin U) pubs order e); eauto.
        eapply list_elem_of_lookup_2; eauto.
      - rewrite !lookup_ge_None_2; [reflexivity| |].
        + rewrite exact_marked_length. apply lookup_ge_None_1, He.
        + rewrite Hlen. apply lookup_ge_None_1, He. }
    subst h'. f_equal. rewrite (count_deleted_live pubs Hlive) in Hcnt. lia.
Qed.

Lemma exact_marked_kept (pubs : list Entry) :
  Forall (fun e => Kind e <> Deleted) pubs ->
  filter (fun e => Kind e <> Deleted) (exact_marked U pubs) = exact_survivors U pubs.
Proof.
  induction 1 as [|e l He _ IH]; [reflexivity|].
  cbn [exact_marked exact_survivors]. rewrite filter_cons.
  destruct (existsb (exact_dup_of U e) l).
  - rewrite decide_False by (intros H; apply H; reflexivity). exact IH.
  - rewrite decide_True by exact He. rewrite IH. reflexivity.
Qed.

Lemma exact_survivors_sublist (pubs : list Entry) :
  sublist (exact_survivors U pubs) pubs.
Proof.
  induction pubs as [|e l IH]; [constructor|].
  cbn [exact_survivors]. destruct (existsb (exact_dup_of U e) l).
  - apply sublist_cons. exact IH.
  - apply sublist_skip. exact IH.
Qed.

Lemma Value_Equals_refl (v : Value) : Value_Equals v v = true.
Proof.
  unfold Value_Equals, string_eq. rewrite bool_decide_true by reflexivity.
  destruct (vT v); try (apply bool_decide_eq_true; reflexivity).
  apply Z.eqb_refl.
Qed.

Lemma IsSubset_same_fields (e1 e2 : Entry) :
  Kind e1 = Kind e2 ->
  ToLower U (EntryString e1) = ToLower U (EntryString e2) ->
  Fields e1 = Fields e2 ->
  IsSubset U e1 e2 = true.
Proof.
  intros HK HS HF. unfold IsSubset, string_eq.
  rewrite bool_decide_false by (intros H; exact (H HK)).
  rewrite bool_decide_true by exact HS. cbn [negb orb].
  apply bool_decide_eq_true. intros tag v Hv.
  unfold field_in. rewrite <- HF, Hv. apply Value_Equals_refl.
Qed.

Lemma exact_survivors_pair (e1 e2 : Entry) :
  Kind e1 = Kind e2 ->
  ToLower U (EntryString e1) = ToLower U (EntryString e2) ->
  Key e1 = Key e2 ->
  Fields e1 = Fields e2 ->
  exact_survivors U [e1; e2] = [e2].
Proof.
  intros HK HS HKey HF. cbn [exact_survivors existsb].
  unfold exact_dup_of, Entry_Equals, string_eq.
  rewrite bool_decide_true by congruence.
  rewrite !IsSubset_same_fields by congruence. reflexivity.
Qed.

End ExactAll.

(** C1 (as amended): for every database none of whose entries is
    already [Deleted], and for every order in which Go visits the bins,
    [RemoveExactDups] bins the entries by lowercased [Key] and marks an
    entry [Deleted] exactly when an entry after it in its bin [Equals] it
    (of two equal entries the earlier one is marked); the compacted
    [Pubs] holds the unmarked entries in their original relative order;
    and of two entries with the same [Kind], [Key], fields and (up to
    case) [EntryString] exactly one, the later, survives. *)
Theorem C1_RemoveExactDups_survivors (U : UnicodeTables) (db : Database)
    (order : list gostring) :
  Forall (fun e => Kind e <> Deleted) (Pubs db) ->
  range_order (bins_by (fun e => Some (ToLower U (Key e))) (Pubs db)) order ->
  fst (exactDups_mark U order (Pubs db)) = exact_marked U (Pubs db)
  /\ RemoveExactDups U order db = Some (map Some (exact_survivors U (Pubs db)))
  /\ sublist (exact_survivors U (Pubs db)) (Pubs db)
  /\ (forall e1 e2,
        Pubs db = [e1; e2] ->
        Kind e1 = Kind e2 ->
        ToLower U (EntryString e1) = ToLower U (EntryString e2) ->
        Key e1 = Key e2 ->
        Fields e1 = Fields e2 ->
        exact_survivors U (Pubs db) = [e2]).
Proof.
  intros Hlive Hord.
  pose proof (exactDups_mark_spec U (Pubs db) order Hlive Hord) as Hmark.
  split; [rewrite Hmark; reflexivity|].
  split.
  { unfold RemoveExactDups. rewrite Hmark.
    rewrite removeDeleted_counted, exact_marked_kept by exact Hlive. reflexivity. }
  split; [apply exact_survivors_sublist|].
  intros e1 e2 -> HK HS HKey HF. apply exact_survivors_pair; assumption.
Qed.

Lemma C1_RemoveExactDups_survivors_witness :
  let e1 := mkEntry Article (str "article") (str "Knuth84")
              {[ str "title" := StringV (str "T") ]} [] 1 in
  let e2 := mkEntry Article (str "ARTICLE") (str "Knuth84")
              {[ str "title" := StringV (str "T") ]} [] 9 in
  let db := mkDatabase [e1; e2] ∅ [] [] in
  RemoveExactDups latin1_only [str "knuth84"] db = Some [Some e2].
Proof.
  intros e1 e2 db.
  assert (Hlive : Forall (fun e => Kind e <> Deleted) (Pubs db)).
  { repeat constructor; discriminate. }
  assert (Hord : range_order
                   (bins_by (fun e => Some (ToLower latin1_only (Key e))) (Pubs db))
                   [str "knuth84"]).
  { unfold range_order. vm_compute. reflexivity. }
  destruct (C1_RemoveExactDups_survivors latin1_only db [str "knuth84"] Hlive Hord)
    as (_ & Hrun & _ & Hpair).
  rewrite Hrun.
  rewrite (Hpair e1 e2 eq_refl eq_refl eq_refl eq_refl eq_refl). reflexivity.
Defined.

(** C1, as stated, fails: of two equal entries with the same key the
    later one is not the one marked. *)
Lemma C1_counterexample :
  ~ (forall (db : Database) (order : list gostring) (i j : nat) (ei ej : Entry),
        range_order (bins_by (fun e => Some (ToLower latin1_only (Key e))) (Pubs db))
                    order ->
        Pubs db !! i = Some ei -> Pubs db !! j = Some ej -> (i < j)%nat ->
        ToLower latin1_only (Key ei) = ToLower latin1_only (Key ej) ->
        Entry_Equals latin1_only ei ej = true ->
        Kind <$> (fst (exactDups_mark latin1_only order (Pubs db)) !! j)
        = Some Deleted).
Proof.
  intros H.
  set (e1 := mkEntry Article (str "article") (str "k")
               {[ str "title" := StringV (str "T") ]} [] 1).
  set (e2 := mkEntry Article (str "article") (str "k")
               {[ str "title" := StringV (str "T") ]} [] 2).
  specialize (H (mkDatabase [e1; e2] ∅ [] []) [str "k"] 0%nat 1%nat e1 e2).
  assert (Hord : range_order
                   (bins_by (fun e => Some (ToLower latin1_only (Key e))) [e1; e2])
                   [str "k"]).
  { unfold range_order. vm_compute. reflexivity. }
  specialize (H Hord eq_refl eq_refl ltac:(lia) eq_refl eq_refl).
  vm_compute in H. discriminate H.
Qed.

(** ** UTF-8: decoding and encoding *)

Lemma mod_sub (n m k : N) : m <> 0 -> k * m <= n < (k + 1) * m -> n mod m = n - k * m.
Proof.
  intros Hm H. symmetry. apply (N.mod_unique n m k); lia.
Qed.

Lemma decomp2 (x y : N) : y < 64 -> (x * 64 + y) / 64 = x /\ (x * 64 + y) mod 64 = y.
Proof. intros H. split.
  - symmetry. apply (N.div_unique _ 64 x y); lia.
  - symmetry. apply (N.mod_unique _ 64 x y); lia.
Qed.

Lemma decomp3 (x y z : N) : y < 64 -> z < 64 ->
  let r := x * 4096 + y * 64 + z in
  r / 4096 = x /\ (r / 64) mod 64 = y /\ r mod 64 = z.
Proof.
  intros Hy Hz r. subst r.
  split; [symmetry; apply (N.div_unique _ 4096 x (y * 64 + z)); lia|].
  replace (x * 4096 + y * 64 + z) with ((x * 64 + y) * 64 + z) by lia.
  destruct (decomp2 (x * 64 + y) z Hz) as [-> ->].
  split; [apply decomp2; exact Hy|reflexivity].
Qed.

Lemma decomp4 (w x y z : N) : x < 64 -> y < 64 -> z < 64 ->
  let r := w * 262144 + x * 4096 + y * 64 + z in
  r / 262144 = w /\ (r / 4096) mod 64 = x /\ (r / 64) mod 64 = y /\ r mod 64 = z.
Proof.
  intros Hx Hy Hz r. subst r.
  split; [symmetry; apply (N.div_unique _ 262144 w (x * 4096 + y * 64 + z)); lia|].
  replace (w * 262144 + x * 4096 + y * 64 + z) with ((w * 64 + x) * 4096 + y * 64 + z) by lia.
  destruct (decomp3 (w * 64 + x) y z Hy Hz) as (-> & -> & ->).
  split; [apply decomp2; exact Hx|]. split; reflexivity.
Qed.

Lemma bval_lt (b : byte) : bval b < 256.
Proof. apply N_ascii_bounded. Qed.

Lemma byte_of_bval (b : byte) : byte_of (bval b) = b.
Proof. apply ascii_N_embedding. Qed.

Lemma byte_of_eq (n : N) (b : byte) : n = bval b -> byte_of n = b.
Proof. intros ->. apply byte_of_bval. Qed.

Ltac bool_to_prop :=
  repeat match goal with
    | H : (_ && _) = true |- _ => apply andb_prop in H as [? ?]
    | H : (_ || _) = false |- _ => apply orb_false_elim in H as [? ?]
    | H : (_ <? _) = true |- _ => apply N.ltb_lt in H
    | H : (_ <? _) = false |- _ => apply N.ltb_ge in H
    | H : (_ <=? _) = true |- _ => apply N.leb_le in H
    | H : (_ <=? _) = false |- _ => apply N.leb_gt in H
    | H : (_ =? _) = true |- _ => apply N.eqb_eq in H
    | H : (_ =? _) = false |- _ => apply N.eqb_neq in H
    end.

Lemma cont_mod (b : byte) : cont b = true -> bval b mod 64 = bval b - 128 /\ 128 <= bval b < 192.
Proof.
  unfold cont, inrange. intros H. bool_to_prop.
  split; [apply (mod_sub _ 64 2); lia|lia].
Qed.

Lemma inrange_cont (lo hi : N) (b : byte) :
  128 <= lo -> hi <= 191 -> inrange lo hi (bval b) = true ->
  bval b mod 64 = bval b - 128 /\ lo <= bval b <= hi.
Proof.
  unfold inrange. intros Hlo Hhi H. bool_to_prop.
  split; [apply (mod_sub _ 64 2); lia|lia].
Qed.

(** The four shapes of [EncodeRune]. *)
Lemma Encode1 (r : rune) : r < 128 -> EncodeRune r = [byte_of r].
Proof. intros H. unfold EncodeRune. destruct (N.ltb_spec r 128); [reflexivity|lia]. Qed.

Lemma Encode2 (r : rune) : 128 <= r < 2048 ->
  EncodeRune r = [byte_of (192 + r / 64); byte_of (128 + r mod 64)].
Proof.
  intros H. unfold EncodeRune.
  destruct (N.ltb_spec r 128); [lia|]. destruct (N.ltb_spec r 2048); [reflexivity|lia].
Qed.

Lemma Encode3 (r : rune) : 2048 <= r < 65536 -> ~ (55296 <= r <= 57343) ->
  EncodeRune r = [byte_of (224 + r / 4096); byte_of (128 + (r / 64) mod 64);
                  byte_of (128 + r mod 64)].
Proof.
  intros H Hs. unfold EncodeRune, MaxRune, inrange.
  destruct (N.ltb_spec r 128); [lia|]. destruct (N.ltb_spec r 2048); [lia|].
  destruct (N.ltb_spec 1114111 r); [lia|].
  destruct (N.leb_spec 55296 r); destruct (N.leb_spec r 57343); try lia;
    cbn [andb orb]; (destruct (N.ltb_spec r 65536); [reflexivity|lia]).
Qed.

Lemma Encode4 (r : rune) : 65536 <= r <= 1114111 ->
  EncodeRune r = [byte_of (240 + r / 262144); byte_of (128 + (r / 4096) mod 64);
                  byte_of (128 + (r / 64) mod 64); byte_of (128 + r mod 64)].
Proof.
  intros H. unfold EncodeRune, MaxRune, inrange.
  destruct (N.ltb_spec r 128); [lia|]. destruct (N.ltb_spec r 2048); [lia|].
  destruct (N.ltb_spec 1114111 r); [lia|].
  destruct (N.leb_spec 55296 r); destruct (N.leb_spec r 57343); try lia;
    cbn [andb orb]; (destruct (N.ltb_spec r 65536); [lia|reflexivity]).
Qed.

(** A rune that decodes without error is the encoding of its own bytes. *)
Lemma Decode_Encode (s : gostring) (r : rune) (k : nat) :
  DecodeRuneInString s = (r, k) ->
  (r = RuneError -> k <> 1%nat) -> k <> 0%nat ->
  EncodeRune r = take k s.
Proof.
  destruct s as [|b0 t]; [intros [= <- <-]; congruence|].
  unfold DecodeRuneInString.
  pose proof (bval_lt b0) as B0.
  intros H Hok _.
  assert (Hbad : (RuneError, 1%nat) = (r, k) -> EncodeRune r = take k (b0 :: t)).
  { intros [= <- <-]. exfalso. apply Hok; reflexivity. }
  destruct (N.ltb_spec (bval b0) 128) as [L0|L0].
  { injection H as <- <-. rewrite Encode1 by lia. simpl.
    rewrite byte_of_bval. reflexivity. }
  destruct (N.ltb_spec (bval b0) 194) as [L1|L1]; [auto|].
  destruct (N.ltb_spec 244 (bval b0)) as [L2|L2]; [auto|].
  cbn [orb] in H.
  destruct (N.ltb_spec (bval b0) 224) as [L3|L3].
  { destruct t as [|b1 t]; [auto|].
    destruct (cont b1) eqn:E3; [|auto].
    injection H as <- <-.
    apply cont_mod in E3 as [-> Hb1].
    rewrite (mod_sub (bval b0) 32 6) by lia.
    destruct (decomp2 (bval b0 - 6 * 32) (bval b1 - 128) ltac:(lia)) as [Hd Hm].
    rewrite Encode2 by lia. rewrite Hd, Hm. simpl.
    f_equal; [|f_equal]; apply byte_of_eq; lia. }
  destruct (N.ltb_spec (bval b0) 240) as [L4|L4].
  { destruct t as [|b1 [|b2 t]]; try solve [auto].
    match type of H with
    | (if ?c then _ else _) = _ => destruct c eqn:E4
    end; [|auto].
    injection H as <- <-. apply andb_prop in E4 as [Hr1 Hc2].
    apply cont_mod in Hc2 as [-> Hb2].
    apply inrange_cont in Hr1 as [-> Hb1];
      [|destruct (bval b0 =? 224); lia|destruct (bval b0 =? 237); lia].
    rewrite (mod_sub (bval b0) 16 14) by lia.
    assert (Hb1' : 128 <= bval b1 <= 191).
    { destruct (bval b0 =? 224); destruct (bval b0 =? 237); lia. }
    destruct (decomp3 (bval b0 - 14 * 16) (bval b1 - 128) (bval b2 - 128)
                ltac:(lia) ltac:(lia)) as (Hd1 & Hd2 & Hd3).
    rewrite Encode3
      by (destruct (N.eqb_spec (bval b0) 224); destruct (N.eqb_spec (bval b0) 237); lia). rewrite Hd1, Hd2, Hd3. simpl.
    f_equal; [|f_equal; [|f_equal]]; apply byte_of_eq; lia. }
  destruct t as [|b1 [|b2 [|b3 t]]]; try solve [auto].
  match type of H with
  | (if ?c then _ else _) = _ => destruct c eqn:E4
  end; [|auto].
  injection H as <- <-. apply andb_prop in E4 as [E4 Hc3].
  apply andb_prop in E4 as [Hr1 Hc2].
  apply cont_mod in Hc3 as [-> Hb3]. apply cont_mod in Hc2 as [-> Hb2].
  apply inrange_cont in Hr1 as [-> Hb1];
    [|destruct (bval b0 =? 240); lia|destruct (bval b0 =? 244); lia].
  rewrite (mod_sub (bval b0) 8 30) by lia.
  assert (Hb1' : 128 <= bval b1 <= 191).
  { destruct (bval b0 =? 240); destruct (bval b0 =? 244); lia. }
  destruct (decomp4 (bval b0 - 30 * 8) (bval b1 - 128) (bval b2 - 128) (bval b3 - 128)
              ltac:(lia) ltac:(lia) ltac:(lia)) as (Hd1 & Hd2 & Hd3 & Hd4).
  rewrite Encode4
    by (destruct (N.eqb_spec (bval b0) 240); destruct (N.eqb_spec (bval b0) 244); lia). rewrite Hd1, Hd2, Hd3, Hd4. simpl.
  f_equal; [|f_equal; [|f_equal; [|f_equal]]]; apply byte_of_eq; lia.
Qed.

Lemma bval_byte_of (n : N) : n < 256 -> bval (byte_of n) = n.
Proof. apply N_ascii_embedding. Qed.

Lemma bval_inj (a b : byte) : bval a = bval b -> a = b.
Proof. intros H. rewrite <- (byte_of_bval a), <- (byte_of_bval b), H. reflexivity. Qed.

Lemma bval_lbrace (b : byte) : bval b = 123 <-> b = lbrace.
Proof. split; [intros H; apply bval_inj; exact H|intros ->; reflexivity]. Qed.

Lemma bval_rbrace (b : byte) : bval b = 125 <-> b = rbrace.
Proof. split; [intros H; apply bval_inj; exact H|intros ->; reflexivity]. Qed.

Ltac forall_bytes :=
  repeat (apply Forall_cons_2; [cbv beta; rewrite bval_byte_of by lia; lia|]);
  apply Forall_nil_2.

Lemma Encode_high (r : rune) :
  128 <= r -> Forall (fun c => 128 <= bval c) (EncodeRune r).
Proof.
  intros H. unfold EncodeRune, MaxRune, inrange.
  destruct (N.ltb_spec r 128); [lia|].
  pose proof (N.mod_lt r 64 ltac:(lia)).
  pose proof (N.mod_lt (r / 64) 64 ltac:(lia)).
  pose proof (N.mod_lt (r / 4096) 64 ltac:(lia)).
  destruct (N.ltb_spec r 2048).
  { assert (r / 64 < 32) by (apply N.Div0.div_lt_upper_bound; lia).
    set (q := r / 64) in *. set (m := r mod 64) in *. clearbody q m.
    forall_bytes. }
  destruct ((1114111 <? r) || ((55296 <=? r) && (r <=? 57343))) eqn:E.
  { repeat (apply Forall_cons_2; [vm_compute; discriminate|]). apply Forall_nil_2. }
  apply orb_false_elim in E as [E _]. apply N.ltb_ge in E.
  destruct (N.ltb_spec r 65536).
  { assert (r / 4096 < 16) by (apply N.Div0.div_lt_upper_bound; lia).
    set (q := r / 4096) in *. set (m1 := (r / 64) mod 64) in *.
    set (m := r mod 64) in *. clearbody q m1 m.
    forall_bytes. }
  assert (r / 262144 < 16) by (apply N.Div0.div_lt_upper_bound; lia).
  set (q := r / 262144) in *. set (m2 := (r / 4096) mod 64) in *.
  set (m1 := (r / 64) mod 64) in *. set (m := r mod 64) in *. clearbody q m2 m1 m.
  forall_bytes.
Qed.

(** What the decoder returns on a byte below [0x80] and on a byte from
    [0x80] on. *)
Lemma Decode_high (b : byte) (t : gostring) (r : rune) (k : nat) :
  128 <= bval b ->
  DecodeRuneInString (b :: t) = (r, k) ->
  128 <= r /\ Forall (fun c => 128 <= bval c) (take k (b :: t)).
Proof.
  intros Hb H.
  destruct (decide (r = RuneError /\ k = 1%nat)) as [[-> ->]|Hok].
  - split; [vm_compute; discriminate|]. simpl.
    apply Forall_cons_2; [exact Hb|apply Forall_nil_2].
  - pose proof (Decode_width (b :: t) ltac:(congruence)) as Hw.
    rewrite H in Hw. cbn [snd] in Hw.
    assert (He : EncodeRune r = take k (b :: t)).
    { apply Decode_Encode; [exact H| |lia]. intros -> ->. apply Hok. auto. }
    assert (Hr : 128 <= r).
    { destruct (N.ltb_spec r 128) as [Hlt|]; [|assumption].
      rewrite Encode1 in He by exact Hlt.
      destruct k as [|k]; [lia|]. simpl in He. injection He as He _.
      apply (f_equal bval) in He. rewrite bval_byte_of in He by lia. lia. }
    split; [exact Hr|]. rewrite <- He. apply Encode_high, Hr.
Qed.

Lemma high_nonbrace (c : byte) : 128 <= bval c -> nonbrace c.
Proof.
  intros H. split; intros ->; vm_compute in H; apply H; reflexivity.
Qed.

(** [utf8.ValidString] along the string. *)
Lemma valid_from_skip (k : nat) (s : gostring) :
  (k <= length s)%nat -> valid_from k s = valid_from 0 (drop k s).
Proof.
  revert s. induction k as [|k IH]; intros s Hk; [reflexivity|].
  destruct s as [|b t]; [simpl in Hk; lia|].
  simpl in Hk. cbn [valid_from drop]. apply IH. lia.
Qed.

Lemma ValidString_step (s : gostring) (r : rune) (k : nat) :
  s <> [] -> ValidString s = true -> DecodeRuneInString s = (r, k) ->
  (r = RuneError -> k <> 1%nat) /\ ValidString (drop k s) = true.
Proof.
  intros Hs Hv Hd. pose proof (Decode_width s Hs) as Hw.
  rewrite Hd in Hw. cbn [snd] in Hw.
  destruct s as [|b t]; [congruence|].
  unfold ValidString in *. cbn [valid_from] in Hv. rewrite Hd in Hv.
  apply andb_prop in Hv as [Hok Hrest]. split.
  - intros -> ->. discriminate Hok.
  - destruct k as [|k]; [lia|]. cbn [drop Nat.pred] in *.
    rewrite <- valid_from_skip by (simpl in Hw; lia). exact Hrest.
Qed.

(** ** Well-nested strings *)

Lemma wellnested_drop_prefix (ae : bool) (pre s : gostring) :
  Forall nonbrace pre -> wellnested ae (pre ++ s) -> wellnested ae s.
Proof.
  induction pre as [|c pre IH]; intros Hpre H; [exact H|].
  apply Forall_cons in Hpre as [Hc Hpre].
  inversion H as [|b s' Hb Hs'|body s' _ _ _ Heq]; subst.
  - apply IH; assumption.
  - exfalso. apply (proj1 Hc). reflexivity.
Qed.

Lemma wellnested_not_rbrace (ae : bool) (s : gostring) :
  wellnested ae (rbrace :: s) -> False.
Proof.
  intros H. inversion H as [|b s' Hb Hs'|body s' _ _ _ Heq]; subst.
  - apply (proj2 Hb). reflexivity.
Qed.

Lemma wellnested_group_inv (ae : bool) (s : gostring) :
  wellnested ae (lbrace :: s) ->
  exists body s', s = body ++ rbrace :: s'
                  /\ (ae = false -> body <> [])
                  /\ wellnested ae body /\ wellnested ae s'.
Proof.
  intros H. inversion H as [|b s' Hb Hs'|body s' Hne Hbody Hs']; subst.
  - exfalso. apply (proj1 Hb). reflexivity.
  - eauto 6.
Qed.

(** A prefix without braces lies before the closing brace. *)
Lemma nonbrace_prefix_split (body tail : gostring) (k : nat) :
  Forall nonbrace (take k (body ++ rbrace :: tail)) ->
  (k <= length (body ++ rbrace :: tail))%nat ->
  body = take k body ++ drop k body
  /\ take k (body ++ rbrace :: tail) = take k body
  /\ drop k (body ++ rbrace :: tail) = drop k body ++ rbrace :: tail
  /\ (k <= length body)%nat.
Proof.
  intros Hpre Hk.
  assert (Hle : (k <= length body)%nat).
  { destruct (le_lt_dec k (length body)) as [|Hgt]; [assumption|].
    exfalso.
    assert (Hl : take k (body ++ rbrace :: tail) !! length body = Some rbrace).
    { rewrite lookup_take_lt by lia. rewrite list_lookup_middle; reflexivity. }
    apply (proj1 (Forall_lookup _ _) Hpre) in Hl. apply (proj2 Hl). reflexivity. }
  split; [symmetry; apply take_drop|].
  split; [apply take_app_le; exact Hle|].
  split; [apply drop_app_le; exact Hle|exact Hle].
Qed.

(** ** The brace tree: parsing a balanced string *)

Lemma Join_nil_sep (words : list gostring) : Join words [] = concat words.
Proof.
  destruct words as [|w ws]; [reflexivity|]. simpl. f_equal.
  induction ws as [|x ws IH]; [reflexivity|]. simpl. rewrite IH. reflexivity.
Qed.

Lemma flat_children_app (a b : list BraceNode) :
  flat_children (a ++ b) = flat_children a ++ flat_children b.
Proof. unfold flat_children. rewrite map_app, concat_app. reflexivity. Qed.

Lemma flat_saveAccum (children : list BraceNode) (accum : gostring) :
  flat_children (saveAccum children accum) = flat_children children ++ accum.
Proof.
  unfold saveAccum. destruct accum as [|c accum].
  - simpl. rewrite app_nil_r. reflexivity.
  - cbn [length Nat.ltb Nat.leb]. rewrite flat_children_app.
    unfold flat_children at 2. simpl. rewrite app_nil_r. reflexivity.
Qed.

(** A group that holds text flattens to that text in braces. *)
Lemma flatten_group (cs : list BraceNode) :
  flat_children cs <> [] ->
  flatten false true (mkBraceNode (Some cs) [])
  = lbrace :: flat_children cs ++ [rbrace].
Proof.
  intros H. destruct cs as [|c cs]; [exfalso; apply H; reflexivity|].
  cbn [flatten]. rewrite Join_nil_sep. reflexivity.
Qed.

Lemma flatten_root (cs : list BraceNode) :
  flatten true true (mkBraceNode (Some cs) []) = flat_children cs.
Proof.
  destruct cs as [|c cs]; [reflexivity|].
  cbn [flatten]. rewrite Join_nil_sep. reflexivity.
Qed.

(** How the decoder sees the first byte of a string. *)
Lemma Decode_first (b : byte) (t : gostring) (r : rune) (k : nat) :
  DecodeRuneInString (b :: t) = (r, k) ->
  (b = lbrace /\ r = r_lbrace /\ k = 1%nat)
  \/ (b = rbrace /\ r = r_rbrace /\ k = 1%nat)
  \/ (r <> r_lbrace /\ r <> r_rbrace /\ (1 <= k <= length (b :: t))%nat
      /\ Forall nonbrace (take k (b :: t))).
Proof.
  intros H. pose proof (Decode_width (b :: t) ltac:(congruence)) as Hw.
  rewrite H in Hw. cbn [snd] in Hw.
  destruct (N.ltb_spec (bval b) 128) as [Hlo|Hhi].
  - rewrite Decode_ascii in H by exact Hlo. injection H as <- <-.
    destruct (decide (b = lbrace)) as [->|Hl]; [left; auto|].
    destruct (decide (b = rbrace)) as [->|Hr]; [right; left; auto|].
    right. right. unfold r_lbrace, r_rbrace.
    rewrite <- bval_lbrace in Hl. rewrite <- bval_rbrace in Hr.
    split; [exact Hl|]. split; [exact Hr|]. split; [simpl; lia|].
    simpl. apply Forall_cons_2; [|apply Forall_nil_2].
    split; [rewrite <- bval_lbrace|rewrite <- bval_rbrace]; assumption.
  - destruct (Decode_high b t r k Hhi H) as [Hr Hall].
    right. right. unfold r_lbrace, r_rbrace.
    split; [lia|]. split; [lia|]. split; [exact Hw|].
    eapply Forall_impl; [exact Hall|]. intros c Hc. apply high_nonbrace, Hc.
Qed.

Lemma drop_group (body x : gostring) :
  drop (1 + (length body + 1)) (lbrace :: body ++ rbrace :: x) = x.
Proof.
  cbn [Nat.add drop]. rewrite drop_app_ge by lia.
  replace (length body + 1 - length body)%nat with 1%nat by lia. reflexivity.
Qed.

Section ParseRun.
Context (ae : bool).

(** The loop on [rest], from any state: (A) up to the closing brace of
    the group it is in, (B) to the end of a balanced string.  The text of
    the children it returns is the text held so far followed by what it
    read, when no group is empty and the string is valid UTF-8. *)
Lemma ParseBraceTree_loop_run (fuel : nat) :
  forall (rest : gostring) (i : nat) (children : list BraceNode) (accum : gostring),
    (length rest < fuel)%nat ->
    (forall body tail,
        rest = body ++ rbrace :: tail -> wellnested ae body ->
        exists cs,
          ParseBraceTree_loop fuel rest i children accum
          = Some (mkBraceNode (Some cs) [], (i + length body + 1)%nat)
          /\ (ae = false -> ValidString rest = true ->
              flat_children cs = flat_children children ++ accum ++ body
              /\ ValidString tail = true))
    /\ (wellnested ae rest ->
        exists cs,
          ParseBraceTree_loop fuel rest i children accum
          = Some (mkBraceNode (Some cs) [], (i + length rest)%nat)
          /\ (ae = false -> ValidString rest = true ->
              flat_children cs = flat_children children ++ accum ++ rest)).
Proof.
  induction fuel as [|f IH]; intros rest i children accum Hfuel; [lia|].
  destruct rest as [|b rest'].
  { split.
    - intros body tail H. destruct body; discriminate H.
    - intros _. eexists. split; [simpl; rewrite Nat.add_0_r; reflexivity|].
      intros _ _. rewrite flat_saveAccum, app_nil_r. reflexivity. }
  cbn [ParseBraceTree_loop].
  destruct (DecodeRuneInString (b :: rest')) as [r k] eqn:Hdec.
  simpl in Hfuel.
  destruct (Decode_first b rest' r k Hdec)
    as [(-> & -> & ->)|[(-> & -> & ->)|(Hnl & Hnr & Hk & Hpre)]].
  - (* an opening brace: the group, then the rest *)
    cbn [N.eqb Pos.eqb r_lbrace]. change (drop 1 (lbrace :: rest')) with rest'.
    assert (Hvalid : ValidString (lbrace :: rest') = true -> ValidString rest' = true).
    { intros Hv.
      exact (proj2 (ValidString_step (lbrace :: rest') _ _ ltac:(discriminate) Hv Hdec)). }
    split.
    + intros body tail Heq Hbody.
      destruct body as [|c body0]; [discriminate Heq|].
      injection Heq as <- ->.
      apply wellnested_group_inv in Hbody
          as (body1 & s1 & -> & Hne & Hbody1 & Hs1).
      rewrite <- app_assoc in *. cbn [app] in *.
      destruct (proj1 (IH (body1 ++ rbrace :: s1 ++ rbrace :: tail) 0%nat [] []
                          ltac:(lia)) body1 (s1 ++ rbrace :: tail) eq_refl Hbody1)
        as (cs1 & -> & Hflat1).
      change (0 + length body1 + 1)%nat with (length body1 + 1)%nat.
      rewrite drop_group.
      destruct (proj1 (IH (s1 ++ rbrace :: tail) (i + (1 + (length body1 + 1)))%nat
                          (saveAccum children accum ++ [mkBraceNode (Some cs1) []]) []
                          ltac:((rewrite !length_app in *; simpl in *;
                                 rewrite ?length_app in *; simpl in *; lia)))
                    s1 tail eq_refl Hs1) as (cs & -> & Hflat).
      exists cs. split.
      * f_equal. f_equal. simpl. rewrite !length_app. simpl. lia.
      * intros Hae Hv. specialize (Hvalid Hv).
        destruct (Hflat1 Hae Hvalid) as [Hf1 Hv1].
        destruct (Hflat Hae Hv1) as [Hf Hvt]. split; [|exact Hvt].
        rewrite Hf, flat_children_app, flat_saveAccum.
        unfold flat_children at 2. cbn [map concat].
        rewrite flatten_group by (rewrite Hf1; simpl; apply (Hne Hae)).
        rewrite Hf1. simpl. rewrite !app_nil_r, <- !app_assoc. simpl.
        rewrite <- !app_assoc. reflexivity.
    + intros Hwn.
      apply wellnested_group_inv in Hwn as (body1 & s1 & -> & Hne & Hbody1 & Hs1).
      destruct (proj1 (IH (body1 ++ rbrace :: s1) 0%nat [] [] ltac:(lia))
                    body1 s1 eq_refl Hbody1) as (cs1 & -> & Hflat1).
      change (0 + length body1 + 1)%nat with (length body1 + 1)%nat.
      rewrite drop_group.
      destruct (proj2 (IH s1 (i + (1 + (length body1 + 1)))%nat
                          (saveAccum children accum ++ [mkBraceNode (Some cs1) []]) []
                          ltac:((rewrite !length_app in *; simpl in *; lia))) Hs1)
        as (cs & -> & Hflat).
      exists cs. split.
      * f_equal. f_equal. simpl. rewrite !length_app. simpl. lia.
      * intros Hae Hv. specialize (Hvalid Hv).
        destruct (Hflat1 Hae Hvalid) as [Hf1 Hv1].
        rewrite (Hflat Hae Hv1), flat_children_app, flat_saveAccum.
        unfold flat_children at 2. cbn [map concat].
        rewrite flatten_group by (rewrite Hf1; simpl; apply (Hne Hae)).
        rewrite Hf1. simpl. rewrite !app_nil_r, <- !app_assoc. simpl.
        rewrite <- !app_assoc. reflexivity.
  - (* a closing brace: the group ends here *)
    cbn [N.eqb Pos.eqb r_lbrace r_rbrace]. split.
    + intros body tail Heq Hbody. destruct body as [|c body0].
      * injection Heq as <-. eexists. split; [simpl; rewrite Nat.add_0_r; reflexivity|].
        intros _ Hv. rewrite flat_saveAccum, app_nil_r. split; [reflexivity|].
        exact (proj2 (ValidString_step (rbrace :: rest') _ _ ltac:(discriminate) Hv Hdec)).
      * injection Heq as <- _. exfalso. exact (wellnested_not_rbrace _ _ Hbody).
    + intros Hwn. exfalso. exact (wellnested_not_rbrace _ _ Hwn).
  - (* any other rune: it joins the text being accumulated *)
    destruct (N.eqb_spec r r_lbrace) as [|_]; [contradiction|].
    destruct (N.eqb_spec r r_rbrace) as [|_]; [contradiction|].
    set (rest := b :: rest') in *.
    assert (Hlen : (length (drop k rest) < f)%nat).
    { rewrite length_drop. simpl in *. lia. }
    assert (Hvalid : ValidString rest = true ->
                     EncodeRune r = take k rest /\ ValidString (drop k rest) = true).
    { intros Hv.
      destruct (ValidString_step rest r k ltac:(discriminate) Hv Hdec) as [Hok Hv'].
      split; [|exact Hv']. apply Decode_Encode; [exact Hdec|exact Hok|lia]. }
    split.
    + intros body tail Heq Hbody. rewrite Heq in Hpre, Hk.
      destruct (nonbrace_prefix_split body tail k Hpre (proj2 Hk))
        as (Hb & Htake & Hdrop & Hle).
      rewrite Hb in Hbody. apply wellnested_drop_prefix in Hbody;
        [|rewrite <- Htake; exact Hpre].
      destruct (proj1 (IH (drop k rest) (i + k)%nat children (accum ++ EncodeRune r) Hlen)
                    (drop k body) tail ltac:((rewrite Heq; exact Hdrop)) Hbody)
        as (cs & -> & Hflat).
      exists cs. split.
      * replace (i + length body + 1)%nat with (i + k + length (drop k body) + 1)%nat
          by (rewrite length_drop; lia).
        reflexivity.
      * intros Hae Hv. destruct (Hvalid Hv) as [Henc Hv'].
        destruct (Hflat Hae Hv') as [Hf Hvt]. split; [|exact Hvt].
        rewrite Hf, Henc, Heq, Htake, <- !app_assoc. f_equal. f_equal.
        apply take_drop.
    + intros Hwn.
      assert (Hwn' : wellnested ae (drop k rest)).
      { apply (wellnested_drop_prefix ae (take k rest)); [exact Hpre|].
        rewrite take_drop. exact Hwn. }
      destruct (proj2 (IH (drop k rest) (i + k)%nat children (accum ++ EncodeRune r) Hlen)
                    Hwn') as (cs & -> & Hflat).
      exists cs. split.
      * replace (i + length rest)%nat with (i + k + length (drop k rest))%nat
          by (rewrite length_drop; lia).
        reflexivity.
      * intros Hae Hv. destruct (Hvalid Hv) as [Henc Hv'].
        rewrite (Hflat Hae Hv'), Henc, <- !app_assoc. f_equal. f_equal.
        apply take_drop.
Qed.

End ParseRun.

(** On a string with balanced braces of which no group is empty and
    that is valid UTF-8, [Flatten] of the tree is the string trimmed of
    white space. *)
Lemma Flatten_nonempty_groups (s : gostring) :
  balanced_nonempty_groups s -> ValidString s = true ->
  exists t, ParseBraceTree s = Some (t, length s) /\ Flatten t = TrimSpace s.
Proof.
  intros Hb Hv.
  destruct (proj2 (ParseBraceTree_loop_run false (S (length s)) s 0%nat [] []
                     ltac:(lia)) Hb) as (cs & H & Hflat).
  eexists. split; [exact H|].
  unfold Flatten. rewrite flatten_root, (Hflat eq_refl Hv). reflexivity.
Qed.

(** C4 (the code at the failing input): [ParseBraceTree] consumes the
    whole of every string with balanced braces, but [Flatten] does not
    give every such string back.  The group of the string [{}] has no
    children, so [IsLeaf] takes it for a leaf with empty text: [Flatten]
    prints nothing for it, and [IsEntireStringBraced] sees no group.
    Inside a longer string the empty group is dropped in the same way,
    and [RemoveWholeFieldBraces], which the clean command runs on every
    field, rewrites such a field without its empty group. *)
Theorem C4_empty_group_dropped :
  (forall s, balanced s -> exists t, ParseBraceTree s = Some (t, length s))
  /\ balanced (str "{}")
  /\ match ParseBraceTree (str "{}") with
     | Some (bn, size) =>
         size = length (str "{}")
         /\ Flatten bn = []
         /\ TrimSpace (str "{}") = str "{}"
         /\ IsEntireStringBraced bn = false
     | None => False
     end
  /\ balanced (str "See \LaTeX{} manual")
  /\ match ParseBraceTree (str "See \LaTeX{} manual") with
     | Some (bn, size) =>
         size = length (str "See \LaTeX{} manual")
         /\ Flatten bn = str "See \LaTeX manual"
     | None => False
     end
  /\ RemoveWholeFieldBraces_field (str "title") (StringV (str "See \LaTeX{} manual"))
     = Some (StringV (str "See \LaTeX manual")).
Proof.
  split.
  { intros s Hb.
    destruct (proj2 (ParseBraceTree_loop_run true (S (length s)) s 0%nat [] []
                       ltac:(lia)) Hb) as (cs & H & _).
    eexists. exact H. }
  split.
  { apply (wn_group true [] []); [discriminate|apply wn_nil|apply wn_nil]. }
  split; [vm_compute; repeat split; reflexivity|].
  split.
  { do 10 (apply wn_byte; [split; discriminate|]).
    apply (wn_group true [] (str " manual")); [discriminate|apply wn_nil|].
    do 7 (apply wn_byte; [split; discriminate|]). apply wn_nil. }
  split; [vm_compute; repeat split; reflexivity|].
  vm_compute. reflexivity.
Qed.

(** Valid UTF-8 is needed as well: the single byte [0xFF] is balanced
    and has no group, and [Flatten] gives the three bytes of U+FFFD. *)
Lemma Flatten_invalid_byte :
  balanced_nonempty_groups [byte_of 255]
  /\ ValidString [byte_of 255] = false
  /\ exists t, ParseBraceTree [byte_of 255] = Some (t, 1%nat)
              /\ Flatten t = [byte_of 239; byte_of 191; byte_of 189]
              /\ TrimSpace [byte_of 255] = [byte_of 255].
Proof.
  split; [apply wn_byte; [split; discriminate|apply wn_nil]|].
  split; [reflexivity|].
  eexists. split; [vm_compute; reflexivity|]. split; reflexivity.
Qed.

(** ** Plain names *)

(** ** ASCII strings *)

Lemma range_from_ascii (s : gostring) :
  forallb is_ascii s = true ->
  forall i, range_from 0 i s = imap (fun n b => ((i + n)%nat, bval b)) s.
Proof.
  induction s as [|b t IH]; intros H i; [reflexivity|].
  simpl in H. apply andb_prop in H as [Hb Ht].
  cbn [range_from imap]. rewrite Decode_ascii by (apply N.ltb_lt; exact Hb).
  cbn [Nat.pred]. rewrite (IH Ht). rewrite Nat.add_0_r. f_equal.
  apply imap_ext. intros n x _. simpl. f_equal. lia.
Qed.

Lemma imap_snd_bval (s : gostring) :
  forall f : nat -> nat, (imap (fun n b => (f n, bval b)) s).*2 = map bval s.
Proof.
  induction s as [|b t IH]; intros f; [reflexivity|].
  cbn [imap]. rewrite fmap_cons. cbn [snd map]. f_equal.
  apply (IH (f ∘ S)).
Qed.

Lemma runes_ascii (s : gostring) :
  forallb is_ascii s = true -> runes s = map bval s.
Proof.
  intros H. unfold runes, range_string. rewrite (range_from_ascii s H).
  apply (imap_snd_bval s (fun n => (0 + n)%nat)).
Qed.

Lemma Encode_ascii (b : byte) : is_ascii b = true -> EncodeRune (bval b) = [b].
Proof.
  intros H. unfold EncodeRune. unfold is_ascii in H. rewrite H.
  rewrite ascii_N_embedding. reflexivity.
Qed.

Lemma string_of_runes_ascii (s : gostring) :
  forallb is_ascii s = true -> concat (map EncodeRune (map bval s)) = s.
Proof.
  induction s as [|b t IH]; intros H; [reflexivity|].
  simpl in H. apply andb_prop in H as [Hb Ht].
  simpl. rewrite Encode_ascii by exact Hb. rewrite IH by exact Ht. reflexivity.
Qed.

Section Lower.
Context (U : UnicodeTables).

Lemma ToLower_ascii (s : gostring) :
  forallb is_ascii s = true -> ToLower U s = map lower_byte s.
Proof.
  intros H. unfold ToLower. rewrite runes_ascii by exact H.
  induction s as [|b t IH]; [reflexivity|].
  simpl in H. apply andb_prop in H as [Hb Ht].
  cbn [map concat]. rewrite IH by exact Ht. clear IH.
  change (lower_byte b :: map lower_byte t) with ([lower_byte b] ++ map lower_byte t).
  f_equal. unfold unicode_ToLower, lower_byte, MaxASCII.
  unfold is_ascii in Hb. apply N.ltb_lt in Hb.
  destruct (N.leb_spec (bval b) 127); [|lia].
  destruct (inrange 65 90 (bval b)) eqn:E.
  - unfold inrange in E. apply andb_prop in E as [E1 E2].
    apply N.leb_le in E1, E2. unfold EncodeRune.
    destruct (N.ltb_spec (bval b + 32) 128); [reflexivity|lia].
  - apply Encode_ascii. unfold is_ascii. apply N.ltb_lt. exact Hb.
Qed.

End Lower.

Lemma lower_byte_comma (b : byte) : lower_byte b = comma <-> b = comma.
Proof.
  unfold lower_byte. destruct (inrange 65 90 (bval b)) eqn:E; [|reflexivity].
  unfold inrange in E. apply andb_prop in E as [E1 E2]. apply N.leb_le in E1, E2.
  split.
  - intros H. apply (f_equal bval) in H.
    rewrite bval_byte_of in H by lia. change (bval comma) with 44 in H. lia.
  - intros ->. change (bval comma) with 44 in E1. lia.
Qed.

(** ** White space at the ends *)

Lemma TrimLeft_aux_ascii (s : gostring) :
  forallb is_ascii s = true ->
  forall fuel, (length s <= fuel)%nat -> TrimLeft_aux fuel s = drop_spaces s.
Proof.
  induction s as [|b t IH]; intros H fuel Hf.
  - destruct fuel; reflexivity.
  - simpl in H. apply andb_prop in H as [Hb Ht].
    destruct fuel as [|f]; [simpl in Hf; lia|].
    cbn [TrimLeft_aux drop_spaces].
    rewrite Decode_ascii by (apply N.ltb_lt; exact Hb).
    unfold is_space. destruct (IsSpace (bval b)); [|reflexivity].
    apply IH; [exact Ht|simpl in Hf; lia].
Qed.

Lemma TrimRight_aux_ascii (s : gostring) :
  forallb is_ascii s = true ->
  forall fuel, (length s <= fuel)%nat -> TrimRight_aux fuel s = drop_spaces s.
Proof.
  induction s as [|b t IH]; intros H fuel Hf.
  - destruct fuel; reflexivity.
  - simpl in H. apply andb_prop in H as [Hb Ht].
    destruct fuel as [|f]; [simpl in Hf; lia|].
    cbn [TrimRight_aux drop_spaces]. unfold DecodeLastRune.
    unfold is_ascii in Hb. rewrite Hb.
    unfold is_space. destruct (IsSpace (bval b)); [|reflexivity].
    apply IH; [exact Ht|simpl in Hf; lia].
Qed.

Lemma drop_spaces_suffix (s : gostring) :
  exists pre, s = pre ++ drop_spaces s /\ forallb is_space pre = true.
Proof.
  induction s as [|b t (pre & IH & Hp)]; [exists []; auto|].
  simpl. destruct (is_space b) eqn:E.
  - exists (b :: pre). simpl. rewrite E, Hp, <- IH. auto.
  - exists []. auto.
Qed.

Lemma drop_spaces_length (s : gostring) :
  (length (drop_spaces s) <= length s)%nat.
Proof.
  induction s as [|b t IH]; [reflexivity|].
  simpl. destruct (is_space b); simpl; lia.
Qed.

Lemma forallb_drop_spaces (p : byte -> bool) (s : gostring) :
  forallb p s = true -> forallb p (drop_spaces s) = true.
Proof.
  destruct (drop_spaces_suffix s) as (pre & Hs & _). intros H.
  rewrite Hs in H. rewrite forallb_app in H. apply andb_prop in H as [_ H]. exact H.
Qed.

Lemma forallb_rev {A} (p : A -> bool) (s : list A) :
  forallb p (rev s) = forallb p s.
Proof.
  induction s as [|b t IH]; [reflexivity|].
  simpl. rewrite forallb_app, IH. simpl. rewrite andb_true_r, andb_comm. reflexivity.
Qed.

Lemma forallb_trim (p : byte -> bool) (s : gostring) :
  forallb p s = true -> forallb p (trim s) = true.
Proof.
  intros H. unfold trim. rewrite forallb_rev. apply forallb_drop_spaces.
  rewrite forallb_rev. apply forallb_drop_spaces, H.
Qed.

Lemma TrimSpace_ascii (s : gostring) :
  forallb is_ascii s = true -> TrimSpace s = trim s.
Proof.
  intros H. unfold TrimSpace, TrimRight, TrimLeft, trim.
  rewrite TrimLeft_aux_ascii by (auto; lia).
  rewrite TrimRight_aux_ascii; [reflexivity| |rewrite length_rev; lia].
  rewrite forallb_rev. apply forallb_drop_spaces, H.
Qed.

Lemma drop_spaces_idem (s : gostring) : drop_spaces (drop_spaces s) = drop_spaces s.
Proof.
  induction s as [|b t IH]; [reflexivity|].
  simpl. destruct (is_space b) eqn:E; [exact IH|]. simpl. rewrite E. reflexivity.
Qed.

Lemma trim_trimmed (s : gostring) : trimmed s -> trim s = s.
Proof.
  intros [H1 H2]. unfold trim. rewrite H1, H2. apply rev_involutive.
Qed.

Lemma trimmed_trim (s : gostring) : trimmed (trim s).
Proof.
  unfold trimmed, trim. set (x := drop_spaces s).
  assert (Hx : drop_spaces x = x) by apply drop_spaces_idem.
  destruct (drop_spaces_suffix (rev x)) as (pre & Hr & _).
  set (y := drop_spaces (rev x)) in *.
  rewrite rev_involutive. split; [|apply drop_spaces_idem].
  destruct y as [|c y'] eqn:Ey; [reflexivity|].
  assert (Hxe : x = rev (c :: y') ++ rev pre).
  { rewrite <- rev_app_distr, <- Hr, rev_involutive. reflexivity. }
  destruct (rev (c :: y')) as [|d z] eqn:Ez.
  { apply (f_equal length) in Ez. rewrite length_rev in Ez. discriminate Ez. }
  rewrite Hxe in Hx. simpl in Hx. simpl.
  destruct (is_space d) eqn:Ed; [|reflexivity].
  exfalso. pose proof (drop_spaces_length (z ++ rev pre)) as Hl.
  apply (f_equal length) in Hx. simpl in Hx. lia.
Qed.

Lemma plain_byte_spec (b : byte) :
  plain_byte b = true ->
  is_ascii b = true /\ bval b <> 123 /\ bval b <> 125 /\ bval b <> 34.
Proof.
  unfold plain_byte. intros H.
  apply andb_prop in H as [H H3]. apply andb_prop in H as [H H2].
  apply andb_prop in H as [H0 H1].
  apply negb_true_iff, N.eqb_neq in H1, H2, H3. auto.
Qed.

Lemma plain_ascii (s : gostring) : plain s = true -> forallb is_ascii s = true.
Proof.
  unfold plain. induction s as [|b t IH]; [reflexivity|].
  simpl. intros H. apply andb_prop in H as [Hb Ht].
  rewrite (proj1 (plain_byte_spec b Hb)), IH by exact Ht. reflexivity.
Qed.

Section Split.
Context (U : UnicodeTables).

Lemma ToLower_byte (b : byte) :
  is_ascii b = true -> string_eq (ToLower U [b]) (str ",") = bool_decide (b = comma).
Proof.
  intros H. rewrite ToLower_ascii by (simpl; rewrite H; reflexivity).
  unfold string_eq. simpl. apply bool_decide_ext.
  change (str ",") with [comma]. split.
  - intros [= E]. apply lower_byte_comma, E.
  - intros ->. reflexivity.
Qed.

(** [splitOnTopLevelString] on a plain string, from the middle of it. *)
Lemma splitOnTopLevelString_run (rest : gostring) :
  forall (pre : gostring) (lastend : nat) (split : list gostring) (prev : rune),
    plain rest = true ->
    (lastend <= length pre)%nat ->
    let '(_, lastend', split', _) :=
      foldl (splitOnTopLevelString_step U (pre ++ rest) (str ",") false)
            (0%Z, lastend, split, prev)
            (imap (fun n b => ((length pre + n)%nat, bval b)) rest) in
    split' ++ [drop lastend' (pre ++ rest)]
    = split ++ split_commas (drop lastend pre) rest.
Proof.
  induction rest as [|b t IH]; intros pre lastend split prev Hpl Hle.
  - simpl. rewrite app_nil_r. reflexivity.
  - simpl in Hpl. apply andb_prop in Hpl as [Hb Ht].
    destruct (plain_byte_spec b Hb) as (Ha & Hn1 & Hn2 & _).
    cbn [imap foldl]. unfold splitOnTopLevelString_step at 2.
    rewrite Nat.add_0_r. unfold r_lbrace, r_rbrace.
    destruct (N.eqb_spec (bval b) 123) as [|_]; [contradiction|].
    destruct (N.eqb_spec (bval b) 125) as [|_]; [contradiction|].
    cbn [Z.eqb andb].
    destruct (Nat.leb_spec lastend (length pre)) as [_|]; [|lia].
    cbn [andb].
    assert (Hlt : (Z.of_nat (length pre)
                   <? Z.of_nat (length (pre ++ b :: t)) - Z.of_nat (length (str ",")) + 1)%Z
                  = true).
    { apply Z.ltb_lt. rewrite length_app. simpl. lia. }
    rewrite Hlt. cbn [andb].
    assert (Htk : take (length (str ",")) (drop (length pre) (pre ++ b :: t)) = [b]).
    { rewrite drop_app_length. reflexivity. }
    rewrite Htk, (ToLower_byte b Ha). cbn [negb orb].
    replace (pre ++ b :: t) with ((pre ++ [b]) ++ t) by (rewrite <- app_assoc; reflexivity).
    assert (Him : imap ((fun n (b0 : byte) => ((length pre + n)%nat, bval b0)) ∘ S) t
                  = imap (fun n b0 => ((length (pre ++ [b]) + n)%nat, bval b0)) t).
    { apply imap_ext. intros n x _. simpl. rewrite length_app. simpl. f_equal. lia. }
    rewrite Him.
    cbn [split_commas]. destruct (bool_decide (b = comma)) eqn:Ec.
    + specialize (IH (pre ++ [b]) (length pre + length (str ","))%nat
                     (split ++ [take (length pre - lastend)
                                     (drop lastend ((pre ++ [b]) ++ t))]) (bval b) Ht).
      match goal with
      | |- context [foldl ?f ?st ?l] => destruct (foldl f st l) as [[[nb le] sp] pv]
      end.
      rewrite IH by (rewrite length_app; simpl; lia).
      rewrite <- app_assoc. f_equal. cbn [app]. f_equal.
      * rewrite <- app_assoc, drop_app_le by lia.
        rewrite take_app_le by (rewrite length_drop; lia).
        apply take_ge. rewrite length_drop. lia.
      * f_equal. rewrite drop_ge; [reflexivity|]. rewrite length_app. simpl. lia.
    + specialize (IH (pre ++ [b]) lastend split (bval b) Ht).
      match goal with
      | |- context [foldl ?f ?st ?l] => destruct (foldl f st l) as [[[nb le] sp] pv]
      end.
      rewrite IH by (rewrite length_app; simpl; lia).
      f_equal. f_equal. apply drop_app_le. lia.
Qed.

Lemma splitOnTopLevelString_plain (s : gostring) :
  plain s = true ->
  splitOnTopLevelString U s (str ",") false = split_commas [] s.
Proof.
  intros Hpl. unfold splitOnTopLevelString, range_string.
  rewrite range_from_ascii by (apply plain_ascii, Hpl).
  pose proof (splitOnTopLevelString_run s [] 0%nat [] r_space Hpl ltac:(simpl; lia)) as H.
  cbn [app length] in H.
  match goal with
  | |- context [foldl ?f ?st ?l] => destruct (foldl f st l) as [[[nb le] sp] pv]
  end.
  exact H.
Qed.

End Split.

(** [splitOnTopLevel] on a plain string. *)
Lemma splitOnTopLevel_run (t : gostring) :
  forall (word : gostring) (words : list gostring),
    plain t = true ->
    let '(_, word', words') :=
      foldl splitOnTopLevel_step (0%Z, word, words) (map bval t) in
    (if (0 <? length word')%nat then words' ++ [word'] else words')
    = words ++ words_of word t.
Proof.
  induction t as [|b t IH]; intros word words Hpl.
  - simpl. destruct word as [|c w]; simpl.
    + rewrite app_nil_r. reflexivity.
    + reflexivity.
  - simpl in Hpl. apply andb_prop in Hpl as [Hb Ht].
    destruct (plain_byte_spec b Hb) as (Ha & Hn1 & Hn2 & _).
    cbn [map foldl]. unfold splitOnTopLevel_step at 2.
    unfold r_lbrace, r_rbrace.
    destruct (N.eqb_spec (bval b) 123) as [|_]; [contradiction|].
    destruct (N.eqb_spec (bval b) 125) as [|_]; [contradiction|].
    cbn [Z.eqb andb words_of]. unfold is_space.
    destruct (IsSpace (bval b)).
    + destruct word as [|c w].
      * cbn [length Nat.ltb Nat.leb]. rewrite bool_decide_true by reflexivity.
        apply IH, Ht.
      * cbn [length Nat.ltb Nat.leb]. rewrite bool_decide_false by discriminate.
        specialize (IH [] (words ++ [c :: w]) Ht).
        destruct (foldl splitOnTopLevel_step (0%Z, [], words ++ [c :: w]) (map bval t))
          as [[nb w'] ws'].
        etransitivity; [exact IH|]. rewrite <- app_assoc. reflexivity.
    + rewrite Encode_ascii by exact Ha. apply IH, Ht.
Qed.

Lemma splitOnTopLevel_plain (s : gostring) :
  plain s = true -> splitOnTopLevel s = words_of [] (trim s).
Proof.
  intros Hpl. unfold splitOnTopLevel.
  rewrite TrimSpace_ascii by (apply plain_ascii, Hpl).
  assert (Hpt : plain (trim s) = true) by (apply forallb_trim, Hpl).
  rewrite runes_ascii by (apply plain_ascii, Hpt).
  pose proof (splitOnTopLevel_run (trim s) [] [] Hpt) as H.
  destruct (foldl splitOnTopLevel_step (0%Z, [], []) (map bval (trim s)))
    as [[nb w'] ws'].
  exact H.
Qed.

(** ** Words and parts of a plain string *)

Lemma forallb_snoc {A} (p : A -> bool) (l : list A) (x : A) :
  forallb p l = true -> p x = true -> forallb p (l ++ [x]) = true.
Proof. intros Hl Hx. rewrite forallb_app, Hl. simpl. rewrite Hx. reflexivity. Qed.

Lemma split_commas_forallb (p : byte -> bool) (s : gostring) :
  forall cur, forallb p cur = true -> forallb p s = true ->
    forallb (forallb p) (split_commas cur s) = true.
Proof.
  induction s as [|b t IH]; intros cur Hc Hs.
  - simpl. rewrite Hc. reflexivity.
  - simpl in Hs. apply andb_prop in Hs as [Hb Ht]. simpl.
    destruct (bool_decide (b = comma)).
    + simpl. rewrite Hc. apply IH; [reflexivity|exact Ht].
    + apply IH; [apply forallb_snoc; assumption|exact Ht].
Qed.

Lemma split_commas_nocomma (s : gostring) :
  forall cur, nocomma cur = true -> forallb nocomma (split_commas cur s) = true.
Proof.
  induction s as [|b t IH]; intros cur Hc.
  - simpl. rewrite Hc. reflexivity.
  - simpl. destruct (bool_decide (b = comma)) eqn:E.
    + simpl. rewrite Hc. apply IH. reflexivity.
    + apply IH. apply forallb_snoc; [exact Hc|]. rewrite E. reflexivity.
Qed.

Lemma words_of_clean (s : gostring) :
  forall cur, nospace cur = true -> Forall clean (words_of cur s).
Proof.
  induction s as [|b t IH]; intros cur Hc.
  - simpl. destruct (decide (cur = [])) as [E|E].
    + rewrite bool_decide_true by exact E. constructor.
    + rewrite bool_decide_false by exact E. constructor; [split; assumption|constructor].
  - simpl. destruct (is_space b) eqn:Eb.
    + destruct (decide (cur = [])) as [E|E].
      * rewrite bool_decide_true by exact E. apply IH. reflexivity.
      * rewrite bool_decide_false by exact E.
        constructor; [split; assumption|]. apply IH. reflexivity.
    + apply IH. apply forallb_snoc; [exact Hc|]. rewrite Eb. reflexivity.
Qed.

(** ** [strings.Join] with a space *)

Lemma Join_cons (w : gostring) (ws : list gostring) (sep : gostring) :
  ws <> [] -> Join (w :: ws) sep = w ++ sep ++ Join ws sep.
Proof.
  destruct ws as [|x t]; [congruence|]. intros _. simpl.
  rewrite <- app_assoc. reflexivity.
Qed.

Lemma Join_app (l1 l2 : list gostring) (sep : gostring) :
  l1 <> [] -> l2 <> [] -> Join (l1 ++ l2) sep = Join l1 sep ++ sep ++ Join l2 sep.
Proof.
  destruct l1 as [|a l1]; [congruence|]. destruct l2 as [|b l2]; [congruence|].
  intros _ _. simpl. rewrite map_app, concat_app. simpl.
  rewrite <- !app_assoc. reflexivity.
Qed.

Lemma Join_nonempty (w : gostring) (ws : list gostring) (sep : gostring) :
  w <> [] -> Join (w :: ws) sep <> [].
Proof. intros Hw. simpl. destruct w; [congruence|discriminate]. Qed.

(** ** [parseVon] and [parseNameParts] *)

Lemma Join_clean_nonempty (ws : list gostring) (sep : gostring) :
  Forall clean ws -> ws <> [] -> Join ws sep <> [].
Proof.
  intros H Hne. destruct ws as [|w t]; [congruence|].
  apply Join_nonempty. apply (Forall_inv H).
Qed.

Section NameFacts.
Context (U : UnicodeTables).

Lemma parseVon_scan_range (last : list gostring) (n : nat) :
  (-1 <= parseVon_scan U last n < Z.of_nat n)%Z.
Proof.
  induction n as [|n IH]; [simpl; lia|].
  cbn [parseVon_scan]. destruct (starts_lower U _); lia.
Qed.

(** What [String] joins from the von and last parts is the word list
    [parseVon] was given. *)
Lemma parseVon_joined (rest : list gostring) (v l : gostring) :
  Forall clean rest ->
  parseVon U rest = Some (v, l) ->
  l <> [] /\
  (if negb (string_eq v []) then v ++ str " " ++ l else l) = Join rest (str " ").
Proof.
  intros Hc H. destruct rest as [|w1 [|w2 t]].
  - discriminate H.
  - injection H as <- <-. split; [apply (Forall_inv Hc)|].
    simpl. rewrite app_nil_r. reflexivity.
  - rewrite parseVon_long in H by (simpl; lia). cbv zeta in H.
    set (rest := w1 :: w2 :: t) in *.
    pose proof (parseVon_scan_range rest (length rest - 1)) as Hj.
    set (j := parseVon_scan U rest (length rest - 1)) in *.
    assert (Hlen : (2 <= length rest)%nat) by (simpl; lia).
    clearbody rest.
    assert (Hd : drop (Z.to_nat (j + 1)) rest <> []).
    { intros E. apply (f_equal length) in E. rewrite length_drop in E.
      cbn [length] in E. lia. }
    assert (Hcd : Forall clean (drop (Z.to_nat (j + 1)) rest)) by (apply Forall_drop, Hc).
    injection H as <- <-. split; [apply Join_clean_nonempty; assumption|].
    destruct (Z.leb_spec 0 j) as [H0|H0].
    + assert (Ht : take (Z.to_nat (j + 1)) rest <> []).
      { intros E. apply (f_equal length) in E. rewrite length_take in E.
        cbn [length] in E. lia. }
      assert (Hct : Forall clean (take (Z.to_nat (j + 1)) rest)) by (apply Forall_take, Hc).
      unfold string_eq. rewrite bool_decide_false
        by (apply Join_clean_nonempty; assumption).
      cbn [negb]. rewrite <- Join_app by assumption.
      rewrite take_drop. reflexivity.
    + replace j with (-1)%Z by lia. reflexivity.
Qed.

Lemma parseNameParts_loop_cons (w x : gostring) (t : list gostring)
    (first space : gostring) :
  parseNameParts_loop U (w :: x :: t) first space
  = if negb (fst (DecodeRuneInString w) =? RuneError)
       && IsUpper U (fst (DecodeRuneInString w))
    then parseNameParts_loop U (x :: t) (first ++ space ++ w) (str " ")
    else (first, w :: x :: t).
Proof. reflexivity. Qed.

Lemma parseNameParts_loop_spec (s : list gostring) :
  forall first first' rest,
    parseNameParts_loop U s first (str " ") = (first', rest) ->
    exists fw, s = fw ++ rest
      /\ first' = first ++ concat (map (fun x => str " " ++ x) fw)
      /\ (s <> [] -> rest <> []).
Proof.
  assert (stop : forall (s : list gostring) (first : gostring),
             exists fw, s = fw ++ s
               /\ first = first ++ concat (map (fun x => str " " ++ x) fw)
               /\ (s <> [] -> s <> [])).
  { intros s0 first. exists []. split; [reflexivity|]. split; [|auto].
    simpl. rewrite app_nil_r. reflexivity. }
  induction s as [|w s IH]; intros first first' rest H.
  - injection H as <- <-. apply stop.
  - destruct s as [|x t].
    + injection H as <- <-. apply stop.
    + rewrite parseNameParts_loop_cons in H.
      destruct (negb (fst (DecodeRuneInString w) =? RuneError)
                && IsUpper U (fst (DecodeRuneInString w))).
      * apply IH in H as (fw & Hs & Hf & Hr). exists (w :: fw).
        split; [rewrite Hs; reflexivity|]. split.
        -- rewrite Hf. cbn [map concat]. rewrite <- !app_assoc. reflexivity.
        -- intros _. apply Hr. discriminate.
      * injection H as <- <-. apply stop.
Qed.

Lemma parseNameParts_loop_start (s : list gostring) (first : gostring)
    (rest : list gostring) :
  parseNameParts_loop U s [] [] = (first, rest) ->
  exists fw, s = fw ++ rest /\ first = Join fw (str " ") /\ (s <> [] -> rest <> []).
Proof.
  assert (stop : forall s : list gostring,
             exists fw, s = fw ++ s /\ [] = Join fw (str " ") /\ (s <> [] -> s <> [])).
  { intros s0. exists []. auto. }
  intros H. destruct s as [|w [|x t]].
  - injection H as <- <-. apply stop.
  - injection H as <- <-. apply stop.
  - rewrite parseNameParts_loop_cons in H.
    destruct (negb (fst (DecodeRuneInString w) =? RuneError)
              && IsUpper U (fst (DecodeRuneInString w))).
    + cbn [app] in H. apply parseNameParts_loop_spec in H as (fw & Hs & Hf & Hr).
      exists (w :: fw). split; [rewrite Hs; reflexivity|]. split.
      * rewrite Hf. reflexivity.
      * intros _. apply Hr. discriminate.
    + injection H as <- <-. apply stop.
Qed.

(** ** The name [others], and names that are not read back *)

Lemma others_has_no_comma (s : gostring) :
  plain s = true -> In comma s ->
  string_eq (ToLower U s) (str "others") = false.
Proof.
  intros Hpl Hin. rewrite ToLower_ascii by (apply plain_ascii, Hpl).
  apply bool_decide_eq_false. intros E.
  apply (in_map lower_byte) in Hin. rewrite E in Hin.
  simpl in Hin. repeat (destruct Hin as [Hin|Hin]; [discriminate Hin|]). exact Hin.
Qed.



End NameFacts.


(** A part that [quoteName] wraps is not read back either: the first
    part of the name [M,A] followed by a double quote is wrapped in
    braces by [String], and the braces stay in the first part when it is
    read back. *)
Lemma NormalizeName_quote_not_read_back :
  exists a,
    NormalizeName latin1_only [byte_of 77; byte_of 44; byte_of 65; byte_of 34] = Some (Some a)
    /\ NormalizeName latin1_only (Author_String a) <> Some (Some a).
Proof.
  eexists. split; [vm_compute; reflexivity|]. vm_compute. discriminate.
Qed.

(** ** Runes of a string *)

Lemma range_from_index (s : gostring) :
  forall sk i j : nat,
    map snd (range_from sk i s) = map snd (range_from sk j s).
Proof.
  induction s as [|b t IHs]; intros sk i j; [reflexivity|].
  cbn [range_from]. destruct sk as [|sk]; [|apply IHs].
  destruct (DecodeRuneInString (b :: t)) as [r n]. cbn [map snd]. f_equal. apply IHs.
Qed.

Lemma range_from_skip (k : nat) :
  forall (s : gostring) (i : nat),
    (k <= length s)%nat ->
    map snd (range_from k i s) = map snd (range_from 0 0 (drop k s)).
Proof.
  induction k as [|k IH]; intros s i Hk.
  - rewrite drop_0. apply range_from_index.
  - destruct s as [|b t]; [simpl in Hk; lia|].
    cbn [range_from drop]. apply IH. simpl in Hk. lia.
Qed.

Lemma runes_cons (s : gostring) (r : rune) (k : nat) :
  s <> [] -> DecodeRuneInString s = (r, k) -> runes s = r :: runes (drop k s).
Proof.
  intros Hs Hd. pose proof (Decode_width s Hs) as Hw. rewrite Hd in Hw. cbn [snd] in Hw.
  destruct s as [|b t]; [congruence|].
  unfold runes, range_string. cbn [range_from]. rewrite Hd. cbn [map snd]. f_equal.
  destruct k as [|k]; [lia|]. cbn [Nat.pred drop].
  apply range_from_skip. simpl in Hw. lia.
Qed.

Lemma runes_nil : runes [] = [].
Proof. reflexivity. Qed.

(** Induction along the runes of a string. *)
Lemma rune_ind (P : gostring -> Prop) :
  P [] ->
  (forall s r k, s <> [] -> DecodeRuneInString s = (r, k) ->
                 (1 <= k <= length s)%nat -> P (drop k s) -> P s) ->
  forall s, P s.
Proof.
  intros Hnil Hstep s.
  remember (length s) as n eqn:Hn. revert s Hn.
  induction n as [n IH] using lt_wf_ind. intros s ->.
  destruct s as [|b t]; [exact Hnil|].
  destruct (DecodeRuneInString (b :: t)) as [r k] eqn:Hd.
  pose proof (Decode_width (b :: t) ltac:(congruence)) as Hw.
  rewrite Hd in Hw. cbn [snd] in Hw.
  apply (Hstep _ r k); [congruence|exact Hd|exact Hw|].
  apply (IH (length (drop k (b :: t)))); [|reflexivity].
  rewrite length_drop. simpl in *. lia.
Qed.

Lemma Encode_nonempty (r : rune) : EncodeRune r <> [].
Proof.
  unfold EncodeRune.
  repeat match goal with |- context [if ?c then _ else _] => destruct c end;
    discriminate.
Qed.

(** Decoding and encoding again gives a valid string back. *)
Lemma string_of_runes_valid (s : gostring) :
  ValidString s = true -> string_of_runes (runes s) = s.
Proof.
  induction s as [|s r k Hs Hd Hk IH] using rune_ind; intros Hv; [reflexivity|].
  destruct (ValidString_step s r k Hs Hv Hd) as [Hok Hv'].
  rewrite (runes_cons s r k Hs Hd). unfold string_of_runes in *. cbn [map concat].
  rewrite (IH Hv'), (Decode_Encode s r k Hd Hok) by lia. apply take_drop.
Qed.

Lemma string_of_runes_nil (s : gostring) : string_of_runes (runes s) = [] <-> s = [].
Proof.
  split; [|intros ->; reflexivity].
  destruct s as [|b t]; [reflexivity|]. intros H. exfalso.
  destruct (DecodeRuneInString (b :: t)) as [r k] eqn:Hd.
  rewrite (runes_cons (b :: t) r k ltac:(congruence) Hd) in H.
  unfold string_of_runes in H. cbn [map concat] in H.
  apply app_eq_nil in H as [H _]. exact (Encode_nonempty r H).
Qed.

(** ** [HasQuote] *)

(** X1: [HasQuote] holds of a string exactly when one of its bytes is
    a double quote, whether or not the string is valid UTF-8. *)
Theorem HasQuote_spec (s : gostring) : HasQuote s = true <-> In quote_byte s.
Proof.
  unfold HasQuote.
  induction s as [|s r k Hs Hd Hk IH] using rune_ind.
  - simpl. split; [discriminate|intros []].
  - rewrite (runes_cons s r k Hs Hd). cbn [existsb].
    rewrite orb_true_iff, IH. clear IH.
    destruct s as [|b t]; [congruence|].
    destruct (N.ltb_spec (bval b) 128) as [Hlo|Hhi].
    + rewrite Decode_ascii in Hd by exact Hlo. injection Hd as <- <-.
      cbn [drop]. unfold r_quote. rewrite N.eqb_eq.
      change (In quote_byte (b :: t)) with (b = quote_byte \/ In quote_byte t).
      split.
      * intros [H|H]; [left|right; exact H].
        apply bval_inj. rewrite H. reflexivity.
      * intros [H|H]; [left|right; exact H]. rewrite H. reflexivity.
    + destruct (Decode_high b t r k Hhi Hd) as [Hr Hall].
      assert (Hnq : ~ In quote_byte (take k (b :: t))).
      { intros Hin. rewrite Forall_forall in Hall.
        apply list_elem_of_In, Hall in Hin. vm_compute in Hin. apply Hin. reflexivity. }
      unfold r_quote. split.
      * intros [H|H]; [apply N.eqb_eq in H; lia|].
        rewrite <- (take_drop k (b :: t)). apply in_or_app. right. exact H.
      * intros H. right. rewrite <- (take_drop k (b :: t)) in H.
        apply in_app_or in H as [H|H]; [contradiction|exact H].
Qed.

(** ** [splitWords] *)

Lemma string_of_runes_app (a b : list rune) :
  string_of_runes (a ++ b) = string_of_runes a ++ string_of_runes b.
Proof. unfold string_of_runes. rewrite map_app, concat_app. reflexivity. Qed.

Lemma string_of_runes_eq_nil (rs : list rune) : string_of_runes rs = [] -> rs = [].
Proof.
  destruct rs as [|r rs]; [reflexivity|]. unfold string_of_runes. cbn [map concat].
  intros H. apply app_eq_nil in H as [H _]. destruct (Encode_nonempty r H).
Qed.

Lemma string_of_runes_single (r : rune) : string_of_runes [r] = EncodeRune r.
Proof. unfold string_of_runes. cbn [map concat]. apply app_nil_r. Qed.

(** The loop of [splitWords], from a state that holds the runs [rss]
    and the run [wr] being read. *)
Lemma splitWords_runs (rs : list rune) :
  forall (rss : list (list rune)) (wr : list rune) (inspace : bool),
    runs (negb inspace) rss -> same_kind inspace wr -> (wr = [] -> rss = []) ->
    exists rss' wr' inspace',
      foldl splitWords_step (map string_of_runes rss, string_of_runes wr, inspace) rs
      = (map string_of_runes rss', string_of_runes wr', inspace')
      /\ runs (negb inspace') rss' /\ same_kind inspace' wr' /\ (wr' = [] -> rss' = [])
      /\ concat rss' ++ wr' = concat rss ++ wr ++ rs.
Proof.
  induction rs as [|r rs IH]; intros rss wr inspace Hr Hk He.
  - exists rss, wr, inspace. rewrite app_nil_r. auto.
  - cbn [foldl]. unfold splitWords_step at 2.
    assert (Hsame : IsSpace r = inspace ->
              exists rss' wr' inspace',
                foldl splitWords_step
                  (map string_of_runes rss, string_of_runes wr ++ EncodeRune r, inspace) rs
                = (map string_of_runes rss', string_of_runes wr', inspace')
                /\ runs (negb inspace') rss' /\ same_kind inspace' wr'
                /\ (wr' = [] -> rss' = [])
                /\ concat rss' ++ wr' = concat rss ++ wr ++ r :: rs).
    { intros Hsp.
      destruct (IH rss (wr ++ [r]) inspace Hr) as (rss' & wr' & b' & Hf & H1 & H2 & H3 & H4).
      - apply Forall_app. split; [exact Hk|]. apply Forall_singleton. exact Hsp.
      - intros E. apply app_eq_nil in E as [_ E]. discriminate E.
      - exists rss', wr', b'. rewrite <- Hf. split.
        + rewrite string_of_runes_app, string_of_runes_single. reflexivity.
        + split; [exact H1|]. split; [exact H2|]. split; [exact H3|].
          rewrite H4, <- !app_assoc. reflexivity. }
    destruct inspace, (IsSpace r) eqn:Hsp; cbn [andb negb];
      try (apply Hsame; reflexivity).
    + (* a run of white space ends *)
      destruct (decide (wr = [])) as [->|Hw].
      * rewrite (He eq_refl) in *. cbn [map]. rewrite bool_decide_true by reflexivity.
        destruct (IH [] [r] false) as (rss' & wr' & b' & Hf & H1 & H2 & H3 & H4).
        -- constructor.
        -- apply Forall_singleton. exact Hsp.
        -- discriminate.
        -- exists rss', wr', b'. split; [|auto].
           rewrite <- Hf, string_of_runes_single. reflexivity.
      * rewrite bool_decide_false
          by (intros E; apply Hw, string_of_runes_eq_nil, E).
        destruct (IH (rss ++ [wr]) [r] false) as (rss' & wr' & b' & Hf & H1 & H2 & H3 & H4).
        -- apply (runs_snoc true); assumption.
        -- apply Forall_singleton. exact Hsp.
        -- discriminate.
        -- exists rss', wr', b'. split.
           ++ rewrite <- Hf, map_app, string_of_runes_single. reflexivity.
           ++ split; [exact H1|]. split; [exact H2|]. split; [exact H3|].
              rewrite H4, concat_app. cbn [concat]. rewrite app_nil_r, <- !app_assoc.
              reflexivity.
    + (* a run of other runes ends *)
      destruct (decide (wr = [])) as [->|Hw].
      * rewrite (He eq_refl) in *. cbn [map]. rewrite bool_decide_true by reflexivity.
        destruct (IH [] [r] true) as (rss' & wr' & b' & Hf & H1 & H2 & H3 & H4).
        -- constructor.
        -- apply Forall_singleton. exact Hsp.
        -- discriminate.
        -- exists rss', wr', b'. split; [|auto].
           rewrite <- Hf, string_of_runes_single. reflexivity.
      * rewrite bool_decide_false
          by (intros E; apply Hw, string_of_runes_eq_nil, E).
        destruct (IH (rss ++ [wr]) [r] true) as (rss' & wr' & b' & Hf & H1 & H2 & H3 & H4).
        -- apply (runs_snoc false); assumption.
        -- apply Forall_singleton. exact Hsp.
        -- discriminate.
        -- exists rss', wr', b'. split.
           ++ rewrite <- Hf, map_app, string_of_runes_single. reflexivity.
           ++ split; [exact H1|]. split; [exact H2|]. split; [exact H3|].
              rewrite H4, concat_app. cbn [concat]. rewrite app_nil_r, <- !app_assoc.
              reflexivity.
Qed.

(** X2: [splitWords] cuts the runes of a string into maximal runs of
    white space and of other runes: the words are the encodings of rune
    lists that are not empty, each made of white space only or of no
    white space at all, two neighbours never of the same kind, and that
    together are the runes of the string.  So no word is empty, and the
    words put together are the string decoded and encoded again, which
    is the string itself when it is valid UTF-8. *)
Theorem splitWords_concat (s : gostring) :
  (exists (inspace : bool) (rss : list (list rune)),
      splitWords s = map string_of_runes rss
      /\ concat rss = runes s
      /\ runs inspace rss)
  /\ Forall (fun w => w <> []) (splitWords s)
  /\ concat (splitWords s) = string_of_runes (runes s)
  /\ (ValidString s = true -> concat (splitWords s) = s).
Proof.
  assert (H : exists (inspace : bool) (rss : list (list rune)),
             splitWords s = map string_of_runes rss
             /\ concat rss = runes s /\ runs inspace rss).
  { unfold splitWords. destruct (DecodeRuneInString s) as [c n].
    destruct (splitWords_runs (runes s) [] [] (IsSpace c))
      as (rss & wr & b & Hf & H1 & H2 & H3 & H4);
      [constructor|constructor|reflexivity|].
    change (map string_of_runes [], string_of_runes [], IsSpace c)
      with (@nil gostring, @nil ascii, IsSpace c) in Hf.
    rewrite Hf. cbn [concat app] in H4.
    destruct (decide (wr = [])) as [->|Hw].
    - rewrite bool_decide_true by reflexivity.
      exists (negb b), rss. rewrite app_nil_r in H4. auto.
    - rewrite bool_decide_false
        by (intros E; apply Hw, string_of_runes_eq_nil, E).
      exists b, (rss ++ [wr]). rewrite map_app. split; [reflexivity|]. split.
      + rewrite concat_app. cbn [concat]. rewrite app_nil_r. exact H4.
      + apply runs_snoc; assumption. }
  split; [exact H|].
  destruct H as (b & rss & Hs & Hc & Hr).
  assert (Hne : Forall (fun w => w <> []) (splitWords s)).
  { rewrite Hs. clear Hs Hc. induction Hr as [|b rss rs Hr IH Hn Hk]; [constructor|].
    rewrite map_app. apply Forall_app. split; [exact IH|].
    apply Forall_singleton. intros E. apply Hn, string_of_runes_eq_nil, E. }
  assert (Hcat : concat (splitWords s) = string_of_runes (runes s)).
  { rewrite Hs, <- Hc. clear. induction rss as [|rs rss IH]; [reflexivity|].
    cbn [map concat]. rewrite string_of_runes_app, IH. reflexivity. }
  split; [exact Hne|]. split; [exact Hcat|].
  intros Hv. rewrite Hcat. apply string_of_runes_valid, Hv.
Qed.

Lemma splitWords_concat_witness :
  ValidString (str "hi  there") = true
  /\ concat (splitWords (str "hi  there")) = str "hi  there".
Proof.
  split; [reflexivity|].
  apply (proj2 (proj2 (proj2 (splitWords_concat (str "hi  there"))))). reflexivity.
Defined.

(** ** The brace tree on strings that are not balanced *)

(** X3: [ParseBraceTree] stops right after the first closing brace
    that has no opening brace: it has then consumed the balanced text
    before it and that brace.  [Flatten] gives the text before the brace
    (when no group is empty and the string is valid UTF-8). *)
Theorem ParseBraceTree_unmatched_close (body tail : gostring) :
  balanced body ->
  exists t,
    ParseBraceTree (body ++ rbrace :: tail) = Some (t, (length body + 1)%nat)
    /\ (balanced_nonempty_groups body ->
        ValidString (body ++ rbrace :: tail) = true ->
        Flatten t = TrimSpace body).
Proof.
  intros Hb. set (s := body ++ rbrace :: tail).
  destruct (proj1 (ParseBraceTree_loop_run true (S (length s)) s 0%nat [] []
                     ltac:(lia)) body tail eq_refl Hb) as (cs & H & _).
  eexists. split; [exact H|].
  intros Hb' Hv.
  destruct (proj1 (ParseBraceTree_loop_run false (S (length s)) s 0%nat [] []
                     ltac:(lia)) body tail eq_refl Hb') as (cs' & H' & Hflat).
  unfold ParseBraceTree in H. fold s in H.
  assert (cs' = cs) by congruence. subst cs'.
  destruct (Hflat eq_refl Hv) as [Hf _].
  unfold Flatten. rewrite flatten_root, Hf. reflexivity.
Qed.

Lemma ParseBraceTree_unmatched_close_witness :
  exists t,
    ParseBraceTree (str "ab" ++ rbrace :: str "cd") = Some (t, (length (str "ab") + 1)%nat)
    /\ Flatten t = TrimSpace (str "ab").
Proof.
  assert (Hb : forall ae, wellnested ae (str "ab")).
  { intros ae. apply wn_byte; [split; discriminate|].
    apply wn_byte; [split; discriminate|apply wn_nil]. }
  destruct (ParseBraceTree_unmatched_close (str "ab") (str "cd") (Hb true))
    as (t & H & Hf).
  exists t. split; [exact H|]. apply Hf; [apply Hb|reflexivity].
Defined.

Lemma ParseBraceTree_loop_lbrace (f : nat) (body : gostring) (i : nat)
    (children : list BraceNode) (accum : gostring) :
  ParseBraceTree_loop (S f) (lbrace :: body) i children accum
  = match ParseBraceTree_loop f body 0 [] [] with
    | None => None
    | Some (c, nread) =>
        ParseBraceTree_loop f (drop nread body) (i + (1 + nread))
          (saveAccum children accum ++ [c]) []
    end.
Proof. reflexivity. Qed.

(** The children returned are not empty once there is something to
    hold. *)
Lemma ParseBraceTree_loop_children (fuel : nat) :
  forall rest i children accum cs n,
    ParseBraceTree_loop fuel rest i children accum
    = Some (mkBraceNode (Some cs) [], n) ->
    children <> [] \/ accum <> [] \/ (exists b t, rest = b :: t /\ b <> rbrace) ->
    cs <> [].
Proof.
  assert (Hsave : forall children accum,
             children <> [] \/ accum <> [] -> saveAccum children accum <> []).
  { intros children accum [H|H]; unfold saveAccum.
    - destruct (0 <? length accum)%nat; [|exact H].
      intros E. apply app_eq_nil in E as [E _]. contradiction.
    - destruct accum as [|c a]; [congruence|]. simpl.
      intros E. apply app_eq_nil in E as [_ E]. discriminate E. }
  induction fuel as [|f IH]; intros rest i children accum cs n H Hne; [discriminate H|].
  destruct rest as [|b rest'].
  - injection H as <- _. apply Hsave.
    destruct Hne as [Hc|[Ha|(b & t & E & _)]]; [auto|auto|discriminate E].
  - cbn [ParseBraceTree_loop] in H.
    destruct (DecodeRuneInString (b :: rest')) as [r k] eqn:Hdec.
    destruct (Decode_first b rest' r k Hdec)
      as [(-> & -> & ->)|[(-> & -> & ->)|(Hnl & Hnr & Hk & Hpre)]].
    + cbn [N.eqb Pos.eqb r_lbrace] in H.
      destruct (ParseBraceTree_loop f _ 0 [] []) as [[c nread]|]; [|discriminate H].
      apply IH in H; [exact H|]. left.
      intros E. apply app_eq_nil in E as [_ E]. discriminate E.
    + cbn [N.eqb Pos.eqb r_lbrace r_rbrace] in H. injection H as <- _.
      apply Hsave. destruct Hne as [Hc|[Ha|(b & t & E & Hb)]]; [auto|auto|].
      injection E as <- _. congruence.
    + destruct (N.eqb_spec r r_lbrace) as [|_]; [contradiction|].
      destruct (N.eqb_spec r r_rbrace) as [|_]; [contradiction|].
      apply IH in H; [exact H|]. right. left.
      intros E. apply app_eq_nil in E as [_ E]. exact (Encode_nonempty r E).
Qed.

(** X4: a string made of an opening brace and, after it, a text that
    is not empty and has balanced braces, so that the opening brace is
    never closed.  [ParseBraceTree] consumes the whole string, so
    callers that compare the count with the length accept it, and the
    tree counts as entirely braced; when the text is valid UTF-8 and
    none of its groups is empty, [Flatten] gives the string with the
    missing closing brace added at its end, trimmed of white space. *)
Theorem ParseBraceTree_unclosed_open (body : gostring) :
  balanced body -> body <> [] ->
  exists t,
    ParseBraceTree (lbrace :: body) = Some (t, length (lbrace :: body))
    /\ IsEntireStringBraced t = true
    /\ (balanced_nonempty_groups body -> ValidString body = true ->
        Flatten t = TrimSpace (lbrace :: body ++ [rbrace])).
Proof.
  intros Hb Hne. unfold ParseBraceTree.
  change (length (lbrace :: body)) with (S (length body)).
  rewrite ParseBraceTree_loop_lbrace.
  destruct (proj2 (ParseBraceTree_loop_run true (S (length body)) body 0%nat [] []
                     ltac:(lia)) Hb) as (cs & H & _).
  rewrite H. cbn [Nat.add]. rewrite drop_all. cbn [ParseBraceTree_loop].
  assert (Hcs : cs <> []).
  { apply (ParseBraceTree_loop_children _ _ _ _ _ _ _ H).
    right. right. destruct body as [|b t]; [congruence|].
    exists b, t. split; [reflexivity|].
    intros ->. exact (wellnested_not_rbrace _ _ Hb). }
  eexists. split; [reflexivity|]. split.
  - cbn. destruct cs; [congruence|reflexivity].
  - intros Hb' Hv.
    destruct (proj2 (ParseBraceTree_loop_run false (S (length body)) body 0%nat [] []
                       ltac:(lia)) Hb') as (cs' & H' & Hflat).
    assert (cs' = cs) by congruence. subst cs'.
    specialize (Hflat eq_refl Hv). simpl in Hflat.
    unfold Flatten. rewrite flatten_root. unfold saveAccum. cbn [length Nat.ltb Nat.leb app].
    unfold flat_children. cbn [map concat]. rewrite app_nil_r.
    rewrite flatten_group by (rewrite Hflat; exact Hne).
    rewrite Hflat. reflexivity.
Qed.

Lemma ParseBraceTree_unclosed_open_witness :
  exists t,
    ParseBraceTree (lbrace :: str "ab") = Some (t, length (lbrace :: str "ab"))
    /\ IsEntireStringBraced t = true
    /\ Flatten t = TrimSpace (lbrace :: str "ab" ++ [rbrace]).
Proof.
  assert (Hb : forall ae, wellnested ae (str "ab")).
  { intros ae. apply wn_byte; [split; discriminate|].
    apply wn_byte; [split; discriminate|apply wn_nil]. }
  destruct (ParseBraceTree_unclosed_open (str "ab") (Hb true) ltac:(discriminate))
    as (t & H & He & Hf).
  exists t. split; [exact H|]. split; [exact He|]. apply Hf; [apply Hb|reflexivity].
Defined.

(** ** The brace tree of a string without braces *)

Lemma ParseBraceTree_loop_nobrace (fuel : nat) :
  forall rest i children accum,
    (length rest < fuel)%nat -> Forall nonbrace rest ->
    ParseBraceTree_loop fuel rest i children accum
    = Some (mkBraceNode
              (Some (saveAccum children (accum ++ string_of_runes (runes rest)))) [],
            (i + length rest)%nat).
Proof.
  induction fuel as [|f IH]; intros rest i children accum Hfuel Hnb; [lia|].
  destruct rest as [|b rest'].
  - simpl. rewrite app_nil_r, Nat.add_0_r. reflexivity.
  - cbn [ParseBraceTree_loop].
    destruct (DecodeRuneInString (b :: rest')) as [r k] eqn:Hdec.
    destruct (Decode_first b rest' r k Hdec)
      as [(-> & -> & ->)|[(-> & -> & ->)|(Hnl & Hnr & Hk & Hpre)]].
    + exfalso. apply (proj1 (Forall_inv Hnb)). reflexivity.
    + exfalso. apply (proj2 (Forall_inv Hnb)). reflexivity.
    + destruct (N.eqb_spec r r_lbrace) as [|_]; [contradiction|].
      destruct (N.eqb_spec r r_rbrace) as [|_]; [contradiction|].
      rewrite (runes_cons (b :: rest') r k ltac:(discriminate) Hdec).
      rewrite IH; [| rewrite length_drop; simpl in *; lia | apply Forall_drop, Hnb].
      f_equal. f_equal.
      * unfold string_of_runes. cbn [map concat]. rewrite <- app_assoc. reflexivity.
      * rewrite length_drop. lia.
Qed.

(** X5: a string without braces parses to a root with one leaf that
    holds it, none when the string is empty: the tree contains no braces
    exactly when the string is not empty, the string is never entirely
    braced, and both flattenings give the string back when it is valid
    UTF-8. *)
Theorem ParseBraceTree_no_braces (s : gostring) :
  Forall nonbrace s ->
  exists t,
    ParseBraceTree s = Some (t, length s)
    /\ ContainsNoBraces t = negb (bool_decide (s = []))
    /\ IsEntireStringBraced t = false
    /\ (ValidString s = true -> flatten true true t = s /\ FlattenForSorting t = s).
Proof.
  intros Hnb. unfold ParseBraceTree.
  rewrite ParseBraceTree_loop_nobrace by (lia || exact Hnb).
  eexists. split; [reflexivity|]. cbn [app].
  destruct (decide (s = [])) as [->|Hs].
  - rewrite bool_decide_true by reflexivity. simpl. auto.
  - rewrite bool_decide_false by exact Hs.
    assert (Hne : string_of_runes (runes s) <> [])
      by (rewrite string_of_runes_nil; exact Hs).
    unfold saveAccum. destruct (string_of_runes (runes s)) as [|c w] eqn:E; [congruence|].
    cbn [length Nat.ltb Nat.leb app]. split; [reflexivity|]. split; [reflexivity|].
    intros Hv. rewrite <- E, string_of_runes_valid by exact Hv.
    unfold FlattenForSorting. cbn. rewrite !app_nil_r. auto.
Qed.

Lemma ParseBraceTree_no_braces_witness :
  exists t,
    ParseBraceTree (str "12-34") = Some (t, length (str "12-34"))
    /\ ContainsNoBraces t = negb (bool_decide (str "12-34" = []))
    /\ IsEntireStringBraced t = false
    /\ (ValidString (str "12-34") = true ->
        flatten true true t = str "12-34" /\ FlattenForSorting t = str "12-34").
Proof.
  apply ParseBraceTree_no_braces.
  repeat (apply Forall_cons_2; [split; discriminate|]). apply Forall_nil_2.
Defined.

(** ** [RemoveWholeFieldBraces] *)

Lemma ParseBraceTree_whole_group (body : gostring) :
  balanced_nonempty_groups body -> body <> [] ->
  ValidString (lbrace :: body ++ [rbrace]) = true ->
  exists cs1,
    ParseBraceTree (lbrace :: body ++ [rbrace])
    = Some (mkBraceNode (Some [mkBraceNode (Some cs1) []]) [],
            length (lbrace :: body ++ [rbrace]))
    /\ flat_children cs1 = body /\ cs1 <> [].
Proof.
  intros Hb Hne Hv. unfold ParseBraceTree.
  change (length (lbrace :: body ++ [rbrace])) with (S (length (body ++ [rbrace]))).
  rewrite ParseBraceTree_loop_lbrace.
  destruct (proj1 (ParseBraceTree_loop_run false (S (length (body ++ [rbrace])))
                     (body ++ [rbrace]) 0%nat [] [] ltac:(lia)) body [] eq_refl Hb)
    as (cs1 & H & Hflat).
  rewrite H.
  assert (Hv' : ValidString (body ++ [rbrace]) = true).
  { exact (proj2 (ValidString_step (lbrace :: body ++ [rbrace]) r_lbrace 1
                    ltac:(discriminate) Hv eq_refl)). }
  destruct (Hflat eq_refl Hv') as [Hf _]. simpl in Hf.
  rewrite drop_ge by (rewrite length_app; simpl; lia).
  cbn [ParseBraceTree_loop]. exists cs1. split; [|split; [exact Hf|]].
  - f_equal. f_equal. rewrite length_app. simpl. lia.
  - intros ->. apply Hne. symmetry. exact Hf.
Qed.

(** X6: the function [RemoveWholeFieldBraces] applies to a field
    never panics.  On a string field other than the author whose text is
    valid UTF-8 and is one brace group around a body that is not empty,
    has balanced braces and no empty group, it removes exactly that pair
    of braces and trims the body of white space. *)
Theorem RemoveWholeFieldBraces_one_layer :
  (forall tag v, RemoveWholeFieldBraces_field tag v <> None)
  /\ (forall tag v body,
        vT v = StringType -> tag <> str "author" ->
        vS v = lbrace :: body ++ [rbrace] ->
        balanced_nonempty_groups body -> body <> [] -> ValidString (vS v) = true ->
        RemoveWholeFieldBraces_field tag v
        = Some (mkValue StringType (TrimSpace body) (vI v))).
Proof.
  split.
  - intros tag v. unfold RemoveWholeFieldBraces_field.
    destruct (_ && _); [|discriminate].
    destruct (ParseBraceTree (vS v)) as [[bn size]|]; [|discriminate].
    destruct (Nat.eqb size _); [|discriminate].
    unfold IsEntireStringBraced.
    destruct (slice_elems (Children bn)) as [|c [|c' l]]; try discriminate.
    destruct (negb (IsLeaf c)); discriminate.
  - intros tag v body HT Htag HS Hb Hne Hv.
    unfold RemoveWholeFieldBraces_field. rewrite HT, HS in *.
    rewrite bool_decide_true by reflexivity.
    unfold string_eq. rewrite bool_decide_false by exact Htag. cbn [negb andb].
    destruct (ParseBraceTree_whole_group body Hb Hne Hv) as (cs1 & -> & Hf & Hc).
    rewrite Nat.eqb_refl.
    assert (Hl : (length cs1 =? 0)%nat = false) by (destruct cs1; [congruence|reflexivity]).
    unfold IsEntireStringBraced, IsLeaf. cbn [Children slice_elems].
    rewrite Hl. cbn [negb lookup list_lookup].
    unfold Flatten. rewrite flatten_root, Hf. reflexivity.
Qed.

Lemma RemoveWholeFieldBraces_one_layer_witness :
  RemoveWholeFieldBraces_field (str "title")
    (mkValue StringType (lbrace :: str " a b " ++ [rbrace]) 0)
  = Some (mkValue StringType (TrimSpace (str " a b ")) 0).
Proof.
  apply (proj2 RemoveWholeFieldBraces_one_layer (str "title")
           (mkValue StringType (lbrace :: str " a b " ++ [rbrace]) 0) (str " a b "));
    try reflexivity; try discriminate.
  repeat (apply wn_byte; [split; discriminate|]). apply wn_nil.
Defined.

(** ** [FlattenForSorting]: the string without its braces *)

Lemma sort_children_app (a b : list BraceNode) :
  sort_children (a ++ b) = sort_children a ++ sort_children b.
Proof. unfold sort_children. rewrite map_app, concat_app. reflexivity. Qed.

Lemma sort_saveAccum (children : list BraceNode) (accum : gostring) :
  sort_children (saveAccum children accum) = sort_children children ++ accum.
Proof.
  unfold saveAccum. destruct accum as [|c accum].
  - simpl. rewrite app_nil_r. reflexivity.
  - cbn [length Nat.ltb Nat.leb]. rewrite sort_children_app.
    unfold sort_children at 2. simpl. rewrite app_nil_r. reflexivity.
Qed.

Lemma flatten_sort (isroot : bool) (cs : list BraceNode) :
  flatten isroot false (mkBraceNode (Some cs) []) = sort_children cs.
Proof.
  destruct cs as [|c cs]; [reflexivity|].
  cbn [flatten]. rewrite Join_nil_sep. destruct isroot; reflexivity.
Qed.

Lemma strip_braces_app (a b : gostring) :
  strip_braces (a ++ b) = strip_braces a ++ strip_braces b.
Proof. apply List.filter_app. Qed.

Lemma strip_braces_nonbrace (s : gostring) :
  Forall nonbrace s -> strip_braces s = s.
Proof.
  induction 1 as [|b s [Hl Hr] _ IH]; [reflexivity|].
  unfold strip_braces, is_brace in *. cbn [List.filter].
  rewrite !bool_decide_false by assumption. cbn [orb negb]. rewrite IH. reflexivity.
Qed.

Lemma strip_braces_group (body s : gostring) :
  strip_braces (lbrace :: body ++ rbrace :: s) = strip_braces body ++ strip_braces s.
Proof.
  change (lbrace :: body ++ rbrace :: s) with ([lbrace] ++ body ++ [rbrace] ++ s).
  rewrite !strip_braces_app. reflexivity.
Qed.

Lemma ParseBraceTree_loop_sort (fuel : nat) :
  forall (rest : gostring) (i : nat) (children : list BraceNode) (accum : gostring),
    (length rest < fuel)%nat -> ValidString rest = true ->
    (forall body tail,
        rest = body ++ rbrace :: tail -> balanced body ->
        exists cs n,
          ParseBraceTree_loop fuel rest i children accum
          = Some (mkBraceNode (Some cs) [], n)
          /\ sort_children cs = sort_children children ++ accum ++ strip_braces body
          /\ ValidString tail = true)
    /\ (balanced rest ->
        exists cs n,
          ParseBraceTree_loop fuel rest i children accum
          = Some (mkBraceNode (Some cs) [], n)
          /\ sort_children cs = sort_children children ++ accum ++ strip_braces rest).
Proof.
  induction fuel as [|f IH]; intros rest i children accum Hfuel Hv; [lia|].
  destruct rest as [|b rest'].
  { split.
    - intros body tail H. destruct body; discriminate H.
    - intros _. eexists _, _. split; [reflexivity|].
      rewrite sort_saveAccum, app_nil_r. reflexivity. }
  cbn [ParseBraceTree_loop].
  destruct (DecodeRuneInString (b :: rest')) as [r k] eqn:Hdec.
  simpl in Hfuel.
  destruct (ValidString_step (b :: rest') r k ltac:(discriminate) Hv Hdec) as [Hok Hv'].
  destruct (Decode_first b rest' r k Hdec)
    as [(-> & -> & ->)|[(-> & -> & ->)|(Hnl & Hnr & Hk & Hpre)]].
  - (* an opening brace *)
    cbn [N.eqb Pos.eqb r_lbrace]. change (drop 1 (lbrace :: rest')) with rest' in *.
    split.
    + intros body tail Heq Hbody.
      destruct body as [|c body0]; [discriminate Heq|].
      injection Heq as <- ->.
      apply wellnested_group_inv in Hbody
          as (body1 & s1 & -> & _ & Hbody1 & Hs1).
      rewrite <- app_assoc in *. cbn [app] in *.
      destruct (proj1 (ParseBraceTree_loop_run true f
                         (body1 ++ rbrace :: s1 ++ rbrace :: tail) 0%nat [] []
                         ltac:(lia)) body1 (s1 ++ rbrace :: tail) eq_refl Hbody1)
        as (cs0 & Hrun & _).
      destruct (proj1 (IH (body1 ++ rbrace :: s1 ++ rbrace :: tail) 0%nat [] []
                          ltac:(lia) Hv') body1 (s1 ++ rbrace :: tail) eq_refl Hbody1)
        as (cs1 & n1 & H1 & Hf1 & Hv1).
      rewrite H1 in Hrun. injection Hrun as <- ->. rewrite H1.
      change (0 + length body1 + 1)%nat with (length body1 + 1)%nat.
      rewrite drop_group.
      destruct (proj1 (IH (s1 ++ rbrace :: tail) (i + (1 + (length body1 + 1)))%nat
                          (saveAccum children accum ++ [mkBraceNode (Some cs1) []]) []
                          ltac:((rewrite !length_app in *; simpl in *;
                                 rewrite ?length_app in *; simpl in *; lia)) Hv1)
                    s1 tail eq_refl Hs1) as (cs & n & -> & Hf & Hvt).
      exists cs, n. split; [reflexivity|]. split; [|exact Hvt].
      rewrite Hf, sort_children_app, sort_saveAccum.
      unfold sort_children at 2. cbn [map concat].
      rewrite flatten_sort, Hf1, strip_braces_group. simpl.
      rewrite !app_nil_r, <- !app_assoc. reflexivity.
    + intros Hwn.
      apply wellnested_group_inv in Hwn as (body1 & s1 & -> & _ & Hbody1 & Hs1).
      destruct (proj1 (ParseBraceTree_loop_run true f (body1 ++ rbrace :: s1) 0%nat [] []
                         ltac:(lia)) body1 s1 eq_refl Hbody1) as (cs0 & Hrun & _).
      destruct (proj1 (IH (body1 ++ rbrace :: s1) 0%nat [] [] ltac:(lia) Hv')
                    body1 s1 eq_refl Hbody1) as (cs1 & n1 & H1 & Hf1 & Hv1).
      rewrite H1 in Hrun. injection Hrun as <- ->. rewrite H1.
      change (0 + length body1 + 1)%nat with (length body1 + 1)%nat.
      rewrite drop_group.
      destruct (proj2 (IH s1 (i + (1 + (length body1 + 1)))%nat
                          (saveAccum children accum ++ [mkBraceNode (Some cs1) []]) []
                          ltac:((rewrite !length_app in *; simpl in *; lia)) Hv1) Hs1)
        as (cs & n & -> & Hf).
      exists cs, n. split; [reflexivity|].
      rewrite Hf, sort_children_app, sort_saveAccum.
      unfold sort_children at 2. cbn [map concat].
      rewrite flatten_sort, Hf1, strip_braces_group. simpl.
      rewrite !app_nil_r, <- !app_assoc. reflexivity.
  - (* a closing brace *)
    cbn [N.eqb Pos.eqb r_lbrace r_rbrace]. split.
    + intros body tail Heq Hbody. destruct body as [|c body0].
      * injection Heq as <-. eexists _, _. split; [reflexivity|].
        rewrite sort_saveAccum, app_nil_r. split; [reflexivity|exact Hv'].
      * injection Heq as <- _. exfalso. exact (wellnested_not_rbrace _ _ Hbody).
    + intros Hwn. exfalso. exact (wellnested_not_rbrace _ _ Hwn).
  - (* any other rune *)
    destruct (N.eqb_spec r r_lbrace) as [|_]; [contradiction|].
    destruct (N.eqb_spec r r_rbrace) as [|_]; [contradiction|].
    set (rest := b :: rest') in *.
    assert (Hlen : (length (drop k rest) < f)%nat).
    { rewrite length_drop. simpl in *. lia. }
    assert (Henc : EncodeRune r = take k rest).
    { apply Decode_Encode; [exact Hdec|exact Hok|lia]. }
    split.
    + intros body tail Heq Hbody. rewrite Heq in Hpre, Hk.
      destruct (nonbrace_prefix_split body tail k Hpre (proj2 Hk))
        as (Hb & Htake & Hdrop & Hle).
      assert (Hbody' : balanced (drop k body)).
      { apply (wellnested_drop_prefix true (take k body)); [rewrite <- Htake; exact Hpre|].
        rewrite take_drop. exact Hbody. }
      destruct (proj1 (IH (drop k rest) (i + k)%nat children (accum ++ EncodeRune r)
                          Hlen Hv')
                    (drop k body) tail ltac:((rewrite Heq; exact Hdrop)) Hbody')
        as (cs & n & -> & Hf & Hvt).
      exists cs, n. split; [reflexivity|]. split; [|exact Hvt].
      rewrite Hf, Henc, Heq, Htake, <- !app_assoc. f_equal. f_equal.
      rewrite <- (take_drop k body) at 3. rewrite strip_braces_app. f_equal.
      symmetry. apply strip_braces_nonbrace. rewrite <- Htake. exact Hpre.
    + intros Hwn.
      assert (Hwn' : balanced (drop k rest)).
      { apply (wellnested_drop_prefix true (take k rest)); [exact Hpre|].
        rewrite take_drop. exact Hwn. }
      destruct (proj2 (IH (drop k rest) (i + k)%nat children (accum ++ EncodeRune r)
                          Hlen Hv') Hwn') as (cs & n & -> & Hf).
      exists cs, n. split; [reflexivity|].
      rewrite Hf, Henc, <- !app_assoc. f_equal. f_equal.
      rewrite <- (take_drop k rest) at 3. rewrite strip_braces_app. f_equal.
      symmetry. apply strip_braces_nonbrace. exact Hpre.
Qed.

Lemma FlattenForSorting_balanced (s : gostring) :
  balanced s -> ValidString s = true ->
  exists t, ParseBraceTree s = Some (t, length s)
            /\ FlattenForSorting t = strip_braces s.
Proof.
  intros Hb Hv.
  destruct (proj2 (ParseBraceTree_loop_run true (S (length s)) s 0%nat [] []
                     ltac:(lia)) Hb) as (cs0 & Hrun & _).
  destruct (proj2 (ParseBraceTree_loop_sort (S (length s)) s 0%nat [] []
                     ltac:(lia) Hv) Hb) as (cs & n & H & Hf).
  rewrite H in Hrun. injection Hrun as <- ->.
  eexists. split; [exact H|].
  unfold FlattenForSorting. rewrite flatten_sort, Hf. reflexivity.
Qed.

(** X7: for a string with balanced braces that is valid UTF-8,
    [FlattenForSorting] of its tree is the string with every brace
    removed, empty groups included. *)
Theorem FlattenForSorting_strips_braces (s : gostring) :
  balanced s -> ValidString s = true ->
  exists t, ParseBraceTree s = Some (t, length s)
            /\ FlattenForSorting t = strip_braces s.
Proof. exact (FlattenForSorting_balanced s). Qed.

Lemma FlattenForSorting_strips_braces_witness :
  exists t, ParseBraceTree (str "a{}{b}") = Some (t, length (str "a{}{b}"))
            /\ FlattenForSorting t = strip_braces (str "a{}{b}").
Proof.
  apply FlattenForSorting_strips_braces; [|reflexivity].
  apply wn_byte; [split; discriminate|].
  apply (wn_group true [] (str "{b}")); [discriminate|apply wn_nil|].
  apply (wn_group true (str "b") []); [discriminate| |apply wn_nil].
  apply wn_byte; [split; discriminate|apply wn_nil].
Defined.

(** ** Equality and containment of entries *)

Lemma Value_Equals_spec (v1 v2 : Value) :
  Value_Equals v1 v2 = true <->
  vT v1 = vT v2 /\ (if bool_decide (vT v1 = NumberType) then vI v1 = vI v2
                    else vS v1 = vS v2).
Proof.
  unfold Value_Equals, string_eq.
  destruct (decide (vT v1 = vT v2)) as [E|E].
  - rewrite bool_decide_true by exact E.
    destruct (vT v1); simpl; rewrite ?bool_decide_eq_true, ?Z.eqb_eq; tauto.
  - rewrite bool_decide_false by exact E. split; [discriminate|tauto].
Qed.

Lemma Value_Equals_sym (v1 v2 : Value) :
  Value_Equals v1 v2 = true -> Value_Equals v2 v1 = true.
Proof.
  rewrite !Value_Equals_spec. intros [HT H]. rewrite <- HT. split; [auto|].
  destruct (bool_decide (vT v1 = NumberType)); auto.
Qed.

Lemma Value_Equals_trans (v1 v2 v3 : Value) :
  Value_Equals v1 v2 = true -> Value_Equals v2 v3 = true -> Value_Equals v1 v3 = true.
Proof.
  rewrite !Value_Equals_spec. intros [HT H] [HT' H']. rewrite <- HT in H'.
  split; [congruence|].
  destruct (bool_decide (vT v1 = NumberType)); congruence.
Qed.

Section EntryOrder.
Context (U : UnicodeTables).

Lemma IsSubset_spec (e1 e2 : Entry) :
  IsSubset U e1 e2 = true <->
  Kind e1 = Kind e2
  /\ ToLower U (EntryString e1) = ToLower U (EntryString e2)
  /\ (forall tag v1, Fields e1 !! tag = Some v1 ->
        exists v2, Fields e2 !! tag = Some v2 /\ Value_Equals v1 v2 = true).
Proof.
  unfold IsSubset, string_eq.
  assert (Hf : map_Forall (fun tag value1 => field_in e2 tag value1 = true) (Fields e1)
               <-> forall tag v1, Fields e1 !! tag = Some v1 ->
                     exists v2, Fields e2 !! tag = Some v2 /\ Value_Equals v1 v2 = true).
  { unfold map_Forall, field_in. split; intros H tag v1 Hl; specialize (H tag v1 Hl).
    - destruct (Fields e2 !! tag) as [v2|]; [eauto|discriminate].
    - destruct H as (v2 & -> & H). exact H. }
  destruct (decide (Kind e1 = Kind e2)) as [HK|HK].
  - rewrite bool_decide_false by tauto.
    destruct (decide (ToLower U (EntryString e1) = ToLower U (EntryString e2))) as [HS|HS].
    + rewrite bool_decide_true by exact HS. cbn [negb orb].
      rewrite bool_decide_eq_true, Hf. tauto.
    + rewrite bool_decide_false by exact HS. cbn. split; [discriminate|tauto].
  - rewrite bool_decide_true by exact HK. cbn. split; [discriminate|tauto].
Qed.

Lemma IsSubset_refl (e : Entry) : IsSubset U e e = true.
Proof.
  apply IsSubset_spec. repeat split. intros tag v H. exists v.
  split; [exact H|apply Value_Equals_refl].
Qed.

Lemma IsSubset_trans (e1 e2 e3 : Entry) :
  IsSubset U e1 e2 = true -> IsSubset U e2 e3 = true -> IsSubset U e1 e3 = true.
Proof.
  rewrite !IsSubset_spec. intros (HK & HS & HF) (HK' & HS' & HF').
  split; [congruence|]. split; [congruence|].
  intros tag v1 H1. destruct (HF tag v1 H1) as (v2 & H2 & E12).
  destruct (HF' tag v2 H2) as (v3 & H3 & E23).
  exists v3. split; [exact H3|]. exact (Value_Equals_trans _ _ _ E12 E23).
Qed.

Lemma Entry_Equals_refl (e : Entry) : Entry_Equals U e e = true.
Proof. unfold Entry_Equals. rewrite IsSubset_refl. reflexivity. Qed.

Lemma Entry_Equals_sym (e1 e2 : Entry) : Entry_Equals U e1 e2 = Entry_Equals U e2 e1.
Proof. unfold Entry_Equals. apply andb_comm. Qed.

Lemma Entry_Equals_trans (e1 e2 e3 : Entry) :
  Entry_Equals U e1 e2 = true -> Entry_Equals U e2 e3 = true ->
  Entry_Equals U e1 e3 = true.
Proof.
  unfold Entry_Equals. intros H H'.
  apply andb_prop in H as [H12 H21]. apply andb_prop in H' as [H23 H32].
  rewrite (IsSubset_trans _ _ _ H12 H23), (IsSubset_trans _ _ _ H32 H21). reflexivity.
Qed.

(** X8: [IsSubset] is a preorder on entries (reflexive and
    transitive), [Entry.Equals] is the equivalence relation that goes with
    it, and equal entries have the same tags. *)
Theorem IsSubset_preorder :
  (forall e, IsSubset U e e = true)
  /\ (forall e1 e2 e3, IsSubset U e1 e2 = true -> IsSubset U e2 e3 = true ->
                       IsSubset U e1 e3 = true)
  /\ (forall e, Entry_Equals U e e = true)
  /\ (forall e1 e2, Entry_Equals U e1 e2 = Entry_Equals U e2 e1)
  /\ (forall e1 e2 e3, Entry_Equals U e1 e2 = true -> Entry_Equals U e2 e3 = true ->
                       Entry_Equals U e1 e3 = true)
  /\ (forall e1 e2, Entry_Equals U e1 e2 = true ->
                    dom (Fields e1) = dom (Fields e2)).
Proof.
  split; [exact IsSubset_refl|]. split; [exact IsSubset_trans|].
  split; [exact Entry_Equals_refl|]. split; [exact Entry_Equals_sym|].
  split; [exact Entry_Equals_trans|].
  intros e1 e2 H. unfold Entry_Equals in H. apply andb_prop in H as [H12 H21].
  apply IsSubset_spec in H12 as (_ & _ & H12). apply IsSubset_spec in H21 as (_ & _ & H21).
  apply set_eq. intros tag. rewrite !elem_of_dom. split; intros [v Hv].
  - destruct (H12 tag v Hv) as (v2 & H2 & _). eauto.
  - destruct (H21 tag v Hv) as (v2 & H2 & _). eauto.
Qed.

End EntryOrder.

Lemma IsSubset_preorder_witness :
  IsSubset latin1_only (mkEntry Article (str "article") (str "a") ∅ [] 0)
    (mkEntry Article (str "Article") (str "b") {[ str "year" := NumberV 2020 ]} [] 0) = true
  /\ IsSubset latin1_only
       (mkEntry Article (str "Article") (str "b") {[ str "year" := NumberV 2020 ]} [] 0)
       (mkEntry Article (str "ARTICLE") (str "c")
          {[ str "year" := mkValue NumberType (str "2020") 2020 ]} [] 0) = true
  /\ IsSubset latin1_only (mkEntry Article (str "article") (str "a") ∅ [] 0)
       (mkEntry Article (str "ARTICLE") (str "c")
          {[ str "year" := mkValue NumberType (str "2020") 2020 ]} [] 0) = true.
Proof.
  assert (H1 : IsSubset latin1_only (mkEntry Article (str "article") (str "a") ∅ [] 0)
    (mkEntry Article (str "Article") (str "b") {[ str "year" := NumberV 2020 ]} [] 0) = true)
    by (vm_compute; reflexivity).
  assert (H2 : IsSubset latin1_only
       (mkEntry Article (str "Article") (str "b") {[ str "year" := NumberV 2020 ]} [] 0)
       (mkEntry Article (str "ARTICLE") (str "c")
          {[ str "year" := mkValue NumberType (str "2020") 2020 ]} [] 0) = true)
    by (vm_compute; reflexivity).
  split; [exact H1|]. split; [exact H2|].
  exact (proj1 (proj2 (IsSubset_preorder latin1_only)) _ _ _ H1 H2).
Defined.

(** ** [Less] *)

Lemma string_lt_irrefl (a : gostring) : string_lt a a = false.
Proof.
  induction a as [|x a IH]; [reflexivity|].
  simpl. rewrite N.ltb_irrefl. exact IH.
Qed.

Lemma string_lt_asym (a : gostring) :
  forall b, string_lt a b = true -> string_lt b a = false.
Proof.
  induction a as [|x a IH]; intros [|y b] H; try reflexivity; try discriminate H.
  simpl in *. destruct (N.ltb_spec (bval x) (bval y)).
  - destruct (N.ltb_spec (bval y) (bval x)); [lia|].
    reflexivity.
  - destruct (N.ltb_spec (bval y) (bval x)); [discriminate H|]. apply IH, H.
Qed.

(** X9: [Less] is irreflexive and asymmetric, whatever the symbol
    table; it is not transitive: the numbers 9 and 10 compare as
    integers, but each compares with the string 5 as text, which gives
    the cycle 9 < 10 < 5 < 9. *)
Theorem Less_asymmetric_not_transitive (U : UnicodeTables) (db : Database) :
  (forall v, Less U db v v = false)
  /\ (forall v1 v2, Less U db v1 v2 = true -> Less U db v2 v1 = false)
  /\ (Less U db (NumberV 9) (NumberV 10) = true
      /\ Less U db (NumberV 10) (StringV (str "5")) = true
      /\ Less U db (StringV (str "5")) (NumberV 9) = true).
Proof.
  split; [|split].
  - intros v. unfold Less. cbv zeta.
    set (w := SymbolValue U db v 10).
    destruct (is_text (vT w) && is_text (vT w)).
    + destruct (ParseBraceTree (vS w)) as [[bt n]|]; [|reflexivity].
      apply string_lt_irrefl.
    + destruct (_ && _); [apply Z.ltb_irrefl|apply string_lt_irrefl].
  - intros v1 v2. unfold Less. cbv zeta.
    set (w1 := SymbolValue U db v1 10). set (w2 := SymbolValue U db v2 10).
    rewrite (andb_comm (is_text (vT w2))).
    rewrite (andb_comm (bool_decide (vT w2 = NumberType))).
    destruct (is_text (vT w1) && is_text (vT w2)).
    + destruct (ParseBraceTree (vS w1)) as [[bt1 n1]|],
               (ParseBraceTree (vS w2)) as [[bt2 n2]|]; try discriminate;
        try reflexivity.
      apply string_lt_asym.
    + destruct (_ && _).
      * intros H. apply Z.ltb_lt in H. apply Z.ltb_ge. lia.
      * apply string_lt_asym.
  - repeat split; reflexivity.
Qed.

Lemma Less_asymmetric_not_transitive_witness :
  Less latin1_only NewDatabase (StringV (str "{B}ach")) (StringV (str "Bach2")) = true
  /\ Less latin1_only NewDatabase (StringV (str "Bach2")) (StringV (str "{B}ach")) = false.
Proof.
  assert (H : Less latin1_only NewDatabase (StringV (str "{B}ach")) (StringV (str "Bach2"))
              = true) by (vm_compute; reflexivity).
  split; [exact H|].
  exact (proj1 (proj2 (Less_asymmetric_not_transitive latin1_only NewDatabase)) _ _ H).
Defined.

(** ** [RemoveExactDups]: nothing is lost, nothing is left twice *)

Section ExactDups.
Context (U : UnicodeTables).

Lemma exact_dup_of_refl (e : Entry) : exact_dup_of U e e = true.
Proof.
  unfold exact_dup_of, string_eq. rewrite bool_decide_true by reflexivity.
  apply Entry_Equals_refl.
Qed.

Lemma exact_dup_of_trans (e1 e2 e3 : Entry) :
  exact_dup_of U e1 e2 = true -> exact_dup_of U e2 e3 = true ->
  exact_dup_of U e1 e3 = true.
Proof.
  unfold exact_dup_of, string_eq. intros H H'.
  apply andb_prop in H as [K E]. apply andb_prop in H' as [K' E'].
  apply bool_decide_eq_true in K, K'.
  rewrite bool_decide_true by congruence.
  exact (Entry_Equals_trans U _ _ _ E E').
Qed.

Lemma exact_survivors_elem (pubs : list Entry) (e : Entry) :
  In e (exact_survivors U pubs) -> In e pubs.
Proof.
  intros H. apply list_elem_of_In. apply list_elem_of_In in H.
  exact (elem_of_sublist _ _ _ H (exact_survivors_sublist U pubs)).
Qed.

Lemma existsb_survivors (p : Entry -> bool) (pubs : list Entry) :
  existsb p pubs = false -> existsb p (exact_survivors U pubs) = false.
Proof.
  intros H. apply not_true_is_false. intros H'.
  apply existsb_exists in H' as (x & Hx & Hp).
  assert (Ht : existsb p pubs = true)
    by (apply existsb_exists; exists x; split; [apply exact_survivors_elem, Hx|exact Hp]).
  congruence.
Qed.

Lemma exact_survivors_idem (pubs : list Entry) :
  exact_survivors U (exact_survivors U pubs) = exact_survivors U pubs.
Proof.
  induction pubs as [|e l IH]; [reflexivity|].
  cbn [exact_survivors]. destruct (existsb (exact_dup_of U e) l) eqn:E; [exact IH|].
  cbn [exact_survivors]. rewrite (existsb_survivors _ _ E), IH. reflexivity.
Qed.

Lemma exact_survivors_no_dups (pubs : list Entry) :
  forall i j ei ej,
    (i < j)%nat ->
    exact_survivors U pubs !! i = Some ei -> exact_survivors U pubs !! j = Some ej ->
    exact_dup_of U ei ej = false.
Proof.
  induction pubs as [|e l IH]; intros i j ei ej Hij Hi Hj; [discriminate Hi|].
  cbn [exact_survivors] in Hi, Hj.
  destruct (existsb (exact_dup_of U e) l) eqn:E; [exact (IH i j ei ej Hij Hi Hj)|].
  destruct j as [|j]; [lia|]. destruct i as [|i].
  - injection Hi as <-. simpl in Hj.
    apply not_true_is_false. intros Hd.
    assert (Ht : existsb (exact_dup_of U e) l = true).
    { apply existsb_exists. exists ej. split; [|exact Hd].
      apply exact_survivors_elem. apply list_elem_of_In.
      exact (list_elem_of_lookup_2 _ _ _ Hj). }
    congruence.
  - simpl in Hi, Hj. apply (IH i j); [lia|assumption|assumption].
Qed.

Lemma exact_survivors_lossless (pubs : list Entry) :
  forall e, In e pubs ->
            exists e', In e' (exact_survivors U pubs) /\ exact_dup_of U e e' = true.
Proof.
  induction pubs as [|x l IH]; intros e He; [destruct He|].
  assert (Hrest : forall y, In y l ->
            exists e', In e' (exact_survivors U (x :: l)) /\ exact_dup_of U y e' = true).
  { intros y Hy. destruct (IH y Hy) as (e' & He' & Hd). exists e'. split; [|exact Hd].
    cbn [exact_survivors]. destruct (existsb _ l); [exact He'|right; exact He']. }
  destruct He as [<-|He]; [|apply Hrest, He].
  destruct (existsb (exact_dup_of U x) l) eqn:E.
  - apply existsb_exists in E as (y & Hy & Hd).
    destruct (Hrest y Hy) as (e' & He' & Hd'). exists e'. split; [exact He'|].
    exact (exact_dup_of_trans _ _ _ Hd Hd').
  - exists x. split; [|apply exact_dup_of_refl].
    cbn [exact_survivors]. rewrite E. left. reflexivity.
Qed.

Lemma exact_survivors_live (pubs : list Entry) :
  Forall (fun e => Kind e <> Deleted) pubs ->
  Forall (fun e => Kind e <> Deleted) (exact_survivors U pubs).
Proof.
  intros H. apply Forall_forall. intros e He. rewrite Forall_forall in H.
  apply H. apply list_elem_of_In, exact_survivors_elem, list_elem_of_In, He.
Qed.

Lemma RemoveExactDups_spec (db : Database) (order : list gostring) :
  Forall (fun e => Kind e <> Deleted) (Pubs db) ->
  range_order (bins_by (fun e => Some (ToLower U (Key e))) (Pubs db)) order ->
  RemoveExactDups U order db = Some (map Some (exact_survivors U (Pubs db))).
Proof.
  intros Hlive Hord. unfold RemoveExactDups.
  rewrite (exactDups_mark_spec U (Pubs db) order Hlive Hord).
  rewrite removeDeleted_counted, exact_marked_kept by exact Hlive. reflexivity.
Qed.

(** X10: on a database without deleted entries, whatever the order in
    which the bins are visited, [RemoveExactDups] returns entries [out]
    of which no two have the same key (up to case) and are [Equals];
    every entry of the database has such a copy in [out]; and running
    [RemoveExactDups] again on [out] removes nothing. *)
Theorem RemoveExactDups_complete (db : Database) (order : list gostring) :
  Forall (fun e => Kind e <> Deleted) (Pubs db) ->
  range_order (bins_by (fun e => Some (ToLower U (Key e))) (Pubs db)) order ->
  exists out,
    RemoveExactDups U order db = Some (map Some out)
    /\ (forall i j ei ej, (i < j)%nat -> out !! i = Some ei -> out !! j = Some ej ->
                          exact_dup_of U ei ej = false)
    /\ (forall e, In e (Pubs db) -> exists e', In e' out /\ exact_dup_of U e e' = true)
    /\ (forall order',
          range_order (bins_by (fun e => Some (ToLower U (Key e))) out) order' ->
          RemoveExactDups U order'
            (mkDatabase out (Symbols db) (Preamble db) (Errors db))
          = Some (map Some out)).
Proof.
  intros Hlive Hord. exists (exact_survivors U (Pubs db)).
  split; [apply RemoveExactDups_spec; assumption|].
  split; [apply exact_survivors_no_dups|].
  split; [apply exact_survivors_lossless|].
  intros order' Hord'.
  rewrite RemoveExactDups_spec; cbn [Pubs];
    [rewrite exact_survivors_idem; reflexivity|apply exact_survivors_live, Hlive|exact Hord'].
Qed.

End ExactDups.

(** ** Splitting plain strings *)

Lemma split_commas_nonempty (s cur : gostring) : split_commas cur s <> [].
Proof.
  revert cur. induction s as [|b t IH]; intros cur; [discriminate|].
  simpl. destruct (bool_decide (b = comma)); [discriminate|apply IH].
Qed.

Lemma split_commas_Join (s : gostring) :
  forall cur, Join (split_commas cur s) [comma] = cur ++ s.
Proof.
  induction s as [|b t IH]; intros cur.
  - simpl. rewrite app_nil_r. reflexivity.
  - cbn [split_commas]. destruct (decide (b = comma)) as [->|Hb].
    + rewrite bool_decide_true by reflexivity.
      rewrite Join_cons by apply split_commas_nonempty. rewrite IH. reflexivity.
    + rewrite bool_decide_false by exact Hb. rewrite IH, <- app_assoc. reflexivity.
Qed.

Lemma split_commas_length (s : gostring) :
  forall cur,
    length (split_commas cur s)
    = S (length (List.filter (fun b => bool_decide (b = comma)) s)).
Proof.
  induction s as [|b t IH]; intros cur; [reflexivity|].
  cbn [split_commas List.filter]. destruct (bool_decide (b = comma)).
  - cbn [length]. rewrite IH. reflexivity.
  - apply IH.
Qed.

(** X11: on a plain string, [splitOnTopLevelString] with the separator
    comma (and no white space required around it) returns one part more
    than there are commas, no part contains a comma, and the parts
    joined with commas give the string back. *)
Theorem splitOnTopLevelString_comma_Join (U : UnicodeTables) (s : gostring) :
  plain s = true ->
  Join (splitOnTopLevelString U s (str ",") false) (str ",") = s
  /\ forallb nocomma (splitOnTopLevelString U s (str ",") false) = true
  /\ length (splitOnTopLevelString U s (str ",") false)
     = S (length (List.filter (fun b => bool_decide (b = comma)) s)).
Proof.
  intros Hp. rewrite splitOnTopLevelString_plain by exact Hp.
  split; [apply (split_commas_Join s [])|].
  split; [apply split_commas_nocomma; reflexivity|apply split_commas_length].
Qed.

Lemma splitOnTopLevelString_comma_Join_witness :
  Join (splitOnTopLevelString latin1_only (str "von Moo, Jr, Henry") (str ",") false)
       (str ",") = str "von Moo, Jr, Henry".
Proof.
  apply (splitOnTopLevelString_comma_Join latin1_only (str "von Moo, Jr, Henry")).
  reflexivity.
Defined.

Lemma words_of_concat (s : gostring) :
  forall cur,
    concat (words_of cur s) = cur ++ List.filter (fun b => negb (is_space b)) s.
Proof.
  induction s as [|b t IH]; intros cur.
  - simpl. destruct (decide (cur = [])) as [->|H].
    + rewrite bool_decide_true by reflexivity. reflexivity.
    + rewrite bool_decide_false by exact H. simpl. rewrite app_nil_r. reflexivity.
  - cbn [words_of List.filter]. destruct (is_space b); cbn [negb].
    + destruct (decide (cur = [])) as [->|H].
      * rewrite bool_decide_true by reflexivity. apply IH.
      * rewrite bool_decide_false by exact H. cbn [concat]. rewrite IH. reflexivity.
    + rewrite IH, <- app_assoc. reflexivity.
Qed.

Lemma filter_drop_spaces (s : gostring) :
  List.filter (fun b => negb (is_space b)) (drop_spaces s)
  = List.filter (fun b => negb (is_space b)) s.
Proof.
  induction s as [|b t IH]; [reflexivity|].
  cbn [drop_spaces List.filter]. destruct (is_space b) eqn:E; cbn [negb].
  - exact IH.
  - cbn [List.filter]. rewrite E. reflexivity.
Qed.

Lemma filter_rev {A} (p : A -> bool) (l : list A) :
  List.filter p (rev l) = rev (List.filter p l).
Proof.
  induction l as [|x l IH]; [reflexivity|].
  simpl. rewrite List.filter_app, IH. simpl. destruct (p x); simpl.
  - reflexivity.
  - rewrite app_nil_r. reflexivity.
Qed.

Lemma filter_trim (s : gostring) :
  List.filter (fun b => negb (is_space b)) (trim s)
  = List.filter (fun b => negb (is_space b)) s.
Proof.
  unfold trim. rewrite filter_rev, filter_drop_spaces, filter_rev, rev_involutive.
  apply filter_drop_spaces.
Qed.

(** X12: on a plain string, the words [splitOnTopLevel] returns are
    not empty and hold no white space, and put together they are the
    string with its white space removed. *)
Theorem splitOnTopLevel_words (s : gostring) :
  plain s = true ->
  Forall clean (splitOnTopLevel s)
  /\ concat (splitOnTopLevel s) = List.filter (fun b => negb (is_space b)) s.
Proof.
  intros Hp. rewrite splitOnTopLevel_plain by exact Hp. split.
  - apply words_of_clean. reflexivity.
  - rewrite words_of_concat. apply filter_trim.
Qed.

Lemma splitOnTopLevel_words_witness :
  Forall clean (splitOnTopLevel (str " Henry  von Moo "))
  /\ concat (splitOnTopLevel (str " Henry  von Moo "))
     = List.filter (fun b => negb (is_space b)) (str " Henry  von Moo ").
Proof. apply splitOnTopLevel_words. reflexivity. Defined.

(** ** [parseVon] and [NormalizeName]: when they panic *)

Lemma words_of_nil (s : gostring) :
  words_of [] s = [] <-> forallb is_space s = true.
Proof.
  assert (H : forall s cur, cur <> [] -> words_of cur s <> []).
  { clear s. induction s as [|b t IH]; intros cur Hc; cbn [words_of].
    - rewrite bool_decide_false by exact Hc. intros E. discriminate E.
    - destruct (is_space b).
      + rewrite bool_decide_false by exact Hc. intros E. discriminate E.
      + apply IH. intros E. apply app_eq_nil in E as [_ E]. discriminate E. }
  induction s as [|b t IH]; [simpl; tauto|].
  cbn [words_of forallb]. destruct (is_space b).
  - rewrite bool_decide_true by reflexivity. exact IH.
  - split; [|discriminate]. intros E. exfalso. exact (H t ([] ++ [b]) ltac:(discriminate) E).
Qed.

Lemma drop_spaces_nil (s : gostring) :
  drop_spaces s = [] <-> forallb is_space s = true.
Proof.
  induction s as [|b t IH]; [simpl; tauto|].
  cbn [drop_spaces forallb]. destruct (is_space b); [exact IH|].
  split; discriminate.
Qed.

Lemma trim_nil (s : gostring) : trim s = [] <-> forallb is_space s = true.
Proof.
  unfold trim. split.
  - intros H. apply (f_equal (@rev _)) in H. rewrite rev_involutive in H. simpl in H.
    apply drop_spaces_nil in H. rewrite forallb_rev in H.
    destruct (drop_spaces_suffix s) as (pre & Hs & Hpre).
    rewrite Hs, forallb_app, H, andb_true_r. exact Hpre.
  - intros H. apply drop_spaces_nil in H. rewrite H. reflexivity.
Qed.

Lemma trim_idem (s : gostring) : trim (trim s) = trim s.
Proof. apply trim_trimmed, trimmed_trim. Qed.

Lemma filter_no_comma (s : gostring) :
  ~ In comma s -> List.filter (fun b => bool_decide (b = comma)) s = [].
Proof.
  induction s as [|b t IH]; [reflexivity|]. intros H.
  cbn [List.filter]. rewrite bool_decide_false by (intros ->; apply H; left; reflexivity).
  apply IH. intros Hin. apply H. right. exact Hin.
Qed.

Section NamePanics.
Context (U : UnicodeTables).

Lemma parseVon_None (l : list gostring) : parseVon U l = None <-> l = [].
Proof.
  destruct l as [|a [|b t]]; [tauto|split; discriminate|].
  rewrite parseVon_long by (simpl; lia). split; discriminate.
Qed.

Lemma parseVon_words_None (c : gostring) :
  plain c = true ->
  parseVon U (splitOnTopLevel (trim c)) = None <-> trim c = [].
Proof.
  intros Hp. rewrite parseVon_None, splitOnTopLevel_plain by (apply forallb_trim, Hp).
  rewrite words_of_nil, <- trim_nil, !trim_idem. tauto.
Qed.

Lemma outcome_cases (r : option (option Author)) (P Q : Prop) :
  (r = None /\ P /\ ~ Q) \/ (r = Some None /\ ~ P /\ Q)
  \/ ((exists a, r = Some (Some a)) /\ ~ P /\ ~ Q) ->
  (r = None <-> P) /\ (r = Some None <-> Q).
Proof.
  intros [(-> & HP & HQ)|[(-> & HP & HQ)|((a & ->) & HP & HQ)]];
    (split; split; intros H; try discriminate H; tauto).
Qed.

(** X13: what [NormalizeName] does with a plain name, by the number of
    parts between its commas.  It panics exactly when the name has one or
    two commas and nothing but white space before the first; it returns
    [nil] exactly when the name is blank or has three commas or more; in
    every other case it returns an author. *)
Theorem NormalizeName_outcome (name : gostring) :
  plain name = true ->
  (NormalizeName U name = None <->
   (length (split_commas [] (trim name)) = 2%nat
    \/ length (split_commas [] (trim name)) = 3%nat)
   /\ trim (hd [] (split_commas [] (trim name))) = [])
  /\ (NormalizeName U name = Some None <->
      trim name = [] \/ (4 <= length (split_commas [] (trim name)))%nat).
Proof.
  intros Hpl. apply outcome_cases. unfold NormalizeName. cbv zeta.
  rewrite (TrimSpace_ascii name) by (apply plain_ascii, Hpl).
  assert (Hn : plain (trim name) = true) by (apply forallb_trim, Hpl).
  assert (Htn : trim (trim name) = trim name) by apply trim_idem.
  remember (trim name) as n eqn:Hndef. clear Hndef.
  destruct (decide (n = [])) as [->|Hne].
  { right. left. cbn. split; [reflexivity|]. split; [|left; reflexivity].
    intros [[H|H] _]; discriminate H. }
  replace (Nat.eqb (length n) 0) with false by (destruct n; [congruence|reflexivity]).
  destruct (string_eq (ToLower U n) (str "others")) eqn:Eo.
  { assert (Hnc : ~ In comma n).
    { intros Hin. rewrite (others_has_no_comma U n Hn Hin) in Eo. discriminate Eo. }
    rewrite (split_commas_length n []), (filter_no_comma n Hnc). cbn [length].
    right. right. split; [eauto|]. split.
    - intros [[H|H] _]; discriminate H.
    - intros [H|H]; [contradiction|lia]. }
  rewrite splitOnTopLevelString_plain by exact Hn.
  pose proof (split_commas_forallb plain_byte n [] eq_refl Hn) as Hpp.
  pose proof (split_commas_Join n []) as HJ.
  pose proof (split_commas_nonempty n []) as Hparts.
  destruct (split_commas [] n) as [|c0 [|c1 [|c2 [|c3 t]]]]; [congruence| | | |].
  - (* one part: the whole name *)
    simpl in HJ. rewrite app_nil_r in HJ. subst c0.
    cbn [map length hd]. rewrite (TrimSpace_ascii n) by (apply plain_ascii, Hn).
    unfold parseNameParts.
    destruct (parseNameParts_loop U (splitOnTopLevel (trim n)) [] [])
      as [first rest] eqn:EL.
    apply parseNameParts_loop_start in EL as (fw & Hws & _ & Hrest).
    assert (Hw : splitOnTopLevel (trim n) <> []).
    { rewrite splitOnTopLevel_plain by (apply forallb_trim, Hn).
      rewrite words_of_nil, <- trim_nil, !Htn. exact Hne. }
    destruct (parseVon U rest) as [[v l]|] eqn:EV.
    + right. right. split; [eauto|]. split.
      * intros [[H|H] _]; discriminate H.
      * intros [H|H]; [contradiction|lia].
    + exfalso. apply parseVon_None in EV. exact (Hrest Hw EV).
  - (* two parts *)
    cbn [forallb] in Hpp. apply andb_prop in Hpp as [Hp0 _].
    cbn [map length hd]. rewrite (TrimSpace_ascii c0) by (apply plain_ascii, Hp0).
    pose proof (parseVon_words_None c0 Hp0) as HV.
    destruct (parseVon U (splitOnTopLevel (trim c0))) as [[v l]|].
    + right. right. split; [eauto|]. split.
      * intros [_ H]. apply HV in H. discriminate H.
      * intros [H|H]; [contradiction|lia].
    + left. split; [reflexivity|]. split.
      * split; [left; reflexivity|]. apply HV. reflexivity.
      * intros [H|H]; [contradiction|lia].
  - (* three parts *)
    cbn [forallb] in Hpp. apply andb_prop in Hpp as [Hp0 _].
    cbn [map length hd]. rewrite (TrimSpace_ascii c0) by (apply plain_ascii, Hp0).
    pose proof (parseVon_words_None c0 Hp0) as HV.
    destruct (parseVon U (splitOnTopLevel (trim c0))) as [[v l]|].
    + right. right. split; [eauto|]. split.
      * intros [_ H]. apply HV in H. discriminate H.
      * intros [H|H]; [contradiction|lia].
    + left. split; [reflexivity|]. split.
      * split; [right; reflexivity|]. apply HV. reflexivity.
      * intros [H|H]; [contradiction|lia].
  - (* four parts or more *)
    cbn [map length hd]. right. left. split; [reflexivity|]. split.
    + intros [[H|H] _]; discriminate H.
    + right. lia.
Qed.

End NamePanics.

Lemma NormalizeName_outcome_witness :
  NormalizeName latin1_only (str " , Henry") = None
  /\ NormalizeName latin1_only (str "a, b, c, d") = Some None.
Proof.
  destruct (NormalizeName_outcome latin1_only (str " , Henry") eq_refl) as [H1 _].
  destruct (NormalizeName_outcome latin1_only (str "a, b, c, d") eq_refl) as [_ H2].
  split.
  - apply H1. split; [left; reflexivity|reflexivity].
  - apply H2. right. vm_compute. lia.
Defined.

(** ** The lexer *)

Lemma consume_app (a b rest : list rune) (l : Lexer) :
  consume (a ++ b) rest l = consume b rest (consume a (b ++ rest) l).
Proof.
  revert l. induction a as [|c a IH]; intros l; [reflexivity|].
  cbn [app consume]. rewrite IH, <- app_assoc. reflexivity.
Qed.

Lemma advance_err (c : rune) (rest : list rune) (l : Lexer) :
  err (advance c rest l) = err l.
Proof. unfold advance. destruct (c =? r_newline); reflexivity. Qed.

Lemma advance_ch (c : rune) (rest : list rune) (l : Lexer) :
  ch (advance c rest l) = c /\ stream (advance c rest l) = rest.
Proof. unfold advance. destruct (c =? r_newline); auto. Qed.

Lemma consume_err (rs rest : list rune) (l : Lexer) : err (consume rs rest l) = err l.
Proof.
  revert l. induction rs as [|c rs IH]; intros l; [reflexivity|].
  cbn [consume]. rewrite IH. apply advance_err.
Qed.

Lemma nextRune_cons (l : Lexer) (c : rune) (rest : list rune) :
  stream l = c :: rest -> nextRune l = (true, advance c rest l).
Proof. intros H. unfold nextRune. rewrite H. reflexivity. Qed.

Lemma nextRune_nil (l : Lexer) : stream l = [] -> nextRune l = (false, at_eof l).
Proof. intros H. unfold nextRune. rewrite H. reflexivity. Qed.

Lemma readBracesString_loop_braced (body : list rune) :
  braced body ->
  forall (tail : list rune) (l : Lexer) (b : list rune) (d : Z),
    (1 <= d)%Z ->
    readBracesString_loop (body ++ tail) l false b d
    = readBracesString_loop tail (consume body tail l) false (b ++ body) d.
Proof.
  induction 1 as [|r s Hl Hr Hb _ IH|c s _ IH|body s _ IHb _ IHs];
    intros tail l b d Hd.
  - rewrite app_nil_r. reflexivity.
  - cbn [app readBracesString_loop consume].
    destruct (N.eqb_spec r r_lbrace) as [|_]; [contradiction|].
    destruct (N.eqb_spec r r_rbrace) as [|_]; [contradiction|].
    destruct (N.eqb_spec r r_backslash) as [|_]; [contradiction|].
    cbn [andb negb]. destruct (Z.eqb_spec d 0); [lia|].
    rewrite IH by exact Hd. rewrite <- app_assoc. reflexivity.
  - cbn [app readBracesString_loop consume].
    change (r_backslash =? r_lbrace) with false.
    change (r_backslash =? r_rbrace) with false.
    change (r_backslash =? r_backslash) with true.
    cbn [andb negb]. destruct (Z.eqb_spec d 0); [lia|].
    rewrite !andb_false_r. destruct (Z.eqb_spec d 0); [lia|].
    rewrite IH by exact Hd. rewrite <- !app_assoc. reflexivity.
  - cbn [app readBracesString_loop consume].
    change (r_lbrace =? r_lbrace) with true.
    change (r_lbrace =? r_backslash) with false.
    cbn [andb negb]. destruct (Z.eqb_spec (d + 1) 0); [lia|].
    rewrite <- app_assoc. cbn [app].
    rewrite IHb by lia.
    cbn [readBracesString_loop].
    change (r_rbrace =? r_lbrace) with false.
    change (r_rbrace =? r_rbrace) with true.
    change (r_rbrace =? r_backslash) with false.
    cbn [andb negb]. replace (d + 1 - 1)%Z with d by lia.
    destruct (Z.eqb_spec d 0); [lia|].
    rewrite IHs by exact Hd.
    rewrite (consume_app body (r_rbrace :: s) tail). cbn [consume app].
    rewrite <- !app_assoc. reflexivity.
Qed.

(** X14: with brace strings on, at an opening brace, [NextToken]
    returns the text up to the matching closing brace as one STRING
    token, braces nested or escaped by a backslash included verbatim,
    and stops at the rune after the closing brace; but when the closing
    brace is the last rune of the input, it reports an error and returns
    no token. *)
Theorem NextToken_brace_string (l : Lexer) (body : list rune) :
  ch l = r_lbrace -> err l = false -> braced body ->
  (forall c rest,
      stream l = body ++ r_rbrace :: c :: rest ->
      exists tok l',
        NextToken true l = (Some tok, l')
        /\ TokType tok = STRING /\ Literal tok = string_of_runes body
        /\ ch l' = c /\ stream l' = rest /\ err l' = false)
  /\ (stream l = body ++ [r_rbrace] ->
      exists l', NextToken true l = (None, l') /\ err l' = true).
Proof.
  intros Hch Herr Hb.
  assert (Hskip : skipWhitespace l = l).
  { unfold skipWhitespace. rewrite Hch. reflexivity. }
  assert (Hnext : forall tail,
             stream l = body ++ r_rbrace :: tail ->
             NextToken true l
             = let l1 := snd (nextRune (advance r_rbrace tail (consume body (r_rbrace :: tail) l))) in
               if err l1 then (None, l1)
               else (Some (newToken l1 STRING (string_of_runes body)), l1)).
  { intros tail Hs. unfold NextToken. rewrite Hskip, Herr, Hch.
    cbn [N.eqb Pos.eqb r_lbrace negb].
    unfold readBracesString. rewrite Hs.
    rewrite (readBracesString_loop_braced body Hb) by lia.
    cbn [readBracesString_loop].
    change (r_rbrace =? r_lbrace) with false.
    change (r_rbrace =? r_rbrace) with true.
    cbn [andb negb Z.sub Z.add Z.eqb Z.opp Z.pos_sub app]. reflexivity. }
  split.
  - intros c rest Hs. rewrite (Hnext _ Hs). cbv zeta.
    rewrite (nextRune_cons _ c rest) by apply advance_ch. cbn [snd].
    rewrite !advance_err, consume_err, Herr.
    eexists _, _. split; [reflexivity|].
    split; [reflexivity|]. split; [reflexivity|].
    split; [apply advance_ch|]. split; [apply advance_ch|].
    rewrite !advance_err, consume_err. exact Herr.
  - intros Hs. rewrite (Hnext _ Hs). cbv zeta.
    rewrite nextRune_nil by apply advance_ch. cbn [snd at_eof err].
    eexists. split; reflexivity.
Qed.

Lemma NextToken_brace_string_witness :
  exists tok l',
    NextToken true (Lexer_New (str "{a{b}\}c} ,")) = (Some tok, l')
    /\ TokType tok = STRING /\ Literal tok = str "a{b}\}c"
    /\ ch l' = 32 /\ stream l' = [44] /\ err l' = false.
Proof.
  assert (Hb : braced (runes (str "a{b}\}c"))).
  { apply braced_rune; [discriminate..|].
    apply (braced_group [98] [92; 125; 99]).
    - apply braced_rune; [discriminate..|apply braced_nil].
    - apply braced_escape. apply braced_rune; [discriminate..|apply braced_nil]. }
  exact (proj1 (NextToken_brace_string (Lexer_New (str "{a{b}\}c} ,")) _
                  eq_refl eq_refl Hb) 32 [44] eq_refl).
Defined.

Lemma readQuoteString_loop_quoted (body : list rune) :
  quoted body ->
  forall (tail : list rune) (l : Lexer) (b : list rune),
    readQuoteString_loop (body ++ tail) l false b
    = readQuoteString_loop tail (consume body tail l) false (b ++ body).
Proof.
  induction 1 as [|r s Hq Hb _ IH|c s _ IH]; intros tail l b.
  - rewrite app_nil_r. reflexivity.
  - cbn [app readQuoteString_loop consume].
    destruct (N.eqb_spec r r_quote) as [|_]; [contradiction|].
    destruct (N.eqb_spec r r_backslash) as [|_]; [contradiction|].
    cbn [andb negb]. rewrite IH, <- app_assoc. reflexivity.
  - cbn [app readQuoteString_loop consume].
    change (r_backslash =? r_quote) with false.
    change (r_backslash =? r_backslash) with true.
    cbn [andb negb]. rewrite !andb_false_r.
    rewrite IH, <- !app_assoc. reflexivity.
Qed.

(** X15: at a double quote, [NextToken] returns the text up to the
    next double quote that no backslash escapes as one STRING token, the
    escaped quotes and their backslashes included verbatim, and stops at
    the rune after the closing quote; when the closing quote is the last
    rune of the input, it reports an error and returns no token. *)
Theorem NextToken_quote_string (bs : bool) (l : Lexer) (body : list rune) :
  ch l = r_quote -> err l = false -> quoted body ->
  (forall c rest,
      stream l = body ++ r_quote :: c :: rest ->
      exists tok l',
        NextToken bs l = (Some tok, l')
        /\ TokType tok = STRING /\ Literal tok = string_of_runes body
        /\ ch l' = c /\ stream l' = rest /\ err l' = false)
  /\ (stream l = body ++ [r_quote] ->
      exists l', NextToken bs l = (None, l') /\ err l' = true).
Proof.
  intros Hch Herr Hb.
  assert (Hskip : skipWhitespace l = l).
  { unfold skipWhitespace. rewrite Hch. reflexivity. }
  assert (Hnext : forall tail,
             stream l = body ++ r_quote :: tail ->
             NextToken bs l
             = let l1 := snd (nextRune (advance r_quote tail (consume body (r_quote :: tail) l))) in
               if err l1 then (None, l1)
               else (Some (newToken l1 STRING (string_of_runes body)), l1)).
  { intros tail Hs. unfold NextToken. rewrite Hskip, Herr, Hch.
    cbn [N.eqb Pos.eqb r_quote negb].
    unfold readQuoteString. rewrite Hs.
    rewrite (readQuoteString_loop_quoted body Hb).
    cbn [readQuoteString_loop].
    change (r_quote =? r_quote) with true.
    cbn [andb negb app]. reflexivity. }
  split.
  - intros c rest Hs. rewrite (Hnext _ Hs). cbv zeta.
    rewrite (nextRune_cons _ c rest) by apply advance_ch. cbn [snd].
    rewrite !advance_err, consume_err, Herr.
    eexists _, _. split; [reflexivity|].
    split; [reflexivity|]. split; [reflexivity|].
    split; [apply advance_ch|]. split; [apply advance_ch|].
    rewrite !advance_err, consume_err. exact Herr.
  - intros Hs. rewrite (Hnext _ Hs). cbv zeta.
    rewrite nextRune_nil by apply advance_ch. cbn [snd at_eof err].
    eexists. split; reflexivity.
Qed.

Lemma NextToken_quote_string_witness :
  exists tok l',
    NextToken false (mkLexer [97; 92; 34; 98; 34; 44] 34 false 1 2) = (Some tok, l')
    /\ TokType tok = STRING /\ Literal tok = string_of_runes [97; 92; 34; 98]
    /\ ch l' = 44 /\ stream l' = [] /\ err l' = false.
Proof.
  assert (Hb : quoted [97; 92; 34; 98]).
  { apply quoted_rune; [discriminate..|]. apply quoted_escape.
    apply quoted_rune; [discriminate..|apply quoted_nil]. }
  exact (proj1 (NextToken_quote_string false
                  (mkLexer [97; 92; 34; 98; 34; 44] 34 false 1 2) _
                  eq_refl eq_refl Hb) 44 [] eq_refl).
Defined.

Lemma readIdent_loop_run (body : list rune) :
  forallb (fun c => negb (IsSpace c || is_special c)) body = true ->
  forall (tail : list rune) (l : Lexer) (b : list rune),
    readIdent_loop (body ++ tail) l b
    = readIdent_loop tail (consume body tail l) (b ++ body).
Proof.
  induction body as [|c body IH]; intros H tail l b.
  - rewrite app_nil_r. reflexivity.
  - cbn [forallb] in H. apply andb_prop in H as [Hc Hb].
    apply negb_true_iff in Hc.
    cbn [app readIdent_loop consume]. rewrite Hc.
    rewrite IH by exact Hb. rewrite <- app_assoc. reflexivity.
Qed.

Lemma NextToken_ident_run (bs : bool) (l : Lexer) (body : list rune) :
  IsSpace (ch l) = false -> starts_token (ch l) = false -> err l = false ->
  forallb (fun c => negb (IsSpace c || is_special c)) body = true ->
  (forall c rest,
      stream l = body ++ c :: rest -> IsSpace c || is_special c = true ->
      exists tok l',
        NextToken bs l = (Some tok, l')
        /\ TokType tok = IDENT /\ Literal tok = string_of_runes (ch l :: body)
        /\ ch l' = c /\ stream l' = rest /\ err l' = false)
  /\ (stream l = body ->
      exists l', NextToken bs l = (None, l') /\ err l' = true /\ stream l' = []).
Proof.
  intros Hsp Hst Herr Hbody.
  assert (Hskip : skipWhitespace l = l).
  { unfold skipWhitespace. rewrite Hsp. reflexivity. }
  unfold starts_token in Hst. cbn [existsb] in Hst.
  repeat (apply orb_false_elim in Hst as [?E Hst]).
  assert (Hnext : NextToken bs l
                  = let '(s, e, l') := readIdent l in
                    if e then (None, l') else (Some (newToken l' IDENT s), l')).
  { unfold NextToken. rewrite Hskip, Herr. cbv zeta.
    rewrite E, E0, E1, E2, E3, E4, E5, E6, E7. reflexivity. }
  rewrite Hnext. unfold readIdent. split.
  - intros c rest Hs Hc. rewrite Hs, (readIdent_loop_run body Hbody).
    cbn [readIdent_loop]. rewrite Hc, advance_err, consume_err, Herr.
    eexists _, _. split; [reflexivity|].
    split; [reflexivity|]. split; [reflexivity|].
    split; [apply advance_ch|]. split; [apply advance_ch|].
    rewrite advance_err, consume_err. exact Herr.
  - intros Hs. rewrite Hs.
    replace (readIdent_loop body l [ch l]) with (readIdent_loop (body ++ []) l [ch l])
      by (rewrite app_nil_r; reflexivity).
    rewrite (readIdent_loop_run body Hbody). cbn [readIdent_loop].
    eexists. split; [reflexivity|]. split; reflexivity.
Qed.

(** X16: at a rune that is neither white space nor one of the
    characters that start a token of their own, [NextToken] returns an
    IDENT token: that rune and the runes after it up to the first white
    space or special character, where it stops.  An identifier that runs
    to the end of the input is not returned: [NextToken] reports an
    error and gives no token. *)
Theorem NextToken_ident (bs : bool) (l : Lexer) (body : list rune) :
  IsSpace (ch l) = false -> starts_token (ch l) = false -> err l = false ->
  forallb (fun c => negb (IsSpace c || is_special c)) body = true ->
  (forall c rest,
      stream l = body ++ c :: rest -> IsSpace c || is_special c = true ->
      exists tok l',
        NextToken bs l = (Some tok, l')
        /\ TokType tok = IDENT /\ Literal tok = string_of_runes (ch l :: body)
        /\ ch l' = c /\ stream l' = rest /\ err l' = false)
  /\ (stream l = body ->
      exists l', NextToken bs l = (None, l') /\ err l' = true).
Proof.
  intros Hsp Hst Herr Hbody.
  destruct (NextToken_ident_run bs l body Hsp Hst Herr Hbody) as [H1 H2].
  split; [exact H1|]. intros Hs. destruct (H2 Hs) as (l' & H & He & _). eauto.
Qed.

Lemma NextToken_ident_witness :
  (exists tok l',
      NextToken false (Lexer_New (str "title = x")) = (Some tok, l')
      /\ TokType tok = IDENT /\ Literal tok = str "title")
  /\ (exists l', NextToken false (Lexer_New (str "title")) = (None, l')
                 /\ err l' = true).
Proof.
  split.
  - destruct (proj1 (NextToken_ident false (Lexer_New (str "title = x"))
                       (runes (str "itle")) eq_refl eq_refl eq_refl eq_refl)
                32 (runes (str "= x")) eq_refl eq_refl)
      as (tok & l' & H & HT & HL & _).
    exists tok, l'. split; [exact H|]. split; [exact HT|exact HL].
  - exact (proj2 (NextToken_ident false (Lexer_New (str "title"))
                    (runes (str "itle")) eq_refl eq_refl eq_refl eq_refl) eq_refl).
Defined.

Lemma skipWhitespace_loop_spaces (rs : list rune) :
  forall l, forallb IsSpace rs = true ->
            err (skipWhitespace_loop rs l) = true
            /\ stream (skipWhitespace_loop rs l) = [].
Proof.
  induction rs as [|c rs IH]; intros l H; [split; reflexivity|].
  cbn [forallb] in H. apply andb_prop in H as [Hc Hrs].
  cbn [skipWhitespace_loop]. rewrite Hc. cbn [negb]. apply IH, Hrs.
Qed.

Lemma NextToken_at_end (bs : bool) (l : Lexer) :
  (err l = true /\ stream l = [])
  \/ (IsSpace (ch l) = true /\ forallb IsSpace (stream l) = true) ->
  exists l', NextToken bs l = (Some EOFToken, l') /\ err l' = true /\ stream l' = [].
Proof.
  intros H.
  assert (Hs : err (skipWhitespace l) = true /\ stream (skipWhitespace l) = []).
  { unfold skipWhitespace. destruct H as [[He Hst]|[Hsp Hall]].
    - destruct (IsSpace (ch l)); cbn [negb]; [|auto].
      rewrite Hst. split; reflexivity.
    - rewrite Hsp. cbn [negb]. apply skipWhitespace_loop_spaces, Hall. }
  unfold NextToken. destruct Hs as [He Hst]. rewrite He. eauto.
Qed.

(** X17: an input that is empty or holds nothing but (ASCII) white
    space parses to the empty database, without a parser error. *)
Theorem parse_blank (U : UnicodeTables) (input : gostring) :
  forallb (fun b => is_ascii b && is_space b) input = true ->
  exists p, parse U input = Ok (NewDatabase, p) /\ errors p = [].
Proof.
  intros H.
  assert (Ha : forallb is_ascii input = true /\ forallb is_space input = true).
  { clear -H. induction input as [|b t IH]; [auto|].
    cbn [forallb] in *. apply andb_prop in H as [Hb Ht].
    apply andb_prop in Hb as [-> ->]. destruct (IH Ht) as [-> ->]. auto. }
  destruct Ha as [Ha Hsp].
  assert (H0 : (err (Lexer_New input) = true /\ stream (Lexer_New input) = [])
               \/ (IsSpace (ch (Lexer_New input)) = true
                   /\ forallb IsSpace (stream (Lexer_New input)) = true)).
  { unfold Lexer_New. rewrite runes_ascii by exact Ha.
    destruct input as [|b t]; [left; split; reflexivity|right].
    cbn [forallb] in Hsp. apply andb_prop in Hsp as [Hb Ht].
    cbn [map nextRune stream snd].
    destruct (advance_ch (bval b) (map bval t) (mkLexer (bval b :: map bval t) 0 false 1 1))
      as [-> ->].
    split; [exact Hb|]. clear -Ht. induction t as [|c t IH]; [reflexivity|].
    cbn [forallb map] in *. apply andb_prop in Ht as [Hc Ht].
    unfold is_space in Hc. rewrite Hc, (IH Ht). reflexivity. }
  destruct (NextToken_at_end false _ H0) as (l1 & E1 & He1 & Hs1).
  destruct (NextToken_at_end false l1 (or_introl (conj He1 Hs1))) as (l2 & E2 & He2 & Hs2).
  unfold parse, NewParser, bind, advanceTokens. cbn [lex bracesAsString].
  rewrite E1. cbn [lex bracesAsString curToken peekToken errors]. rewrite E2.
  unfold ParseBibTeX, bind, set_bracesAsString, get, loop_bound.
  cbn [lex stream]. rewrite Hs2. cbn [length Nat.add ParseBibTeX_loop].
  unfold bind, cur. cbn [curToken EOFToken TokType].
  rewrite bool_decide_true by reflexivity. unfold ret.
  eexists. split; reflexivity.
Qed.

Lemma parse_blank_witness :
  exists p, parse latin1_only (str "  ") = Ok (NewDatabase, p) /\ errors p = [].
Proof. apply parse_blank. reflexivity. Defined.

(** X18: an input that is one bare word (ASCII, no white space, none
    of the special characters) makes the parser panic: the lexer gives no
    token for an identifier that runs to the end of the input, so
    [NewParser] leaves [curToken] nil and [ParseBibTeX] dereferences
    it. *)
Theorem parse_bare_word_panics (U : UnicodeTables) (b : byte) (t : gostring) :
  forallb is_ascii (b :: t) = true ->
  IsSpace (bval b) = false -> starts_token (bval b) = false ->
  forallb (fun c => negb (IsSpace (bval c) || is_special (bval c))) t = true ->
  parse U (b :: t) = Panic.
Proof.
  intros Ha Hsp Hst Ht.
  set (l0 := Lexer_New (b :: t)).
  assert (Hl0 : ch l0 = bval b /\ stream l0 = map bval t /\ err l0 = false).
  { unfold l0, Lexer_New. rewrite runes_ascii by exact Ha.
    cbn [map nextRune stream snd].
    split; [apply advance_ch|]. split; [apply advance_ch|apply advance_err]. }
  destruct Hl0 as (Hch & Hs & He).
  assert (Hbody : forallb (fun c => negb (IsSpace c || is_special c)) (map bval t) = true).
  { clear -Ht. induction t as [|c t IH]; [reflexivity|].
    cbn [forallb map] in *. apply andb_prop in Ht as [-> Ht]. exact (IH Ht). }
  destruct (proj2 (NextToken_ident_run false l0 (map bval t)
                     ltac:((rewrite Hch; exact Hsp)) ltac:((rewrite Hch; exact Hst))
                     He Hbody) Hs) as (l1 & E1 & He1 & Hs1).
  destruct (NextToken_at_end false l1 (or_introl (conj He1 Hs1))) as (l2 & E2 & _).
  unfold parse, NewParser, bind, advanceTokens. cbn [lex bracesAsString].
  fold l0. rewrite E1. cbn [lex bracesAsString curToken peekToken errors]. rewrite E2.
  unfold ParseBibTeX, bind, set_bracesAsString, get, loop_bound.
  cbn [lex stream Nat.add ParseBibTeX_loop]. reflexivity.
Qed.

Lemma parse_bare_word_panics_witness : parse latin1_only (str "abc") = Panic.
Proof. apply parse_bare_word_panics; reflexivity. Defined.

(** ** Title fingerprints *)

Section TitleHash.
Context (U : UnicodeTables).

(** X19: two entries whose titles are valid UTF-8 with balanced braces
    and differ only in their braces have the same title fingerprint. *)
Theorem titleHash_ignores_braces (e1 e2 : Entry) (s1 s2 : gostring) (i1 i2 : Z) :
  Fields e1 !! str "title" = Some (mkValue StringType s1 i1) ->
  Fields e2 !! str "title" = Some (mkValue StringType s2 i2) ->
  balanced s1 -> ValidString s1 = true ->
  balanced s2 -> ValidString s2 = true ->
  strip_braces s1 = strip_braces s2 ->
  titleHash U e1 = titleHash U e2.
Proof.
  intros H1 H2 Hb1 Hv1 Hb2 Hv2 Hs. unfold titleHash. rewrite H1, H2. cbn [vT vS].
  rewrite bool_decide_true by reflexivity.
  destruct (FlattenForSorting_balanced s1 Hb1 Hv1) as (t1 & -> & ->).
  destruct (FlattenForSorting_balanced s2 Hb2 Hv2) as (t2 & -> & ->).
  rewrite !Nat.eqb_refl, Hs. reflexivity.
Qed.

Lemma titleHash_title (e : Entry) :
  titleHash U e <> [] ->
  exists v, Fields e !! str "title" = Some v /\ vT v = StringType.
Proof.
  unfold titleHash. destruct (Fields e !! str "title") as [v|]; [|congruence].
  destruct (decide (vT v = StringType)) as [E|E]; [eauto|].
  rewrite bool_decide_false by exact E. congruence.
Qed.

(** X20: the bin [FindDupsByTitle] keeps for a fingerprint lists
    exactly the entries with that fingerprint, and every entry listed
    under a fingerprint that is not empty has a title field that is a
    string (what [doDups] dereferences). *)
Theorem FindDupsByTitle_bins (pubs : list Entry) (hash : gostring) (i : nat) :
  (i ∈ default [] (FindDupsByTitle U pubs !! hash)
   <-> exists e, pubs !! i = Some e /\ titleHash U e = hash)
  /\ (hash <> [] -> i ∈ default [] (FindDupsByTitle U pubs !! hash) ->
      exists e v, pubs !! i = Some e /\ Fields e !! str "title" = Some v
                  /\ vT v = StringType).
Proof.
  assert (H : i ∈ default [] (FindDupsByTitle U pubs !! hash)
              <-> exists e, pubs !! i = Some e /\ titleHash U e = hash).
  { unfold FindDupsByTitle. rewrite bins_by_lookup, bin_spec_elem.
    split; intros (e & He & Hk); exists e; (split; [exact He|]); congruence. }
  split; [exact H|].
  intros Hne Hin. apply H in Hin as (e & He & Hh).
  destruct (titleHash_title e ltac:(congruence)) as (v & Hv & HT). eauto.
Qed.

End TitleHash.

Lemma titleHash_ignores_braces_witness :
  titleHash latin1_only
    (mkEntry Article [] [] {[ str "title" := StringV (str "The {DNA} of {Moo}") ]} [] 0)
  = titleHash latin1_only
      (mkEntry Book [] [] {[ str "title" := StringV (str "{The DNA of Moo}") ]} [] 0).
Proof.
  apply (titleHash_ignores_braces latin1_only _ _
           (str "The {DNA} of {Moo}") (str "{The DNA of Moo}") 0 0);
    try reflexivity.
  - repeat first [ apply wn_nil
                 | apply wn_byte; [split; discriminate|]
                 | apply (wn_group true (str "DNA") (str " of {Moo}")); [discriminate| |]
                 | apply (wn_group true (str "Moo") []); [discriminate| |] ].
  - apply (wn_group true (str "The DNA of Moo") []); [discriminate| |apply wn_nil].
    repeat (apply wn_byte; [split; discriminate|]). apply wn_nil.
Defined.

Lemma FindDupsByTitle_bins_witness :
  exists e v,
    [mkEntry Article [] [] {[ str "title" := StringV (str "Moo") ]} [] 0] !! 0%nat = Some e
    /\ Fields e !! str "title" = Some v /\ vT v = StringType.
Proof.
  apply (proj2 (FindDupsByTitle_bins latin1_only
                  [mkEntry Article [] [] {[ str "title" := StringV (str "Moo") ]} [] 0]
                  (str "moo") 0%nat)).
  - discriminate.
  - vm_compute. left.
Defined.

(** ** Entry kinds *)

(** X21: [toEntryKind] never returns [Booklet] (nor [Deleted]): the
    table [identToKind] has no entry for it, so an [@booklet] entry gets
    the kind [Other]; the names it knows are matched whatever their
    case. *)
Theorem toEntryKind_never_booklet (U : UnicodeTables) (s : gostring) :
  toEntryKind U s <> Booklet /\ toEntryKind U s <> Deleted
  /\ (forallb is_ascii s = true -> map lower_byte s = str "booklet" ->
      toEntryKind U s = Other)
  /\ (forallb is_ascii s = true -> map lower_byte s = str "article" ->
      toEntryKind U s = Article).
Proof.
  assert (H : Forall (fun p => snd p <> Booklet /\ snd p <> Deleted) identToKind).
  { repeat (apply Forall_cons_2; [split; discriminate|]). apply Forall_nil_2. }
  assert (Hk : toEntryKind U s <> Booklet /\ toEntryKind U s <> Deleted).
  { unfold toEntryKind.
    destruct (list_find _ identToKind) as [[i [n k]]|] eqn:E; [|split; discriminate].
    apply list_find_Some in E as (Hl & _ & _).
    rewrite Forall_forall in H.
    exact (H (n, k) (list_elem_of_lookup_2 _ _ _ Hl)). }
  split; [apply Hk|]. split; [apply Hk|]. split.
  - intros Ha Hs. unfold toEntryKind. rewrite ToLower_ascii, Hs by exact Ha. reflexivity.
  - intros Ha Hs. unfold toEntryKind. rewrite ToLower_ascii, Hs by exact Ha. reflexivity.
Qed.

Lemma toEntryKind_never_booklet_witness :
  toEntryKind latin1_only (str "BookLet") = Other
  /\ toEntryKind latin1_only (str "ARTICLE") = Article.
Proof.
  destruct (toEntryKind_never_booklet latin1_only (str "BookLet")) as (_ & _ & H & _).
  destruct (toEntryKind_never_booklet latin1_only (str "ARTICLE")) as (_ & _ & _ & H').
  split; [apply H; reflexivity|apply H'; reflexivity].
Defined.

(** ** [RemoveEmptyFields] *)

Lemma delete_fold_lookup (p : Value -> bool) (order : list gostring) :
  forall (m : gmap gostring Value) (t : gostring),
    foldl (fun m tag => match m !! tag with
                        | Some value => if p value then delete tag m else m
                        | None => m
                        end) m order !! t
    = match m !! t with
      | Some v => if bool_decide (t ∈ order) && p v then None else Some v
      | None => None
      end.
Proof.
  induction order as [|k order IH]; intros m t.
  - simpl. destruct (m !! t); reflexivity.
  - cbn [foldl]. rewrite IH. clear IH.
    destruct (decide (t = k)) as [->|Hne].
    + rewrite (bool_decide_true (k ∈ k :: order)) by left.
      destruct (m !! k) as [v|] eqn:Ek; [|rewrite Ek; reflexivity].
      destruct (p v) eqn:Ep.
      * rewrite lookup_delete_eq. reflexivity.
      * rewrite Ek, Ep, !andb_false_r. reflexivity.
    + assert (Hl : match m !! k with
                   | Some value => if p value then delete k m else m
                   | None => m
                   end !! t = m !! t).
      { destruct (m !! k) as [v|]; [|reflexivity].
        destruct (p v); [|reflexivity]. apply lookup_delete_ne. congruence. }
      rewrite Hl. destruct (m !! t) as [v|]; [|reflexivity].
      destruct (decide (t ∈ order)) as [Hin|Hin].
      * rewrite !bool_decide_true by (try right; exact Hin). reflexivity.
      * rewrite (bool_decide_false (t ∈ order)) by exact Hin.
        rewrite (bool_decide_false (t ∈ k :: order)); [reflexivity|].
        intros H. apply elem_of_cons in H as [H|H]; contradiction.
Qed.

(** X22: whatever the order in which Go visits the fields of an
    entry, [RemoveEmptyFields] deletes exactly the fields that are a
    string with empty text and leaves every other field as it is (a
    number or a symbol with empty text, a string of blanks); nothing else
    of the entry changes. *)
Theorem RemoveEmptyFields_entry_spec (order : list gostring) (e : Entry) :
  order ≡ₚ (map_to_list (Fields e)).*1 ->
  (forall tag,
      Fields (RemoveEmptyFields_entry order e) !! tag
      = match Fields e !! tag with
        | Some v => if is_empty_string v then None else Some v
        | None => None
        end)
  /\ Kind (RemoveEmptyFields_entry order e) = Kind e
  /\ Key (RemoveEmptyFields_entry order e) = Key e
  /\ (forall order',
        order' ≡ₚ (map_to_list (Fields (RemoveEmptyFields_entry order e))).*1 ->
        RemoveEmptyFields_entry order' (RemoveEmptyFields_entry order e)
        = RemoveEmptyFields_entry order e).
Proof.
  intros Hord.
  assert (Hin : forall (m : gmap gostring Value) (o : list gostring) t v,
             o ≡ₚ (map_to_list m).*1 -> m !! t = Some v -> t ∈ o).
  { intros m o t v Ho Hl. rewrite Ho. apply list_elem_of_fmap. exists (t, v).
    split; [reflexivity|]. apply elem_of_map_to_list. exact Hl. }
  assert (Hspec : forall tag,
      Fields (RemoveEmptyFields_entry order e) !! tag
      = match Fields e !! tag with
        | Some v => if is_empty_string v then None else Some v
        | None => None
        end).
  { intros tag. unfold RemoveEmptyFields_entry. cbn [Fields set_Fields].
    rewrite delete_fold_lookup. destruct (Fields e !! tag) as [v|] eqn:E; [|reflexivity].
    rewrite bool_decide_true by exact (Hin _ _ _ _ Hord E). reflexivity. }
  split; [exact Hspec|]. split; [reflexivity|]. split; [reflexivity|].
  intros order' Hord'.
  set (e' := RemoveEmptyFields_entry order e) in *.
  unfold RemoveEmptyFields_entry at 1.
  assert (Hf : foldl (fun m tag => match m !! tag with
                        | Some value => if is_empty_string value then delete tag m else m
                        | None => m
                        end) (Fields e') order' = Fields e').
  { apply map_eq. intros t. rewrite delete_fold_lookup.
    destruct (Fields e' !! t) as [v|] eqn:E; [|reflexivity].
    rewrite Hspec in E. destruct (Fields e !! t) as [v0|]; [|discriminate E].
    destruct (is_empty_string v0) eqn:Ev; [discriminate E|].
    injection E as <-. rewrite Ev, andb_false_r. reflexivity. }
  rewrite Hf. destruct e'. reflexivity.
Qed.

Lemma RemoveEmptyFields_entry_spec_witness :
  Fields (RemoveEmptyFields_entry [str "note"]
            (mkEntry Article [] [] {[ str "note" := StringV [] ]} [] 0))
  !! str "note" = None.
Proof.
  assert (Hord : [str "note"]
                 ≡ₚ (map_to_list
                       (Fields (mkEntry Article [] [] {[ str "note" := StringV [] ]} [] 0))).*1).
  { vm_compute. reflexivity. }
  rewrite (proj1 (RemoveEmptyFields_entry_spec _ _ Hord)). reflexivity.
Defined.

(** ** [ReplaceAbbrMonths] *)

Lemma months_predefined (k sym : gostring) :
  months !! k = Some sym -> exists name, predefinedSymbols !! sym = Some name.
Proof.
  intros H. unfold months in H. apply elem_of_list_to_map_2 in H.
  repeat (apply elem_of_cons in H as [H|H];
          [injection H as -> ->; eexists; vm_compute; reflexivity|]).
  inversion H.
Qed.

Lemma monthsnum_predefined (i : nat) (sym : gostring) :
  monthsnum !! i = Some sym -> exists name, predefinedSymbols !! sym = Some name.
Proof.
  intros H. apply list_elem_of_lookup_2 in H. unfold monthsnum in H. cbn [map] in H.
  repeat (apply elem_of_cons in H as [H|H];
          [subst sym; eexists; vm_compute; reflexivity|]).
  inversion H.
Qed.

(** X23: [ReplaceAbbrMonths] never panics, it turns every month number
    from 1 to 12 into a symbol and leaves the numbers outside that
    range, and every symbol it writes is a predefined month symbol. *)
Theorem ReplaceAbbrMonths_field_spec (U : UnicodeTables) (tag : gostring) (v : Value) :
  exists v',
    ReplaceAbbrMonths_field U tag v = Some v'
    /\ vI v' = vI v
    /\ (v' = v
        \/ (vT v' = SymbolType
            /\ exists name, predefinedSymbols !! vS v' = Some name))
    /\ (vT v = NumberType ->
        if ((1 <=? vI v) && (vI v <=? 12))%Z
        then vT v' = SymbolType /\ monthsnum !! Z.to_nat (vI v - 1) = Some (vS v')
        else v' = v)
    /\ (vT v = SymbolType -> v' = v).
Proof.
  unfold ReplaceAbbrMonths_field. destruct (vT v) eqn:HT.
  - destruct (months !! ToLower U (vS v)) as [sym|] eqn:E.
    + eexists. split; [reflexivity|]. split; [reflexivity|].
      split; [right; split; [reflexivity|exact (months_predefined _ _ E)]|].
      split; intros H; discriminate H.
    + exists v. split; [reflexivity|]. split; [reflexivity|]. split; [left; reflexivity|].
      split; intros H; discriminate H.
  - destruct ((1 <=? vI v) && (vI v <=? 12))%Z eqn:Er.
    + apply andb_prop in Er as [H1 H2]. apply Z.leb_le in H1, H2.
      destruct (lookup_lt_is_Some_2 monthsnum (Z.to_nat (vI v - 1))
                  ltac:((simpl; lia))) as [sym Hs].
      rewrite Hs. eexists. split; [reflexivity|]. split; [reflexivity|].
      split; [right; split; [reflexivity|exact (monthsnum_predefined _ _ Hs)]|].
      split; [intros _; split; reflexivity|intros H; discriminate H].
    + exists v. split; [reflexivity|]. split; [reflexivity|]. split; [left; reflexivity|].
      split; [intros _; reflexivity|intros H; discriminate H].
  - exists v. split; [reflexivity|]. split; [reflexivity|]. split; [left; reflexivity|].
    split; [intros H; discriminate H|intros _; reflexivity].
Qed.

Lemma ReplaceAbbrMonths_field_spec_witness :
  exists v',
    ReplaceAbbrMonths_field latin1_only (str "month") (NumberV 9) = Some v'
    /\ vT v' = SymbolType /\ vS v' = str "sep".
Proof.
  destruct (ReplaceAbbrMonths_field_spec latin1_only (str "month") (NumberV 9))
    as (v' & H & _ & _ & Hn & _).
  exists v'. split; [exact H|].
  destruct (Hn eq_refl) as [HT HS]. split; [exact HT|].
  change (monthsnum !! Z.to_nat (vI (NumberV 9) - 1)) with (Some (str "sep")) in HS.
  injection HS as <-. reflexivity.
Defined.

(** ** [CheckUnmatchedDollarSigns] *)

Lemma dollar_fold (rs : list rune) :
  Forall (fun r => r <> r_backslash) rs ->
  forall n : Z,
    foldl dollar_step (n, false) rs
    = ((n + Z.of_nat (length (List.filter (fun r => (r =? r_dollar)%N) rs)))%Z, false).
Proof.
  induction 1 as [|r rs Hr _ IH]; intros n.
  - simpl. rewrite Z.add_0_r. reflexivity.
  - cbn [foldl List.filter]. unfold dollar_step at 2.
    destruct (r =? r_dollar).
    + cbn [negb]. rewrite IH. cbn [length]. f_equal. lia.
    + destruct (N.eqb_spec r r_backslash) as [|_]; [contradiction|]. apply IH.
Qed.

(** X24: on a string without a backslash, [CheckUnmatchedDollarSigns]
    reports an error exactly when the number of dollar signs is odd; a
    value that is not a string is never reported. *)
Theorem CheckUnmatchedDollarSigns_odd (tag : gostring) (v : Value) :
  (vT v <> StringType -> CheckUnmatchedDollarSigns_check tag v = [])
  /\ (vT v = StringType ->
      Forall (fun r => r <> r_backslash) (runes (vS v)) ->
      CheckUnmatchedDollarSigns_check tag v
      = if Nat.odd (length (List.filter (fun r => r =? r_dollar) (runes (vS v))))
        then str "contains unbalanced $" else []).
Proof.
  unfold CheckUnmatchedDollarSigns_check. split.
  - intros H. rewrite bool_decide_false by exact H. reflexivity.
  - intros HT Hb. rewrite bool_decide_true by exact HT.
    rewrite (dollar_fold _ Hb), Z.add_0_l.
    set (k := length (List.filter (fun r => r =? r_dollar) (runes (vS v)))).
    assert (Hk : (Z.rem (Z.of_nat k) 2 =? 0)%Z = negb (Nat.odd k)).
    { rewrite Z.rem_mod_nonneg by lia.
      rewrite <- Nat.negb_even, negb_involutive.
      destruct (Nat.even k) eqn:E.
      - apply Nat.even_spec in E as [m ->]. apply Z.eqb_eq.
        rewrite Nat2Z.inj_mul, Z.mul_comm. apply Z.mod_mul. lia.
      - apply Z.eqb_neq.
        assert (Ho : Nat.odd k = true) by (rewrite <- Nat.negb_even, E; reflexivity).
        apply Nat.odd_spec in Ho as [m ->].
        rewrite Nat2Z.inj_add, Nat2Z.inj_mul, Z.add_comm, Z.mul_comm.
        rewrite Z.mod_add by lia. discriminate. }
    rewrite Hk, negb_involutive. reflexivity.
Qed.

Lemma CheckUnmatchedDollarSigns_odd_witness :
  CheckUnmatchedDollarSigns_check (str "title") (StringV (str "cost $5 and $x$"))
  = str "contains unbalanced $".
Proof.
  rewrite (proj2 (CheckUnmatchedDollarSigns_odd (str "title")
                    (StringV (str "cost $5 and $x$"))) eq_refl).
  - reflexivity.
  - repeat (apply Forall_cons_2; [discriminate|]). apply Forall_nil_2.
Defined.

(** ** Page ranges *)

Lemma span_digits_digits (a rest : gostring) :
  forallb is_digit a = true ->
  (forall b t, rest = b :: t -> is_digit b = false) ->
  span_digits (a ++ rest) = (a, rest).
Proof.
  intros Ha Hr. induction a as [|c a IH].
  - simpl. destruct rest as [|b t]; [reflexivity|].
    simpl. rewrite (Hr b t eq_refl). reflexivity.
  - cbn [forallb] in Ha. apply andb_prop in Ha as [Hc Ha].
    cbn [app span_digits]. rewrite Hc, (IH Ha). reflexivity.
Qed.

Lemma span_digits_inv (s a rest : gostring) :
  span_digits s = (a, rest) -> s = a ++ rest /\ forallb is_digit a = true.
Proof.
  revert a rest. induction s as [|b t IH]; intros a rest H.
  - injection H as <- <-. auto.
  - cbn [span_digits] in H. destruct (is_digit b) eqn:Eb.
    + destruct (span_digits t) as [a' rest'] eqn:E. injection H as <- <-.
      destruct (IH a' rest' eq_refl) as [-> Ha]. split; [reflexivity|].
      cbn [forallb]. rewrite Eb, Ha. reflexivity.
    + injection H as <- <-. auto.
Qed.

Lemma pages_submatch_digits (a b : gostring) :
  a <> [] -> b <> [] -> forallb is_digit a = true -> forallb is_digit b = true ->
  pages_submatch (a ++ str "--" ++ b) = Some (a, b).
Proof.
  intros Hna Hnb Ha Hb. unfold pages_submatch.
  rewrite span_digits_digits; [|exact Ha|intros c t [= <- _]; reflexivity].
  cbn [app str list_ascii_of_string]. rewrite Hb.
  destruct a; [congruence|]. destruct b; [congruence|]. reflexivity.
Qed.

Lemma pages_submatch_inv (s a b : gostring) :
  pages_submatch s = Some (a, b) ->
  s = a ++ str "--" ++ b /\ a <> [] /\ b <> []
  /\ forallb is_digit a = true /\ forallb is_digit b = true.
Proof.
  unfold pages_submatch. destruct (span_digits s) as [a' rest] eqn:E.
  apply span_digits_inv in E as [-> Ha].
  destruct rest as [|d1 [|d2 b']]; try discriminate.
  destruct (_ && _) eqn:C; [|discriminate]. intros [= <- <-].
  apply andb_prop in C as [C Hb]. apply andb_prop in C as [C Hnb].
  apply andb_prop in C as [C Hna]. apply andb_prop in C as [H1 H2].
  apply N.eqb_eq in H1, H2.
  assert (d1 = "-"%char) by (apply bval_inj; rewrite H1; reflexivity).
  assert (d2 = "-"%char) by (apply bval_inj; rewrite H2; reflexivity).
  subst d1 d2. split; [reflexivity|].
  split; [destruct a'; [discriminate Hna|discriminate]|].
  split; [destruct b'; [discriminate Hnb|discriminate]|]. auto.
Qed.

(** X25: on a page range of two numbers joined by two hyphens,
    [FixTruncatedPageNumbers] completes a shorter second number with the
    leading digits of the first, so that both have the same length, and
    leaves the range alone otherwise; applying it twice changes nothing
    more. *)
Theorem FixTruncatedPageNumbers_spec (tag : gostring) :
  (forall a b i,
      a <> [] -> b <> [] -> forallb is_digit a = true -> forallb is_digit b = true ->
      FixTruncatedPageNumbers_field tag (mkValue StringType (a ++ str "--" ++ b) i)
      = mkValue StringType
          (a ++ str "--" ++ (if (length b <? length a)%nat
                             then take (length a - length b) a ++ b else b)) i)
  /\ (forall v, FixTruncatedPageNumbers_field tag (FixTruncatedPageNumbers_field tag v)
                = FixTruncatedPageNumbers_field tag v).
Proof.
  split.
  - intros a b i Hna Hnb Ha Hb. unfold FixTruncatedPageNumbers_field. cbn [vT vS vI].
    rewrite bool_decide_true by reflexivity.
    rewrite pages_submatch_digits by assumption.
    destruct (length b <? length a)%nat; reflexivity.
  - intros v.
    assert (Hfix : forall w, vT w <> StringType \/ pages_submatch (vS w) = None
                             \/ (exists a b, pages_submatch (vS w) = Some (a, b)
                                             /\ (length a <= length b)%nat) ->
                             FixTruncatedPageNumbers_field tag w = w).
    { intros w [H|[H|(a & b & H & Hle)]]; unfold FixTruncatedPageNumbers_field.
      - rewrite bool_decide_false by exact H. reflexivity.
      - rewrite H. destruct (bool_decide _); reflexivity.
      - rewrite H. destruct (Nat.ltb_spec (length b) (length a)); [lia|].
        destruct (bool_decide _); reflexivity. }
    destruct (decide (vT v = StringType)) as [HT|HT];
      [|rewrite (Hfix v) by auto; apply Hfix; auto].
    destruct (pages_submatch (vS v)) as [[a b]|] eqn:E;
      [|rewrite (Hfix v) by auto; apply Hfix; auto].
    destruct (Nat.ltb_spec (length b) (length a)) as [Hlt|Hge];
      [|rewrite (Hfix v) by eauto 6; apply Hfix; eauto 6].
    assert (Hv : FixTruncatedPageNumbers_field tag v
                 = mkValue (vT v) (a ++ str "--" ++ take (length a - length b) a ++ b)
                     (vI v)).
    { unfold FixTruncatedPageNumbers_field. rewrite bool_decide_true, E by exact HT.
      destruct (Nat.ltb_spec (length b) (length a)); [reflexivity|lia]. }
    rewrite Hv. apply Hfix. right. right.
    apply pages_submatch_inv in E as (_ & Hna & Hnb & Ha & Hb).
    exists a, (take (length a - length b) a ++ b). cbn [vS]. split.
    + apply pages_submatch_digits; [exact Hna| |exact Ha|].
      * intros H. apply app_eq_nil in H as [_ H]. contradiction.
      * rewrite forallb_app, Hb, andb_true_r.
        rewrite <- (take_drop (length a - length b) a), forallb_app in Ha.
        apply andb_prop in Ha as [Ha _]. exact Ha.
    + rewrite length_app, length_take. lia.
Qed.

Lemma FixTruncatedPageNumbers_spec_witness :
  FixTruncatedPageNumbers_field (str "pages") (mkValue StringType (str "1234" ++ str "--" ++ str "56") 0%Z)
  = mkValue StringType (str "1234--1256") 0%Z.
Proof.
  rewrite (proj1 (FixTruncatedPageNumbers_spec (str "pages")) (str "1234") (str "56") 0%Z);
    try reflexivity; discriminate.
Defined.

(** ** Titles that end in a period *)

(** X26: [RemovePeriodFromTitles] removes the final period of a title
    that ends in one of the letters a to z followed by a period, and
    nothing else; applying it twice changes nothing more. *)
Theorem RemovePeriodFromTitles_spec (tag : gostring) :
  (forall t c i,
      is_lower_ascii c = true ->
      RemovePeriodFromTitles_field tag (mkValue StringType (t ++ [c; "."%char]) i)
      = mkValue StringType (t ++ [c]) i)
  /\ (forall v, RemovePeriodFromTitles_field tag v = v
                \/ (vT v = StringType
                    /\ vS v = vS (RemovePeriodFromTitles_field tag v) ++ str "."))
  /\ (forall v, RemovePeriodFromTitles_field tag (RemovePeriodFromTitles_field tag v)
                = RemovePeriodFromTitles_field tag v).
Proof.
  assert (Hrev : forall (t : gostring) c p, rev (t ++ [c; p]) = p :: c :: rev t).
  { intros t c p. rewrite rev_app_distr. reflexivity. }
  assert (Hlast : forall (t : gostring) c p, removelast (t ++ [c; p]) = t ++ [c]).
  { intros t c p. change [c; p] with ([c] ++ [p]). rewrite app_assoc.
    apply removelast_last. }
  assert (Hshape : forall (s : gostring) p c r, rev s = p :: c :: r -> s = rev r ++ [c; p]).
  { intros s p c r H. apply (f_equal (@rev _)) in H. rewrite rev_involutive in H.
    rewrite H. simpl. rewrite <- app_assoc. reflexivity. }
  split; [|split].
  - intros t c i Hc. unfold RemovePeriodFromTitles_field. cbn [vT vS vI].
    rewrite bool_decide_true by reflexivity. rewrite Hrev, Hc, Hlast. reflexivity.
  - intros v. unfold RemovePeriodFromTitles_field.
    destruct (decide (vT v = StringType)) as [HT|HT];
      [rewrite bool_decide_true by exact HT|rewrite bool_decide_false by exact HT; auto].
    destruct (rev (vS v)) as [|p [|c r]] eqn:E; auto.
    destruct ((bval p =? 46) && is_lower_ascii c) eqn:C; auto.
    right. split; [exact HT|]. cbn [vS].
    apply andb_prop in C as [Hp _]. apply N.eqb_eq in Hp.
    assert (p = "."%char) by (apply bval_inj; rewrite Hp; reflexivity). subst p.
    rewrite (Hshape _ _ _ _ E), Hlast, <- app_assoc. reflexivity.
  - intros v.
    destruct (decide (vT v = StringType)) as [HT|HT].
    2:{ assert (Hn : RemovePeriodFromTitles_field tag v = v).
        { unfold RemovePeriodFromTitles_field.
          rewrite bool_decide_false by exact HT. reflexivity. }
        rewrite !Hn. reflexivity. }
    assert (Hv : RemovePeriodFromTitles_field tag v
                 = match rev (vS v) with
                   | p :: c :: _ =>
                       if (bval p =? 46) && is_lower_ascii c
                       then mkValue (vT v) (removelast (vS v)) (vI v) else v
                   | _ => v
                   end).
    { unfold RemovePeriodFromTitles_field. rewrite bool_decide_true by exact HT.
      reflexivity. }
    destruct (rev (vS v)) as [|p [|c r]] eqn:E; rewrite Hv; try exact Hv.
    destruct ((bval p =? 46) && is_lower_ascii c) eqn:C; [|exact Hv].
    apply andb_prop in C as [_ Hc].
    rewrite (Hshape _ _ _ _ E), Hlast.
    unfold RemovePeriodFromTitles_field. cbn [vT vS vI].
    rewrite bool_decide_true by exact HT.
    rewrite rev_app_distr. cbn [rev app].
    destruct (rev (rev r)) as [|c' r'] eqn:E'; [reflexivity|].
    replace (bval c =? 46) with false; [reflexivity|].
    symmetry. apply N.eqb_neq. unfold is_lower_ascii, inrange in Hc.
    apply andb_prop in Hc as [Hc _]. apply N.leb_le in Hc. lia.
Qed.

Lemma RemovePeriodFromTitles_spec_witness :
  RemovePeriodFromTitles_field (str "title") (mkValue StringType (str "A stud" ++ [ "y"%char; "."%char ]) 0%Z)
  = mkValue StringType (str "A stud" ++ [ "y"%char ]) 0%Z.
Proof.
  apply (proj1 (RemovePeriodFromTitles_spec (str "title"))). reflexivity.
Defined.

(** ** Numbers: written and read back *)

Lemma digit_byte_val (d : N) : d < 10 -> bval (digit_byte d) = 48 + d.
Proof. intros H. unfold digit_byte. apply bval_byte_of. lia. Qed.

Lemma digit_byte_digit (d : N) : d < 10 -> is_digit (digit_byte d) = true.
Proof.
  intros H. unfold is_digit, inrange. rewrite digit_byte_val by exact H.
  apply andb_true_intro. split; apply N.leb_le; lia.
Qed.

Lemma digits_value_app (a b : gostring) (x : N) :
  digits_value (a ++ b) x = digits_value b (digits_value a x).
Proof. apply fold_left_app. Qed.

Lemma utoa_loop_spec (f : nat) :
  forall n acc,
    n < 2 ^ N.of_nat (S f) ->
    exists ds, utoa_loop (S f) n acc = ds ++ acc
               /\ ds <> [] /\ forallb is_digit ds = true
               /\ forall a, digits_value ds a = a * 10 ^ N.of_nat (length ds) + n.
Proof.
  induction f as [|f IH]; intros n acc Hn.
  - cbn [utoa_loop]. change (2 ^ N.of_nat 1) with 2 in Hn.
    destruct (N.ltb_spec n 10); [|lia].
    exists [digit_byte (n mod 10)].
    rewrite N.mod_small by lia.
    split; [reflexivity|]. split; [discriminate|].
    split; [cbn [forallb]; rewrite digit_byte_digit by lia; reflexivity|].
    intros a. cbn [digits_value fold_left length]. rewrite digit_byte_val by lia.
    change (10 ^ N.of_nat 1) with 10. lia.
  - remember (S f) as f1 eqn:Ef. cbn [utoa_loop].
    pose proof (N.mod_lt n 10 ltac:(lia)) as Hm.
    destruct (N.ltb_spec n 10) as [Hlt|Hge].
    + exists [digit_byte (n mod 10)].
      rewrite N.mod_small by lia.
      split; [reflexivity|]. split; [discriminate|].
      split; [cbn [forallb]; rewrite digit_byte_digit by lia; reflexivity|].
      intros a. cbn [digits_value fold_left length]. rewrite digit_byte_val by lia.
      change (10 ^ N.of_nat 1) with 10. lia.
    + assert (Hq : n / 10 < 2 ^ N.of_nat f1).
      { apply N.Div0.div_lt_upper_bound.
        replace (N.of_nat (S f1)) with (N.succ (N.of_nat f1)) in Hn by lia.
        rewrite N.pow_succ_r' in Hn. lia. }
      subst f1.
      destruct (IH (n / 10) (digit_byte (n mod 10) :: acc) Hq)
        as (ds & -> & Hne & Hd & Hv).
      exists (ds ++ [digit_byte (n mod 10)]).
      split; [rewrite <- app_assoc; reflexivity|].
      split; [intros E; apply app_eq_nil in E as [_ E]; discriminate E|].
      split.
      { rewrite forallb_app, Hd. cbn [forallb].
        rewrite digit_byte_digit by lia. reflexivity. }
      intros a. rewrite digits_value_app, Hv.
      cbn [digits_value fold_left]. rewrite digit_byte_val by lia.
      rewrite length_app. cbn [length].
      replace (N.of_nat (length ds + 1)) with (N.succ (N.of_nat (length ds))) by lia.
      rewrite N.pow_succ_r'.
      pose proof (N.div_mod n 10 ltac:(lia)) as Hdm.
      set (q := n / 10) in *. set (m := n mod 10) in *.
      set (p := 10 ^ N.of_nat (length ds)). clearbody q m p. nia.
Qed.

Lemma Itoa_digits (n : N) :
  exists d ds,
    utoa_loop (S (N.to_nat (N.log2 n))) n [] = d :: ds
    /\ forallb is_digit (d :: ds) = true
    /\ digits_value (d :: ds) 0 = n.
Proof.
  destruct (utoa_loop_spec (N.to_nat (N.log2 n)) n []) as (ds & H & Hne & Hd & Hv).
  { replace (N.of_nat (S (N.to_nat (N.log2 n)))) with (N.succ (N.log2 n)) by lia.
    destruct (N.eq_dec n 0) as [->|Hn]; [reflexivity|].
    apply N.log2_spec. lia. }
  rewrite app_nil_r in H. destruct ds as [|d ds]; [congruence|].
  exists d, ds. split; [exact H|]. split; [exact Hd|].
  rewrite Hv. lia.
Qed.

Lemma Atoi_Itoa (z : Z) :
  (- 2 ^ 63 <= z <= 2 ^ 63 - 1)%Z -> Atoi (Itoa z) = Some z.
Proof.
  intros Hz. unfold Itoa.
  destruct (Itoa_digits (Z.abs_N z)) as (d & ds & -> & Hd & Hv).
  assert (Hrange : ((- 2 ^ 63 <=? z) && (z <=? 2 ^ 63 - 1))%Z = true).
  { apply andb_true_intro. split; apply Z.leb_le; lia. }
  fold (digits_value (d :: ds) 0) in *.
  destruct (Z.ltb_spec z 0) as [Hneg|Hpos].
  - unfold Atoi. cbn [str list_ascii_of_string app].
    change (bval "-"%char =? 45) with true. cbv iota.
    rewrite Hd. fold (digits_value (d :: ds) 0). rewrite Hv.
    replace (- Z.of_N (Z.abs_N z))%Z with z by lia.
    rewrite Hrange. reflexivity.
  - unfold Atoi.
    assert (Hd0 : is_digit d = true).
    { cbn [forallb] in Hd. apply andb_prop in Hd as [H _]. exact H. }
    unfold is_digit, inrange in Hd0. apply andb_prop in Hd0 as [H1 H2].
    apply N.leb_le in H1, H2.
    destruct (N.eqb_spec (bval d) 45); [lia|].
    destruct (N.eqb_spec (bval d) 43); [lia|].
    rewrite Hd. fold (digits_value (d :: ds) 0). rewrite Hv.
    replace (Z.of_N (Z.abs_N z)) with z by lia.
    rewrite Hrange. reflexivity.
Qed.

(** X27: a number written by [Value.write] is read back by
    [strconv.Atoi], as [readTagValue] calls it, as the same number, for
    every value of a 64-bit [int]. *)
Theorem Number_write_read (v : Value) :
  vT v = NumberType -> (- 2 ^ 63 <= vI v <= 2 ^ 63 - 1)%Z ->
  Atoi (Value_write v) = Some (vI v).
Proof.
  intros HT Hr. unfold Value_write. rewrite HT. apply Atoi_Itoa, Hr.
Qed.

Lemma Number_write_read_witness :
  Atoi (Value_write (NumberV (-2024))) = Some (-2024)%Z.
Proof.
  apply (Number_write_read (NumberV (-2024))); [reflexivity|].
  cbn [vI NumberV]. lia.
Defined.

(** X28: [ConvertIntStringsToInt] leaves every value that is not a
    string, and every string that [Atoi] rejects; a string that [Atoi]
    accepts becomes the number [Atoi] reads, its text kept, and no other
    value becomes a number.  A string that holds the decimal text of a
    64-bit number becomes that number, equal ([Value.Equals]) to the
    number the parser reads; applying it twice changes nothing more. *)
Theorem ConvertIntStringsToInt_spec (tag : gostring) :
  (forall v, vT v <> StringType -> ConvertIntStringsToInt_field tag v = v)
  /\ (forall v, vT (ConvertIntStringsToInt_field tag v) = StringType ->
                Atoi (vS v) = None /\ ConvertIntStringsToInt_field tag v = v)
  /\ (forall z i, (- 2 ^ 63 <= z <= 2 ^ 63 - 1)%Z ->
                  ConvertIntStringsToInt_field tag (mkValue StringType (Itoa z) i)
                  = mkValue NumberType (Itoa z) z
                  /\ Value_Equals
                       (ConvertIntStringsToInt_field tag (mkValue StringType (Itoa z) i))
                       (NumberV z) = true)
  /\ (forall v, ConvertIntStringsToInt_field tag (ConvertIntStringsToInt_field tag v)
                = ConvertIntStringsToInt_field tag v)
  /\ (forall v, vT v = StringType -> Atoi (vS v) = None ->
                ConvertIntStringsToInt_field tag v = v)
  /\ (forall v z, vT v = StringType -> Atoi (vS v) = Some z ->
                  ConvertIntStringsToInt_field tag v = mkValue NumberType (vS v) z).
Proof.
  split; [|split; [|split; [|split; [|split]]]].
  - intros v H. unfold ConvertIntStringsToInt_field.
    rewrite bool_decide_false by exact H. reflexivity.
  - intros v. unfold ConvertIntStringsToInt_field.
    destruct (decide (vT v = StringType)) as [HT|HT].
    + rewrite bool_decide_true by exact HT.
      destruct (Atoi (vS v)); [discriminate|auto].
    + rewrite bool_decide_false by exact HT. congruence.
  - intros z i Hz. unfold ConvertIntStringsToInt_field. cbn [vT vS].
    rewrite bool_decide_true by reflexivity. rewrite (Atoi_Itoa z Hz).
    split; [reflexivity|].
    unfold Value_Equals. cbn [vT vI NumberV].
    rewrite bool_decide_true by reflexivity. apply Z.eqb_refl.
  - intros v.
    assert (Hn : forall w, vT w <> StringType -> ConvertIntStringsToInt_field tag w = w).
    { intros w H. unfold ConvertIntStringsToInt_field.
      rewrite bool_decide_false by exact H. reflexivity. }
    destruct (decide (vT v = StringType)) as [HT|HT]; [|rewrite !(Hn v HT); reflexivity].
    destruct (Atoi (vS v)) as [z|] eqn:E.
    + assert (Hv : ConvertIntStringsToInt_field tag v = mkValue NumberType (vS v) z).
      { unfold ConvertIntStringsToInt_field. rewrite bool_decide_true, E by exact HT.
        reflexivity. }
      rewrite Hv. apply Hn. discriminate.
    + assert (Hv : ConvertIntStringsToInt_field tag v = v).
      { unfold ConvertIntStringsToInt_field. rewrite bool_decide_true, E by exact HT.
        reflexivity. }
      rewrite !Hv. reflexivity.
  - intros v HT E. unfold ConvertIntStringsToInt_field.
    rewrite bool_decide_true, E by exact HT. reflexivity.
  - intros v z HT E. unfold ConvertIntStringsToInt_field.
    rewrite bool_decide_true, E by exact HT. reflexivity.
Qed.

Lemma ConvertIntStringsToInt_spec_witness :
  ConvertIntStringsToInt_field (str "volume") (mkValue StringType (Itoa 42) 0)
  = mkValue NumberType (Itoa 42) 42.
Proof.
  apply (proj1 (proj2 (proj2 (ConvertIntStringsToInt_spec (str "volume")))) 42%Z 0%Z).
  lia.
Defined.

(** ** [ReplaceSymbols] *)

Lemma ReplaceSymbols_symbols_lookup (syms : list (gostring * Value)) (k : gostring) :
  NoDup syms.*1 ->
  ReplaceSymbols_symbols syms !! k
  = match (list_to_map syms : gmap gostring Value) !! k with
    | Some v =>
        if bool_decide (vT v = StringType) then Some (vS v) else predefinedSymbols !! k
    | None => predefinedSymbols !! k
    end.
Proof.
  unfold ReplaceSymbols_symbols. generalize predefinedSymbols as m0.
  induction syms as [|[k0 v0] syms IH]; intros m0 Hnd; [reflexivity|].
  cbn [fmap list_fmap fst] in Hnd. apply NoDup_cons in Hnd as [Hk0 Hnd].
  cbn [foldl fst snd list_to_map foldr]. rewrite IH by exact Hnd.
  destruct (decide (k = k0)) as [->|Hne].
  - rewrite lookup_insert_eq.
    rewrite (not_elem_of_list_to_map_1 _ _ Hk0).
    destruct (bool_decide (vT v0 = StringType)); [apply lookup_insert_eq|reflexivity].
  - rewrite lookup_insert_ne by congruence.
    assert (Hm : (if bool_decide (vT v0 = StringType) then <[k0:=vS v0]> m0 else m0) !! k
                 = m0 !! k).
    { destruct (bool_decide _); [apply lookup_insert_ne; congruence|reflexivity]. }
    rewrite Hm. reflexivity.
Qed.

Lemma defining_snoc (val : gostring) (l : list (gostring * gostring)) (k v : gostring) :
  defining val (l ++ [(k, v)])
  = defining val l ++ (if decide (v = val) then [k] else []).
Proof.
  unfold defining. rewrite filter_app, fmap_app. f_equal.
  rewrite filter_cons, filter_nil. cbn [snd]. destruct (decide (v = val)); reflexivity.
Qed.

(** What [inverted] holds for a text: nothing when no symbol defines
    it, the symbol when exactly one does, the empty symbol otherwise. *)
Lemma ReplaceSymbols_inverted_lookup (order : list (gostring * gostring))
    (val : gostring) :
  ReplaceSymbols_inverted order !! val
  = match defining val order with
    | [] => None
    | [sym] => Some sym
    | _ => Some []
    end.
Proof.
  unfold ReplaceSymbols_inverted.
  induction order as [|[k v] order IH] using rev_ind; [reflexivity|].
  rewrite foldl_app, defining_snoc. cbn [foldl fst snd].
  set (inv := foldl _ ∅ order) in *.
  destruct (decide (v = val)) as [->|Hne].
  - destruct (inv !! val) as [x|] eqn:E; rewrite lookup_insert_eq.
    + destruct (defining val order) as [|a [|b l]]; [discriminate IH|reflexivity|].
      reflexivity.
    + destruct (defining val order) as [|a [|b l]]; [reflexivity|discriminate IH..].
  - rewrite app_nil_r, <- IH.
    destruct (inv !! v); apply lookup_insert_ne; congruence.
Qed.

Section ReplaceSymbolsFacts.
Local Unset Default Proof Using.
Context (U : UnicodeTables) (db : Database).
Context (syms : list (gostring * Value)) (order : list (gostring * gostring)).
Hypothesis Hsyms : syms ≡ₚ map_to_list (Symbols db).
Hypothesis Horder : order ≡ₚ map_to_list (ReplaceSymbols_symbols syms).

Lemma ReplaceSymbols_symbols_spec (k : gostring) :
  ReplaceSymbols_symbols syms !! k
  = match Symbols db !! k with
    | Some v =>
        if bool_decide (vT v = StringType) then Some (vS v) else predefinedSymbols !! k
    | None => predefinedSymbols !! k
    end.
Proof.
  assert (Hnd : NoDup syms.*1).
  { rewrite Hsyms. apply NoDup_fst_map_to_list. }
  rewrite ReplaceSymbols_symbols_lookup by exact Hnd.
  rewrite (list_to_map_proper _ _ Hnd Hsyms), list_to_map_to_list. reflexivity.
Qed.

Lemma defining_elem (val k : gostring) :
  k ∈ defining val order <-> ReplaceSymbols_symbols syms !! k = Some val.
Proof.
  unfold defining. rewrite list_elem_of_fmap. split.
  - intros ([k' v] & -> & H). apply list_elem_of_filter in H as [Hv H].
    cbn in Hv. subst v. rewrite Horder in H. apply elem_of_map_to_list in H. exact H.
  - intros H. exists (k, val). split; [reflexivity|].
    apply list_elem_of_filter. split; [reflexivity|].
    rewrite Horder. apply elem_of_map_to_list. exact H.
Qed.

Lemma defining_NoDup (val : gostring) : NoDup (defining val order).
Proof.
  unfold defining.
  assert (Hnd : NoDup order.*1) by (rewrite Horder; apply NoDup_fst_map_to_list).
  clear Horder. induction order as [|[k v] l IH]; [constructor|].
  cbn [fmap list_fmap fst] in Hnd. apply NoDup_cons in Hnd as [Hk Hnd].
  rewrite filter_cons. destruct (decide _); [|apply IH, Hnd].
  cbn [fmap list_fmap fst]. apply NoDup_cons. split; [|apply IH, Hnd].
  intros Hin. apply Hk. apply list_elem_of_fmap in Hin as (kv & -> & Hin).
  apply list_elem_of_filter in Hin as [_ Hin].
  apply list_elem_of_fmap. eauto.
Qed.

(** X29: whatever the order in which Go visits the two maps,
    [ReplaceSymbols] replaces a string by a symbol exactly when one
    symbol, and only one, defines that very text (a predefined month, or
    a user symbol that is a string); the symbol it writes then resolves
    back to the text, unless a user symbol that is not a string hides
    the month of that name. *)
Theorem ReplaceSymbols_field_spec (tag : gostring) (v : Value) :
  vT v = StringType ->
  (forall k, k <> [] ->
     ReplaceSymbols_symbols syms !! k = Some (vS v) ->
     (forall k', ReplaceSymbols_symbols syms !! k' = Some (vS v) -> k' = k) ->
     ReplaceSymbols_field (ReplaceSymbols_inverted order) tag v
     = mkValue SymbolType k (vI v))
  /\ (ReplaceSymbols_field (ReplaceSymbols_inverted order) tag v <> v ->
      exists k,
        ReplaceSymbols_field (ReplaceSymbols_inverted order) tag v
        = mkValue SymbolType k (vI v)
        /\ k <> []
        /\ ReplaceSymbols_symbols syms !! k = Some (vS v)
        /\ (forall k', ReplaceSymbols_symbols syms !! k' = Some (vS v) -> k' = k)
        /\ (ToLower U k = k ->
            (forall u, Symbols db !! k = Some u -> vT u = StringType) ->
            forall depth, (1 <= depth)%Z ->
              vT (SymbolValue U db (mkValue SymbolType k (vI v)) depth) = StringType
              /\ vS (SymbolValue U db (mkValue SymbolType k (vI v)) depth) = vS v)).
Proof.
  intros HT. unfold ReplaceSymbols_field. rewrite bool_decide_true by exact HT.
  rewrite ReplaceSymbols_inverted_lookup.
  pose proof (defining_NoDup (vS v)) as Hnd.
  pose proof (defining_elem (vS v)) as Hel.
  split.
  - intros k Hk Hdef Huniq.
    destruct (defining (vS v) order) as [|a [|b l]].
    + exfalso. apply Hel in Hdef. inversion Hdef.
    + assert (a = k) by (apply Huniq, Hel; left). subst a.
      unfold string_eq. rewrite bool_decide_false by exact Hk. reflexivity.
    + exfalso.
      assert (a = k) by (apply Huniq, Hel; left).
      assert (b = k) by (apply Huniq, Hel; right; left). subst a b.
      apply NoDup_cons in Hnd as [Hnd _]. apply Hnd. left.
  - destruct (defining (vS v) order) as [|a [|b l]]; [congruence| |].
    2:{ unfold string_eq. rewrite bool_decide_true by reflexivity. cbn. congruence. }
    unfold string_eq. destruct (decide (a = [])) as [Ha|Ha].
    { rewrite bool_decide_true by exact Ha. cbn. congruence. }
    rewrite bool_decide_false by exact Ha. cbn [negb]. intros _.
    exists a. split; [reflexivity|]. split; [exact Ha|].
    assert (Hdef : ReplaceSymbols_symbols syms !! a = Some (vS v)) by (apply Hel; left).
    split; [exact Hdef|]. split.
    { intros k' Hk'. apply Hel in Hk'. apply list_elem_of_singleton in Hk'. exact Hk'. }
    intros Hlow Huser depth Hd. unfold SymbolValue.
    destruct (Z.to_nat depth) as [|n] eqn:En; [lia|].
    cbn [SymbolValue_loop vT vS]. rewrite Hlow.
    rewrite ReplaceSymbols_symbols_spec in Hdef.
    destruct (Symbols db !! a) as [u|] eqn:Eu.
    + rewrite (Huser u eq_refl) in Hdef. rewrite bool_decide_true in Hdef by reflexivity.
      injection Hdef as Hdef.
      rewrite SymbolValue_loop_nonsymbol by (rewrite (Huser u eq_refl); discriminate).
      split; [exact (Huser u eq_refl)|exact Hdef].
    + rewrite Hdef. split; reflexivity.
Qed.

End ReplaceSymbolsFacts.

Lemma ReplaceSymbols_field_spec_witness :
  ReplaceSymbols_field
    (ReplaceSymbols_inverted (map_to_list (ReplaceSymbols_symbols [])))
    (str "month") (StringV (str "January"))
  = mkValue SymbolType (str "jan") 0.
Proof.
  assert (H1 : [] ≡ₚ map_to_list (Symbols NewDatabase)) by (vm_compute; reflexivity).
  apply (proj1 (ReplaceSymbols_field_spec latin1_only NewDatabase [] _ H1
                  (reflexivity _) (str "month") (StringV (str "January")) eq_refl)).
  - discriminate.
  - vm_compute. reflexivity.
  - intros k' Hk'. apply elem_of_map_to_list in Hk'.
    vm_compute in Hk'.
    repeat (apply elem_of_cons in Hk' as [Hk'|Hk'];
            [first [injection Hk' as -> ; reflexivity | discriminate Hk']|]).
    inversion Hk'.
Defined.

Lemma RemoveExactDups_complete_witness :
  exists out,
    RemoveExactDups latin1_only [str "k"]
      (mkDatabase [mkEntry Article (str "article") (str "K") ∅ [] 1;
                   mkEntry Article (str "Article") (str "k") ∅ [] 5] ∅ [] [])
    = Some (map Some out)
    /\ (forall i j ei ej, (i < j)%nat -> out !! i = Some ei -> out !! j = Some ej ->
                          exact_dup_of latin1_only ei ej = false).
Proof.
  assert (Hlive : Forall (fun e => Kind e <> Deleted)
                    (Pubs (mkDatabase [mkEntry Article (str "article") (str "K") ∅ [] 1;
                                       mkEntry Article (str "Article") (str "k") ∅ [] 5]
                             ∅ [] []))).
  { repeat constructor; discriminate. }
  assert (Hord : range_order
                   (bins_by (fun e => Some (ToLower latin1_only (Key e)))
                      (Pubs (mkDatabase [mkEntry Article (str "article") (str "K") ∅ [] 1;
                                         mkEntry Article (str "Article") (str "k") ∅ [] 5]
                               ∅ [] [])))
                   [str "k"]).
  { unfold range_order. vm_compute. reflexivity. }
  destruct (RemoveExactDups_complete latin1_only _ _ Hlive Hord) as (out & H & Hnd & _).
  exists out. split; [exact H|exact Hnd].
Defined.

(** X30: [parseVon] panics on an empty list of words and on nothing
    else; on words that are not empty, the last part it returns is not
    empty, and the von part, a space and the last part (the last part
    alone when there is no von part) are the words joined by spaces
    again. *)
Theorem parseVon_rejoin (U : UnicodeTables) (words : list gostring) :
  (parseVon U words = None <-> words = [])
  /\ (forall von last,
        Forall clean words -> parseVon U words = Some (von, last) ->
        last <> []
        /\ (if negb (string_eq von []) then von ++ str " " ++ last else last)
           = Join words (str " ")).
Proof.
  split; [apply parseVon_None|].
  intros von last Hc H. exact (parseVon_joined U words von last Hc H).
Qed.

Lemma parseVon_rejoin_witness :
  str "von de" ++ str " " ++ str "Moo Berry"
  = Join [str "von"; str "de"; str "Moo"; str "Berry"] (str " ").
Proof.
  assert (Hc : Forall clean [str "von"; str "de"; str "Moo"; str "Berry"]).
  { repeat (apply Forall_cons_2; [split; [discriminate|reflexivity]|]). apply Forall_nil_2. }
  exact (proj2 (proj2 (parseVon_rejoin latin1_only
                         [str "von"; str "de"; str "Moo"; str "Berry"])
                  (str "von de") (str "Moo Berry") Hc eq_refl)).
Defined.

(** * Names of any shape: printing and reading back *)

(** ** UTF-8: where decoding synchronises *)

Lemma cont_range (lo hi : N) (b : byte) :
  128 <= lo -> hi <= 191 -> cont b = false -> inrange lo hi (bval b) = false.
Proof.
  unfold cont, inrange. intros Hlo Hhi H.
  apply andb_false_iff in H. apply andb_false_iff.
  destruct H as [H|H]; [left|right].
  - apply N.leb_gt in H. apply N.leb_gt. lia.
  - apply N.leb_gt in H. apply N.leb_gt. lia.
Qed.

(** What follows a string that is not empty does not change its first
    rune, when it starts a rune of its own. *)
Lemma Decode_app (x B : gostring) :
  x <> [] -> starts_rune B ->
  DecodeRuneInString (x ++ B) = DecodeRuneInString x.
Proof.
  intros Hx HB. destruct x as [|b0 x]; [congruence|].
  cbn [app]. unfold DecodeRuneInString.
  destruct (bval b0 <? 128); [reflexivity|].
  destruct ((bval b0 <? 194) || (244 <? bval b0)); [reflexivity|].
  assert (Hc : forall b l, B = b :: l -> cont b = false) by (intros b l ->; exact HB).
  assert (Hr : forall lo hi b l, B = b :: l -> 128 <= lo -> hi <= 191 ->
                                 inrange lo hi (bval b) = false).
  { intros lo hi b l E Hlo Hhi. apply cont_range; eauto. }
  destruct (bval b0 <? 224).
  { destruct x as [|b1 x]; [|reflexivity]. cbn [app].
    destruct B as [|b l]; [reflexivity|]. rewrite (Hc b l eq_refl). reflexivity. }
  destruct (bval b0 <? 240).
  { set (lo := if bval b0 =? 224 then 160 else 128).
    set (hi := if bval b0 =? 237 then 159 else 191).
    assert (Hlo : 128 <= lo) by (unfold lo; destruct (bval b0 =? 224); lia).
    assert (Hhi : hi <= 191) by (unfold hi; destruct (bval b0 =? 237); lia).
    destruct x as [|b1 [|b2 x]]; [| |reflexivity]; cbn [app].
    - destruct B as [|b [|b' l]]; [reflexivity|reflexivity|].
      rewrite (Hr lo hi b (b' :: l) eq_refl Hlo Hhi). reflexivity.
    - destruct B as [|b l]; [reflexivity|].
      rewrite (Hc b l eq_refl), andb_false_r. reflexivity. }
  set (lo := if bval b0 =? 240 then 144 else 128).
  set (hi := if bval b0 =? 244 then 143 else 191).
  assert (Hlo : 128 <= lo) by (unfold lo; destruct (bval b0 =? 240); lia).
  assert (Hhi : hi <= 191) by (unfold hi; destruct (bval b0 =? 244); lia).
  destruct x as [|b1 [|b2 [|b3 x]]]; [| | |reflexivity]; cbn [app].
  - destruct B as [|b [|b' [|b'' l]]]; [reflexivity|reflexivity|reflexivity|].
    rewrite (Hr lo hi b (b' :: b'' :: l) eq_refl Hlo Hhi). reflexivity.
  - destruct B as [|b [|b' l]]; [reflexivity|reflexivity|].
    rewrite (Hc b (b' :: l) eq_refl), andb_false_r. reflexivity.
  - destruct B as [|b l]; [reflexivity|].
    rewrite (Hc b l eq_refl), andb_false_r. reflexivity.
Qed.

Lemma range_from_shift (k : nat) :
  forall (s : gostring) (i : nat),
    (k <= length s)%nat -> range_from k i s = range_from 0 (i + k) (drop k s).
Proof.
  induction k as [|k IH]; intros s i Hk.
  - rewrite Nat.add_0_r. reflexivity.
  - destruct s as [|b t]; [simpl in Hk; lia|].
    cbn [range_from drop]. rewrite IH by (simpl in Hk; lia).
    f_equal. lia.
Qed.

Lemma range_from_cons (s : gostring) (i : nat) (r : rune) (k : nat) :
  s <> [] -> DecodeRuneInString s = (r, k) ->
  range_from 0 i s = (i, r) :: range_from 0 (i + k) (drop k s).
Proof.
  intros Hs Hd. pose proof (Decode_width s Hs) as Hw. rewrite Hd in Hw. cbn [snd] in Hw.
  destruct s as [|b t]; [congruence|].
  cbn [range_from]. rewrite Hd. f_equal.
  rewrite range_from_shift by (simpl in Hw; lia).
  destruct k as [|k]; [lia|]. cbn [Nat.pred drop]. f_equal. lia.
Qed.

(** The runes of two strings put together, the second starting a rune of
    its own. *)
Lemma range_from_app (x : gostring) :
  forall (B : gostring) (i : nat),
    starts_rune B ->
    range_from 0 i (x ++ B) = range_from 0 i x ++ range_from 0 (i + length x) B.
Proof.
  induction x as [|x r k Hx Hd Hk IH] using rune_ind; intros B i HB.
  - cbn [app length]. rewrite Nat.add_0_r. reflexivity.
  - assert (HxB : x ++ B <> []) by (destruct x; [congruence|discriminate]).
    rewrite (range_from_cons (x ++ B) i r k HxB)
      by (rewrite Decode_app by assumption; exact Hd).
    rewrite (range_from_cons x i r k Hx Hd).
    rewrite drop_app_le by lia. rewrite IH by exact HB.
    rewrite length_drop. cbn [app]. do 3 f_equal. lia.
Qed.

Lemma runes_app (x B : gostring) :
  starts_rune B -> runes (x ++ B) = runes x ++ runes B.
Proof.
  intros HB. unfold runes, range_string.
  rewrite range_from_app by exact HB. rewrite map_app. f_equal.
  apply range_from_index.
Qed.


Lemma runes_byte (b : byte) (t : gostring) :
  bval b < 128 -> runes (b :: t) = bval b :: runes t.
Proof.
  intros Hb. rewrite (runes_cons (b :: t) (bval b) 1); [reflexivity|discriminate|].
  apply Decode_ascii, Hb.
Qed.

Lemma starts_rune_ascii (b : byte) (t : gostring) : bval b < 128 -> starts_rune (b :: t).
Proof.
  intros Hb. unfold starts_rune, cont, inrange.
  apply andb_false_iff. left. apply N.leb_gt. lia.
Qed.








(** ** The last rune of a string *)






(** ** [strings.TrimSpace] on any string *)












(** ** Brace counts *)

Lemma depth_from_app (d : Z) (a b : list rune) :
  depth_from d (a ++ b) = depth_from (depth_from d a) b.
Proof. apply foldl_app. Qed.






(** ** [splitOnTopLevel] *)




















Section TopLevelCommas.
Context (U : UnicodeTables).
Hypothesis HU : keeps_RuneError U.
Local Unset Default Proof Using.










End TopLevelCommas.

Section RoundTrip.
Context (U : UnicodeTables).
Hypothesis HU : keeps_RuneError U.
Local Unset Default Proof Using.












End RoundTrip.



(** The other two conditions are needed as well.  The braces of
    [A b{, C] do not close: its last name [b{, C] takes the first part
    in when the rendering is read back.  And with tables that lower
    U+FFFD to a comma, every byte that is not ASCII separates parts:
    the first part of the name [A, ] followed by the two bytes of a
    letter e with an acute accent is lost from its rendering. *)
Lemma NormalizeName_conditions_needed :
  (exists a,
      NormalizeName latin1_only (str "A b{, C") = Some (Some a)
      /\ First a <> []
      /\ quoteName (von_last a) = von_last a /\ quoteName (First a) = First a
      /\ quoteName (Jr a) = Jr a
      /\ ~ braces_closed (str "A b{, C")
      /\ NormalizeName latin1_only (Author_String a) <> Some (Some a))
  /\ (exists a,
         NormalizeName comma_tables (str "A, " ++ [byte_of 195; byte_of 169])
         = Some (Some a)
         /\ First a <> []
         /\ quoteName (von_last a) = von_last a /\ quoteName (First a) = First a
         /\ quoteName (Jr a) = Jr a
         /\ braces_closed (str "A, " ++ [byte_of 195; byte_of 169])
         /\ ~ keeps_RuneError comma_tables
         /\ NormalizeName comma_tables (Author_String a) <> Some (Some a)).
Proof.
  split.
  - eexists. split; [vm_compute; reflexivity|].
    repeat split; try (vm_compute; reflexivity); try (vm_compute; discriminate).
  - eexists. split; [vm_compute; reflexivity|].
    repeat split; try (vm_compute; reflexivity); try (vm_compute; discriminate).
    intros H. apply H. reflexivity.
Qed.

(** ** Balanced braces close *)

Lemma depth_from_wellnested (ae : bool) (n : nat) :
  forall s, (length s <= n)%nat -> wellnested ae s ->
            forall d, depth_from d (runes s) = d.
Proof.
  induction n as [|n IH]; intros s Hl Hw d.
  - destruct s; [reflexivity|simpl in Hl; lia].
  - destruct Hw as [|b s Hb Hs|body s Hne Hbody Hs]; [reflexivity| |].
    + (* a byte that is no brace may start a longer rune *)
      destruct (DecodeRuneInString (b :: s)) as [r k] eqn:Hd.
      rewrite (runes_cons (b :: s) r k ltac:(discriminate) Hd).
      change (depth_from d (r :: runes (drop k (b :: s))))
        with (depth_from (brace_step d r) (runes (drop k (b :: s)))).
      destruct (Decode_first b s r k Hd)
        as [(-> & _)|[(-> & _)|(Hnl & Hnr & Hk & Hpre)]].
      * exfalso. apply (proj1 Hb). reflexivity.
      * exfalso. apply (proj2 Hb). reflexivity.
      * assert (Hstep : brace_step d r = d).
        { unfold brace_step.
          destruct (N.eqb_spec r r_lbrace); [contradiction|].
          destruct (N.eqb_spec r r_rbrace); [contradiction|]. reflexivity. }
        rewrite Hstep. apply IH.
        -- rewrite length_drop. simpl in *. lia.
        -- apply (wellnested_drop_prefix ae (take k (b :: s))); [exact Hpre|].
           rewrite take_drop. apply wn_byte; assumption.
    + cbn [length] in Hl. rewrite length_app in Hl. cbn [length] in Hl.
      rewrite (runes_byte lbrace) by reflexivity.
      change (depth_from d (bval lbrace :: runes (body ++ rbrace :: s)))
        with (depth_from (d + 1)%Z (runes (body ++ rbrace :: s))).
      rewrite runes_app by (apply starts_rune_ascii; reflexivity).
      rewrite depth_from_app, (IH body) by (lia || exact Hbody).
      rewrite (runes_byte rbrace) by reflexivity.
      change (depth_from (d + 1) (bval rbrace :: runes s))
        with (depth_from (d + 1 - 1)%Z (runes s)).
      rewrite (IH s) by (lia || exact Hs). lia.
Qed.

(** A name with balanced braces closes its braces. *)
Lemma balanced_braces_closed (s : gostring) : balanced s -> braces_closed s.
Proof. intros H. exact (depth_from_wellnested true (length s) s (le_n _) H 0%Z). Qed.
